(** * The whisper.cpp bridge of ivrit_ai_gui: model cache, transcription
    cache, callback registry and the engine facade.

    The Go file that holds [WhisperCGOEngine] is embedded function by
    function.  Whatever lies behind cgo or the operating system (the native
    engine, ffmpeg, the file system, the ticker) is an explicit argument of
    the function that consumes it; the package-level variables are the
    fields of [State]; calls of the caller's sinks, of the native engine and
    of the mutex are recorded, in program order, in a list of [Event]s.

    Integers have the widths of the 64-bit targets the build scripts
    produce.  Segment lists are values: no caller in the repository writes
    into a slice the engine returned, so the slice the cache keeps and the
    one the caller gets never come apart.  The C string allocated for the
    language and the pause after the poller is told to stop leave no mark on
    what is observed here and are left out. *)

From Stdlib Require Import ZArith Lia List String Ascii Strings.Byte.
From Stdlib Require Import Floats.PrimFloat Numbers.Cyclic.Int63.Uint63.
From stdpp Require Import gmap strings list pretty.

Local Open Scope string_scope.
Local Open Scope list_scope.
Local Open Scope Z_scope.

(** ** Go's fixed-width integers *)

Module GoInt.

(** Value of the low [w] bits of [z], read as an unsigned integer. *)
Definition wrapu (w : Z) (z : Z) : Z := z mod 2 ^ w.

(** Value of the low [w] bits of [z], read in two's complement. *)
Definition wraps (w : Z) (z : Z) : Z :=
  (z + 2 ^ (w - 1)) mod 2 ^ w - 2 ^ (w - 1).

(** [uintptr] and [int] on the 64-bit targets the build scripts address. *)
Definition uintptr (z : Z) : Z := wrapu 64 z.
Definition int (z : Z) : Z := wraps 64 z.
Definition int32 (z : Z) : Z := wraps 32 z.
Definition int16 (z : Z) : Z := wraps 16 z.
(** cgo's [C.int]. *)
Definition c_int (z : Z) : Z := wraps 32 z.
Definition C_INT_MAX : Z := 2 ^ 31 - 1.

(** [float64(z)] for a 64-bit signed [z]: the primitive conversion rounds an
    unsigned 63-bit integer to nearest-even, and rounding is symmetric. *)
Definition float64 (z : Z) : float :=
  if z =? - 2 ^ 63 then PrimFloat.opp (PrimFloat.mul (PrimFloat.of_uint63 (Uint63.of_Z (2 ^ 62))) 2%float)
  else if z <? 0 then PrimFloat.opp (PrimFloat.of_uint63 (Uint63.of_Z (- z)))
  else PrimFloat.of_uint63 (Uint63.of_Z z).

End GoInt.

(** ** Byte slices and strings *)

Module Bytes.

(** A Go string holds bytes; so does Rocq's [string]. *)
Definition of_string (s : string) : list byte := list_byte_of_string s.

(** [string(a) == string(b)]. *)
Fixpoint eqb (a b : list byte) : bool :=
  match a, b with
  | [], [] => true
  | x :: a', y :: b' => Byte.eqb x y && eqb a' b'
  | _, _ => false
  end.

(** [data[lo:hi]] for [lo <= hi <= len(data)]. *)
Definition slice (data : list byte) (lo hi : nat) : list byte :=
  take (hi - lo) (drop lo data).

(** [int(data[i])]; every use below is guarded by a length check, so the
    out-of-range default is never read. *)
Definition at_ (data : list byte) (i : nat) : Z :=
  match data !! i with
  | Some b => Z.of_N (Byte.to_N b)
  | None => 0
  end.

End Bytes.

(** ** Results of Go functions *)

(** A Go [(T, error)] pair: the value, or the error's message. *)
Inductive result (A : Type) : Type :=
| Ok (a : A)
| Err (msg : string).
Arguments Ok {A} a.
Arguments Err {A} msg.

Definition is_err {A} (r : result A) : Prop :=
  match r with Ok _ => False | Err _ => True end.

(** ** readWAVFile *)

Module Wav.

(** The loop [for i := 12; i < len(data)-8; i++] that looks for the data
    chunk: [n] is the number of iterations left, [i] the current index.  The
    result is [dataOffset], 44 when the loop ends without a [break]. *)
Fixpoint find_data_chunk (data : list byte) (i n : nat) : nat :=
  match n with
  | O => 44%nat
  | S n' =>
      if Bytes.eqb (Bytes.slice data i (i + 4)) (Bytes.of_string "data")
      then (i + 8)%nat
      else find_data_chunk data (S i) n'
  end.

(** Bytes 24-27, little-endian. *)
Definition sample_rate (data : list byte) : Z :=
  Z.lor (Z.lor (Z.lor (Bytes.at_ data 24)
                      (Z.shiftl (Bytes.at_ data 25) 8))
               (Z.shiftl (Bytes.at_ data 26) 16))
        (Z.shiftl (Bytes.at_ data 27) 24).

(** [file] is what [os.ReadFile(wavPath)] yields: the contents or the
    error. *)
Definition readWAVFile (file : result (list byte)) : result (list byte * Z) :=
  match file with
  | Err e => Err e
  | Ok data =>
      if (length data <? 44)%nat then Err "WAV file too short"
      else if negb (Bytes.eqb (Bytes.slice data 0 4) (Bytes.of_string "RIFF"))
      then Err "not a valid WAV file"
      else if negb (Bytes.eqb (Bytes.slice data 8 12) (Bytes.of_string "WAVE"))
      then Err "not a valid WAV file"
      else
        let sampleRate := sample_rate data in
        let dataOffset := find_data_chunk data 12 (length data - 8 - 12) in
        Ok (drop dataOffset data, sampleRate)
  end.

(** The tag ["data"] stands at offset [i] of the file. *)
Definition data_tag_at (data : list byte) (i : nat) : bool :=
  Bytes.eqb (Bytes.slice data i (i + 4)) (Bytes.of_string "data").

(** The tag ["data"] stands somewhere in the file. *)
Definition has_data_tag (data : list byte) : bool :=
  existsb (data_tag_at data) (seq 0 (length data)).

(** The two tags [readWAVFile] insists on. *)
Definition has_riff (data : list byte) : bool :=
  Bytes.eqb (Bytes.slice data 0 4) (Bytes.of_string "RIFF").
Definition has_wave (data : list byte) : bool :=
  Bytes.eqb (Bytes.slice data 8 12) (Bytes.of_string "WAVE").

(** The unsigned 32-bit integer whose little-endian bytes stand at offsets
    [i] to [i+3]. *)
Definition le32 (data : list byte) (i : nat) : Z :=
  Bytes.at_ data i + 2 ^ 8 * Bytes.at_ data (i + 1)
  + 2 ^ 16 * Bytes.at_ data (i + 2) + 2 ^ 24 * Bytes.at_ data (i + 3).

(** A 44-byte file: the canonical header of a 16 kHz mono 16-bit stream
    that carries no sample, its chunk tag at offset 36 blanked. *)
Definition header_only : list byte :=
  Bytes.of_string "RIFF" ++ [x24; x00; x00; x00] ++ Bytes.of_string "WAVEfmt "
  ++ [x10; x00; x00; x00; x01; x00; x01; x00; x80; x3e; x00; x00;
      x00; x7d; x00; x00; x02; x00; x10; x00]
  ++ Bytes.of_string "    " ++ [x00; x00; x00; x00].

End Wav.

(** ** UTF-8, as Go's [[]rune(s)] and [string(runes)] read and write it *)

Module Utf8.

Definition RuneError : Z := 0xFFFD.

Definition byte_of_Z (z : Z) : byte :=
  match Byte.of_N (Z.to_N z) with
  | Some b => b
  | None => x00
  end.

Definition in_range (lo hi : Z) (b : byte) : bool :=
  (lo <=? Z.of_N (Byte.to_N b)) && (Z.of_N (Byte.to_N b) <=? hi).

(** Payload bits of a continuation byte. *)
Definition low6 (b : byte) : Z := Z.land (Z.of_N (Byte.to_N b)) 0x3F.

(** What the first byte of a sequence announces: the number of continuation
    bytes and the range accepted for the first of them.  [None] for a byte
    that starts no sequence. *)
Definition first (b0 : byte) : option (nat * Z * Z) :=
  let n := Z.of_N (Byte.to_N b0) in
  if n <? 0x80 then Some (0%nat, 0, 0)
  else if n <? 0xC2 then None
  else if n <? 0xE0 then Some (1%nat, 0x80, 0xBF)
  else if n =? 0xE0 then Some (2%nat, 0xA0, 0xBF)
  else if n =? 0xED then Some (2%nat, 0x80, 0x9F)
  else if n <? 0xF0 then Some (2%nat, 0x80, 0xBF)
  else if n =? 0xF0 then Some (3%nat, 0x90, 0xBF)
  else if n <? 0xF4 then Some (3%nat, 0x80, 0xBF)
  else if n =? 0xF4 then Some (3%nat, 0x80, 0x8F)
  else None.

(** [[]rune(s)]: an ill-formed byte decodes to [RuneError] and is skipped
    alone. *)
Fixpoint decode (s : list byte) : list Z :=
  match s with
  | [] => []
  | b0 :: r =>
      let n := Z.of_N (Byte.to_N b0) in
      match first b0 with
      | Some (O, _, _) => n :: decode r
      | Some (1%nat, lo, hi) =>
          match r with
          | b1 :: r1 =>
              if in_range lo hi b1
              then Z.lor (Z.shiftl (Z.land n 0x1F) 6) (low6 b1) :: decode r1
              else RuneError :: decode r
          | _ => RuneError :: decode r
          end
      | Some (2%nat, lo, hi) =>
          match r with
          | b1 :: b2 :: r2 =>
              if in_range lo hi b1 && in_range 0x80 0xBF b2
              then Z.lor (Z.lor (Z.shiftl (Z.land n 0x0F) 12)
                                (Z.shiftl (low6 b1) 6)) (low6 b2) :: decode r2
              else RuneError :: decode r
          | _ => RuneError :: decode r
          end
      | Some (_, lo, hi) =>
          match r with
          | b1 :: b2 :: b3 :: r3 =>
              if in_range lo hi b1 && in_range 0x80 0xBF b2 && in_range 0x80 0xBF b3
              then Z.lor (Z.lor (Z.lor (Z.shiftl (Z.land n 0x07) 18)
                                       (Z.shiftl (low6 b1) 12))
                                (Z.shiftl (low6 b2) 6)) (low6 b3) :: decode r3
              else RuneError :: decode r
          | _ => RuneError :: decode r
          end
      | None => RuneError :: decode r
      end
  end.

(** The bytes [string(r)] has for one rune. *)
Definition encode_rune (r : Z) : list byte :=
  let r := if (r <? 0) || (0x10FFFF <? r) || ((0xD800 <=? r) && (r <=? 0xDFFF))
           then RuneError else r in
  let cont (z : Z) := byte_of_Z (Z.lor 0x80 (Z.land z 0x3F)) in
  if r <=? 0x7F then [byte_of_Z r]
  else if r <=? 0x7FF then [byte_of_Z (Z.lor 0xC0 (Z.shiftr r 6)); cont r]
  else if r <=? 0xFFFF
  then [byte_of_Z (Z.lor 0xE0 (Z.shiftr r 12)); cont (Z.shiftr r 6); cont r]
  else [byte_of_Z (Z.lor 0xF0 (Z.shiftr r 18)); cont (Z.shiftr r 12);
        cont (Z.shiftr r 6); cont r].

Definition encode (runes : list Z) : list byte :=
  concat (map encode_rune runes).

(** [string([]rune(text))]. *)
Definition revalidate (text : string) : string :=
  string_of_list_byte (encode (decode (list_byte_of_string text))).

End Utf8.

(** ** Data model *)

(** [Segment] of transcription.go. *)
Record Segment : Type := mkSegment {
  Start : float;
  End_ : float;
  Text : string;
  Original : string;
  Translation : string;
  Speaker : Z;
}.

(** What the native context answers about its [i]-th segment. *)
Record NativeSegment : Type := mkNativeSegment {
  ns_t0 : Z;
  ns_t1 : Z;
  ns_text : string;
  ns_speaker_turn_next : bool;
}.

(** Identity of a Go function value handed in by the caller. *)
Definition sink : Type := N.

(** [*cachedModel]: the address identifies the object and its mutex; [ctx]
    is the native context pointer, 0 for NULL. *)
Record cachedModel : Type := mkCachedModel {
  addr : N;
  ctx : N;
}.

Record WhisperCGOEngine : Type := mkEngine {
  model : option cachedModel;
  modelPath : string;
  fromCache : bool;
}.

(** [transcriptionCallbacks].  [progressPercent] is the pointer to the
    invocation's progress cell ([None] for nil). *)
Record transcriptionCallbacks : Type := mkCallbacks {
  progressCallback : option sink;
  segmentCallback : option sink;
  cb_ctx : N;
  currentSpeaker : Z;
  progressPercent : option N;
}.

(** The fields of [whisper_full_params] that the bridge writes, and the two
    callback installation points. *)
Record whisper_full_params : Type := mkParams {
  language : string;
  n_threads : Z;
  translate : bool;
  print_progress : bool;
  print_special : bool;
  print_realtime : bool;
  print_timestamps : bool;
  tdrz_enable : bool;
  progress_callback : bool;
  progress_callback_user_data : Z;
  new_segment_callback : bool;
  new_segment_callback_user_data : Z;
}.

(** [whisper_full_default_params(WHISPER_SAMPLING_GREEDY)] of whisper.h: no
    callback installed. *)
Definition whisper_full_default_params : whisper_full_params :=
  {| language := "en"; n_threads := 4; translate := false;
     print_progress := true; print_special := false; print_realtime := false;
     print_timestamps := true; tdrz_enable := false;
     progress_callback := false; progress_callback_user_data := 0;
     new_segment_callback := false; new_segment_callback_user_data := 0 |}.

(** What happens while [whisper_full] runs, in the order it happens: the
    engine reports progress, the engine announces a new segment (its
    segments so far are given), or the poller's 200 ms ticker fires. *)
Inductive NativeEvent : Type :=
| NativeProgress (progress : Z)
| NativeNewSegment (so_far : list NativeSegment)
| Tick.

(** One run of [whisper_full]: its return status, what happened during the
    call, and the segments the context holds afterwards. *)
Record NativeRun : Type := mkNativeRun {
  nr_status : Z;
  nr_events : list NativeEvent;
  nr_segments : list NativeSegment;
}.

(** Effects visible outside the bridge, in program order. *)
Inductive Event : Type :=
| EvProgress (to : sink) (msg : string)
| EvSegment (to : sink) (seg : Segment)
| EvLock (mutex : N)
| EvUnlock (mutex : N)
| EvConvert (audioPath tempPath : string)
| EvRemove (path : string)
| EvRegister (token : Z)
| EvWhisperFull (ctx : N) (params : whisper_full_params) (samples : list float)
| EvWhisperFullReturn (status : Z).

(** The package-level variables, and the heap cells the bridge allocates.
    The two maps of pointers only ever receive pointers to fresh objects, so
    their values are the objects themselves and the nil checks of the
    readers always pass. *)
Record State : Type := mkState {
  modelCache : gmap string cachedModel;
  transcriptionCache : gmap (string * string) (list Segment);
  callbackRegistry : gmap Z transcriptionCallbacks;
  callbackIDCounter : Z;
  cells : gmap N Z;
  heap_next : N;
}.

(** The state a fresh process starts in. *)
Definition init_state : State :=
  {| modelCache := ∅; transcriptionCache := ∅; callbackRegistry := ∅;
     callbackIDCounter := 1; cells := ∅; heap_next := 1 |}.

Definition set_modelCache (f : gmap string cachedModel → gmap string cachedModel) (st : State) : State :=
  {| modelCache := f (modelCache st); transcriptionCache := transcriptionCache st;
     callbackRegistry := callbackRegistry st; callbackIDCounter := callbackIDCounter st;
     cells := cells st; heap_next := heap_next st |}.

Definition set_transcriptionCache
    (f : gmap (string * string) (list Segment) → gmap (string * string) (list Segment))
    (st : State) : State :=
  {| modelCache := modelCache st; transcriptionCache := f (transcriptionCache st);
     callbackRegistry := callbackRegistry st; callbackIDCounter := callbackIDCounter st;
     cells := cells st; heap_next := heap_next st |}.

Definition set_callbackRegistry
    (f : gmap Z transcriptionCallbacks → gmap Z transcriptionCallbacks) (st : State) : State :=
  {| modelCache := modelCache st; transcriptionCache := transcriptionCache st;
     callbackRegistry := f (callbackRegistry st); callbackIDCounter := callbackIDCounter st;
     cells := cells st; heap_next := heap_next st |}.

Definition set_callbackIDCounter (c : Z) (st : State) : State :=
  {| modelCache := modelCache st; transcriptionCache := transcriptionCache st;
     callbackRegistry := callbackRegistry st; callbackIDCounter := c;
     cells := cells st; heap_next := heap_next st |}.

Definition set_cells (f : gmap N Z → gmap N Z) (st : State) : State :=
  {| modelCache := modelCache st; transcriptionCache := transcriptionCache st;
     callbackRegistry := callbackRegistry st; callbackIDCounter := callbackIDCounter st;
     cells := f (cells st); heap_next := heap_next st |}.

(** A fresh heap address. *)
Definition alloc (st : State) : N * State :=
  (heap_next st,
   {| modelCache := modelCache st; transcriptionCache := transcriptionCache st;
      callbackRegistry := callbackRegistry st; callbackIDCounter := callbackIDCounter st;
      cells := cells st; heap_next := N.succ (heap_next st) |}).

(** ** Model cache *)

Module ModelCache.

(** What [NewWhisperCGOEngine] learns from outside: whether [os.Stat] says
    the file does not exist, and the pointer
    [whisper_init_from_file_with_params] returns (0 for NULL). *)
Record LoadEnv : Type := mkLoadEnv {
  stat_not_exist : bool;
  whisper_init : N;
}.

(** Where a call stands after its read-locked section: it has returned, or
    it holds a freshly loaded context and has yet to take the write lock. *)
Inductive Lookup : Type :=
| Finished (r : result WhisperCGOEngine)
| Loaded (ctx : N).

(** From the entry to the load: the argument checks, the read-locked cache
    lookup and, on a miss, the load, which touches no shared state. *)
Definition lookup_phase (env : LoadEnv) (modelPath : string) (st : State) : Lookup :=
  if String.eqb modelPath "" then Finished (Err "model path required")
  else if stat_not_exist env then Finished (Err ("model file not found: " +:+ modelPath))
  else
    match modelCache st !! modelPath with
    | Some cachedMdl =>
        Finished (Ok {| model := Some cachedMdl; modelPath := modelPath; fromCache := true |})
    | None =>
        let ctx := whisper_init env in
        if (ctx =? 0)%N then Finished (Err ("failed to load model from " +:+ modelPath))
        else Loaded ctx
    end.

(** The write-locked section: allocate the [cachedModel] and store it. *)
Definition store_phase (modelPath : string) (ctx : N) (st : State) : WhisperCGOEngine * State :=
  let '(a, st1) := alloc st in
  let cachedMdl := {| addr := a; ctx := ctx |} in
  ({| model := Some cachedMdl; modelPath := modelPath; fromCache := false |},
   set_modelCache (<[modelPath := cachedMdl]>) st1).

(** One call running alone. *)
Definition NewWhisperCGOEngine (env : LoadEnv) (modelPath : string) (st : State)
  : result WhisperCGOEngine * State :=
  match lookup_phase env modelPath st with
  | Finished r => (r, st)
  | Loaded ctx => let '(e, st') := store_phase modelPath ctx st in (Ok e, st')
  end.

(** Two calls [A] and [B] for the same path whose sections interleave as
    lookup A, lookup B, store B, store A.  The result is [None] unless both
    lookups miss and both loads succeed. *)
Definition race (envA envB : LoadEnv) (modelPath : string) (st : State)
  : option (WhisperCGOEngine * WhisperCGOEngine * State) :=
  match lookup_phase envA modelPath st, lookup_phase envB modelPath st with
  | Loaded ctxA, Loaded ctxB =>
      let '(eB, st1) := store_phase modelPath ctxB st in
      let '(eA, st2) := store_phase modelPath ctxA st1 in
      Some (eA, eB, st2)
  | _, _ => None
  end.

End ModelCache.

(** ** Callback registry and progress relay *)

Module Registry.

Definition whisper_full_get_segment_t0 (segs : list NativeSegment) (i : nat) : Z :=
  match segs !! i with Some s => ns_t0 s | None => 0 end.
Definition whisper_full_get_segment_t1 (segs : list NativeSegment) (i : nat) : Z :=
  match segs !! i with Some s => ns_t1 s | None => 0 end.
Definition whisper_full_get_segment_text (segs : list NativeSegment) (i : nat) : string :=
  match segs !! i with Some s => ns_text s | None => "" end.
Definition whisper_full_get_segment_speaker_turn_next (segs : list NativeSegment) (i : nat) : bool :=
  match segs !! i with Some s => ns_speaker_turn_next s | None => false end.

(** Centiseconds to seconds. *)
Definition seconds (t : Z) : float := PrimFloat.div (GoInt.float64 t) 100%float.

(** [callbacks.currentSpeaker++] on the slot stored under [callbackID]. *)
Definition bump_speaker (callbacks : transcriptionCallbacks) : transcriptionCallbacks :=
  {| progressCallback := progressCallback callbacks;
     segmentCallback := segmentCallback callbacks;
     cb_ctx := cb_ctx callbacks;
     currentSpeaker := GoInt.int (currentSpeaker callbacks + 1);
     progressPercent := progressPercent callbacks |}.

(** The exported new-segment handler; [segs] is what the context holds when
    the engine calls it. *)
Definition whisper_new_segment_callback_go
    (segs : list NativeSegment) (userData : Z) (st : State) : State * list Event :=
  let callbackID := userData in
  let nSegments := length segs in
  if (nSegments =? 0)%nat then (st, [])
  else
    let lastIdx := (nSegments - 1)%nat in
    let speakerTurn :=
      if (0 <? lastIdx)%nat
      then whisper_full_get_segment_speaker_turn_next segs (lastIdx - 1)
      else false in
    let t0 := whisper_full_get_segment_t0 segs lastIdx in
    let t1 := whisper_full_get_segment_t1 segs lastIdx in
    let text := whisper_full_get_segment_text segs lastIdx in
    match callbackRegistry st !! callbackID with
    | None => (st, [])
    | Some callbacks =>
        match segmentCallback callbacks with
        | None => (st, [])
        | Some cb =>
            let callbacks' := if speakerTurn then bump_speaker callbacks else callbacks in
            let segment :=
              {| Start := seconds t0; End_ := seconds t1; Text := text;
                 Original := ""; Translation := "";
                 Speaker := currentSpeaker callbacks' |} in
            (set_callbackRegistry (<[callbackID := callbacks']>) st, [EvSegment cb segment])
        end
    end.

(** The exported progress handler: one atomic store into the slot's cell. *)
Definition whisper_progress_callback_go (progress : Z) (userData : Z) (st : State) : State :=
  let callbackID := userData in
  match callbackRegistry st !! callbackID with
  | Some callbacks =>
      match progressPercent callbacks with
      | Some cell => set_cells (<[cell := GoInt.int32 progress]>) st
      | None => st
      end
  | None => st
  end.

(** [atomic.LoadInt32] on a cell. *)
Definition load_cell (cell : N) (st : State) : Z := default 0 (cells st !! cell).

Definition progress_message (currentProgress : Z) : string :=
  "Transcribing... " +:+ pretty currentProgress +:+ "%".

(** One firing of the ticker in the polling goroutine: the new
    [lastProgress], and the value reported to the progress sink, if any. *)
Definition poll_tick (lastProgress currentProgress : Z) : Z * option Z :=
  if negb (currentProgress =? lastProgress)
  then (currentProgress,
        if (0 <? currentProgress) && (currentProgress <=? 100)
        then Some currentProgress else None)
  else (lastProgress, None).

(** The polling goroutine over the values it loads at ticks [k], [k+1], ...:
    the ticks at which it calls the progress sink, each with the value the
    message carries. *)
Fixpoint poll_from (k : nat) (lastProgress : Z) (samples : list Z) : list (nat * Z) :=
  match samples with
  | [] => []
  | currentProgress :: rest =>
      let '(last', out) := poll_tick lastProgress currentProgress in
      match out with
      | Some v => (k, v) :: poll_from (S k) last' rest
      | None => poll_from (S k) last' rest
      end
  end.

(** The goroutine starts with [lastProgress := int32(-1)]. *)
Definition poll (samples : list Z) : list (nat * Z) := poll_from 0 (-1) samples.

(** The status messages of the goroutine, in order. *)
Definition poll_messages (samples : list Z) : list string :=
  map (fun e => progress_message (snd e)) (poll samples).

(** [callbackID = callbackIDCounter; callbackIDCounter++; registry[id] = slot]
    under the registry lock. *)
Definition register (slot : transcriptionCallbacks) (st : State) : Z * State :=
  let callbackID := callbackIDCounter st in
  (callbackID,
   set_callbackRegistry (<[callbackID := slot]>)
     (set_callbackIDCounter (GoInt.uintptr (callbackIDCounter st + 1)) st)).

(** The deferred cleanup of [TranscribeWithTranslation]. *)
Definition unregister (callbackID : Z) (st : State) : State :=
  if callbackID =? 0 then st else set_callbackRegistry (delete callbackID) st.

(** While [whisper_full] runs: the engine's callbacks, delivered only
    through the installation points of [params], and the polling goroutine,
    present only when [poller] names the progress sink and the cell. *)
Fixpoint run_events (params : whisper_full_params) (poller : option (sink * N))
    (evs : list NativeEvent) (lastProgress : Z) (st : State) : State * list Event :=
  match evs with
  | [] => (st, [])
  | NativeProgress p :: evs' =>
      let st1 :=
        if progress_callback params
        then whisper_progress_callback_go (GoInt.c_int p) (progress_callback_user_data params) st
        else st in
      run_events params poller evs' lastProgress st1
  | NativeNewSegment segs :: evs' =>
      let '(st1, tr1) :=
        if new_segment_callback params
        then whisper_new_segment_callback_go segs (new_segment_callback_user_data params) st
        else (st, []) in
      let '(st2, tr2) := run_events params poller evs' lastProgress st1 in
      (st2, tr1 ++ tr2)
  | Tick :: evs' =>
      match poller with
      | None => run_events params poller evs' lastProgress st
      | Some (to, cell) =>
          let '(last', out) := poll_tick lastProgress (load_cell cell st) in
          let tr1 := match out with
                     | Some v => [EvProgress to (progress_message v)]
                     | None => []
                     end in
          let '(st2, tr2) := run_events params poller evs' last' st in
          (st2, tr1 ++ tr2)
      end
  end.

(** The values the polling goroutine loads from [cell] at the ticks of one
    run of the native call. *)
Fixpoint tick_samples (params : whisper_full_params) (cell : N)
    (evs : list NativeEvent) (st : State) : list Z :=
  match evs with
  | [] => []
  | NativeProgress p :: evs' =>
      tick_samples params cell evs'
        (if progress_callback params
         then whisper_progress_callback_go (GoInt.c_int p) (progress_callback_user_data params) st
         else st)
  | NativeNewSegment segs :: evs' =>
      tick_samples params cell evs'
        (if new_segment_callback params
         then fst (whisper_new_segment_callback_go segs (new_segment_callback_user_data params) st)
         else st)
  | Tick :: evs' => load_cell cell st :: tick_samples params cell evs' st
  end.

(** No two neighbours of a list are equal. *)
Definition no_repeat (l : list Z) : Prop :=
  ∀ i v, l !! i = Some v → l !! S i ≠ Some v.

(** The values the poller's messages carry, in order. *)
Definition poll_values (samples : list Z) : list Z := map snd (poll samples).

(** A value the poller loads but does not report. *)
Definition unreported (x : Z) : Prop := ¬ (0 < x <= 100).

End Registry.

(** ** Engine facade *)

Module Engine.

Import Registry.

(** What one call of [TranscribeWithTranslation] meets outside the bridge:
    [os.CreateTemp], the exit of the ffmpeg process ([None] for success),
    [os.ReadFile] on the converted file, and the native engine, whose run
    may depend on the context, the parameters and the samples it is given. *)
Record CallEnv : Type := mkCallEnv {
  env_createTemp : result string;
  env_ffmpeg : option string;
  env_readFile : result (list byte);
  env_whisper_full : N → whisper_full_params → list float → NativeRun;
}.

(** How a call ends: it returns Go's [([]Segment, error)], or it panics. *)
Inductive completion : Type :=
| Returned (r : result (list Segment))
| Panicked (msg : string).

(** [progressCallback(msg)] behind its nil check. *)
Definition report (progressCallback : option sink) (msg : string) : list Event :=
  match progressCallback with
  | Some to => [EvProgress to msg]
  | None => []
  end.

(** [segmentCallback(seg)] for each segment in turn, behind its nil check. *)
Definition deliver (segmentCallback : option sink) (segs : list Segment) : list Event :=
  match segmentCallback with
  | Some to => map (EvSegment to) segs
  | None => []
  end.

Definition prepareAudioFile (env : CallEnv) (audioPath : string)
    (progressCallback : option sink) : result string * list Event :=
  let tr0 := report progressCallback "Preparing audio file..." in
  match env_createTemp env with
  | Err e => (Err e, tr0)
  | Ok tempPath =>
      match env_ffmpeg env with
      | Some e =>
          (Err ("ffmpeg conversion failed: " +:+ e),
           tr0 ++ [EvConvert audioPath tempPath; EvRemove tempPath])
      | None => (Ok tempPath, tr0 ++ [EvConvert audioPath tempPath])
      end
  end.

(** [int16(audioData[i*2]) | int16(audioData[i*2+1])<<8], then
    [float32(sample) / 32768.0]: a 16-bit integer over a power of two is
    exact in single precision, so the double below is the same number. *)
Definition sample_at (audioData : list byte) (i : nat) : float :=
  let sample :=
    Z.lor (GoInt.int16 (Bytes.at_ audioData (i * 2)))
          (GoInt.int16 (Z.shiftl (GoInt.int16 (Bytes.at_ audioData (i * 2 + 1))) 8)) in
  PrimFloat.div (GoInt.float64 sample) 32768%float.

(** [samples := make([]float32, len(audioData)/2)] and the loop filling it. *)
Definition samples_of (audioData : list byte) : list float :=
  map (sample_at audioData) (seq 0 (length audioData / 2)).

(** The parameters of the invocation. *)
Definition configure (cpuThreads : Z) (translateTo : string) : whisper_full_params :=
  let params := whisper_full_default_params in
  {| language := "he";
     n_threads := GoInt.c_int cpuThreads;
     translate := String.eqb translateTo "en";
     print_progress := false;
     print_special := false;
     print_realtime := false;
     print_timestamps := true;
     tdrz_enable := true;
     progress_callback := progress_callback params;
     progress_callback_user_data := progress_callback_user_data params;
     new_segment_callback := new_segment_callback params;
     new_segment_callback_user_data := new_segment_callback_user_data params |}.

(** [params.progress_callback = ...; params.progress_callback_user_data = id]. *)
Definition install_progress (callbackID : Z) (params : whisper_full_params)
  : whisper_full_params :=
  {| language := language params; n_threads := n_threads params;
     translate := translate params; print_progress := print_progress params;
     print_special := print_special params; print_realtime := print_realtime params;
     print_timestamps := print_timestamps params; tdrz_enable := tdrz_enable params;
     progress_callback := true;
     progress_callback_user_data := callbackID;
     new_segment_callback := new_segment_callback params;
     new_segment_callback_user_data := new_segment_callback_user_data params |}.

(** The locals alive when [whisper_full] is called. *)
Record Invocation : Type := mkInvocation {
  inv_model : cachedModel;
  inv_tempWav : string;
  inv_params : whisper_full_params;
  inv_samples : list float;
  inv_callbackID : Z;
  inv_progressCell : N;
}.

(** Where a call stands when it has got as far as the native call can be
    issued: it is over (with its deferred calls run), or it is about to
    call [whisper_full]. *)
Inductive Setup : Type :=
| SetupExit (c : completion) (st : State) (tr : list Event)
| SetupNative (inv : Invocation) (st : State) (tr : list Event).

(** The speaker-tracking loop [for i := 0; i < nSegments; i++]; [n] is the
    number of iterations left. *)
Fixpoint extract_loop (segs : list NativeSegment) (i n : nat) (currentSpeaker : Z)
  : list Segment :=
  match n with
  | O => []
  | S n' =>
      let currentSpeaker :=
        if (0 <? i)%nat && whisper_full_get_segment_speaker_turn_next segs (i - 1)
        then GoInt.int (currentSpeaker + 1)
        else currentSpeaker in
      let segment :=
        {| Start := seconds (whisper_full_get_segment_t0 segs i);
           End_ := seconds (whisper_full_get_segment_t1 segs i);
           Text := Utf8.revalidate (whisper_full_get_segment_text segs i);
           Original := ""; Translation := "";
           Speaker := currentSpeaker |} in
      segment :: extract_loop segs (S i) n' currentSpeaker
  end.

Definition extract_segments (segs : list NativeSegment) : list Segment :=
  extract_loop segs 0 (length segs) 0.

(** The deferred calls that are pending once the slot may have been
    registered, in the order they run: the registry cleanup, the removal of
    the converted file, the release of the model's mutex. *)
Definition run_deferred (m : cachedModel) (tempWav : string) (callbackID : Z)
    (st : State) : State * list Event :=
  (unregister callbackID st, [EvRemove tempWav; EvUnlock (addr m)]).

(** From the entry of [TranscribeWithTranslation] to the call of
    [whisper_full]. *)
Definition transcribe_setup (e : WhisperCGOEngine) (env : CallEnv)
    (audioPath modelID : string) (cpuThreads : Z) (translateTo : string)
    (progressCallback segmentCallback : option sink) (st : State) : Setup :=
  match model e with
  | None => SetupExit (Returned (Err "whisper context not initialized")) st []
  | Some m =>
      if (ctx m =? 0)%N
      then SetupExit (Returned (Err "whisper context not initialized")) st []
      else
        match (if String.eqb translateTo ""
               then transcriptionCache st !! (audioPath, modelID) else None) with
        | Some cachedSegments =>
            SetupExit (Returned (Ok cachedSegments)) st
              (report progressCallback "Using cached transcription..."
               ++ deliver segmentCallback cachedSegments
               ++ report progressCallback
                    ("Loaded cached transcription ("
                     +:+ pretty (Z.of_nat (length cachedSegments)) +:+ " segments)"))
        | None =>
            let tr1 :=
              [EvLock (addr m)]
              ++ report progressCallback
                   ("Transcribing with native whisper.cpp (model: " +:+ modelID +:+ ")...") in
            match prepareAudioFile env audioPath progressCallback with
            | (Err err, tr2) =>
                SetupExit (Returned (Err ("failed to prepare audio: " +:+ err))) st
                  (tr1 ++ tr2 ++ [EvUnlock (addr m)])
            | (Ok tempWav, tr2) =>
                match Wav.readWAVFile (env_readFile env) with
                | Err err =>
                    SetupExit (Returned (Err ("failed to read audio: " +:+ err))) st
                      (tr1 ++ tr2 ++ [EvRemove tempWav; EvUnlock (addr m)])
                | Ok (audioData, sampleRate) =>
                    if negb (sampleRate =? 16000)
                    then SetupExit
                           (Returned (Err ("sample rate must be 16000 Hz, got "
                                           +:+ pretty sampleRate))) st
                           (tr1 ++ tr2 ++ [EvRemove tempWav; EvUnlock (addr m)])
                    else
                      let params := configure cpuThreads translateTo in
                      let '(cell, st1) := alloc st in
                      let st2 := set_cells (<[cell := 0]>) st1 in
                      let '(callbackID, params, st3, tr3) :=
                        match progressCallback with
                        | Some _ =>
                            let '(callbackID, st3) :=
                              register {| progressCallback := None;
                                          segmentCallback := None;
                                          cb_ctx := ctx m;
                                          currentSpeaker := 0;
                                          progressPercent := Some cell |} st2 in
                            (callbackID, install_progress callbackID params, st3,
                             [EvRegister callbackID])
                        | None => (0, params, st2, [])
                        end in
                      let samples := samples_of audioData in
                      let tr4 := report progressCallback "Starting transcription..." in
                      match samples with
                      | [] =>
                          let '(st4, tr5) := run_deferred m tempWav callbackID st3 in
                          SetupExit
                            (Panicked "runtime error: index out of range [0] with length 0")
                            st4 (tr1 ++ tr2 ++ tr3 ++ tr4 ++ tr5)
                      | _ :: _ =>
                          SetupNative
                            {| inv_model := m; inv_tempWav := tempWav;
                               inv_params := params; inv_samples := samples;
                               inv_callbackID := callbackID;
                               inv_progressCell := cell |}
                            st3 (tr1 ++ tr2 ++ tr3 ++ tr4)
                      end
                end
            end
        end
  end.

(** From the call of [whisper_full] to the return. *)
Definition transcribe_finish (audioPath modelID translateTo : string)
    (progressCallback segmentCallback : option sink)
    (inv : Invocation) (run : NativeRun) (st : State)
  : completion * State * list Event :=
  let m := inv_model inv in
  let poller :=
    match progressCallback with
    | Some to => Some (to, inv_progressCell inv)
    | None => None
    end in
  let '(st1, tr_run) := run_events (inv_params inv) poller (nr_events run) (-1) st in
  let tr1 :=
    [EvWhisperFull (ctx m) (inv_params inv) (inv_samples inv)]
    ++ tr_run ++ [EvWhisperFullReturn (nr_status run)] in
  let result := nr_status run in
  if negb (result =? 0)
  then
    let '(st2, tr_d) := run_deferred m (inv_tempWav inv) (inv_callbackID inv) st1 in
    (Returned (Err ("whisper_full failed with code " +:+ pretty result)), st2, tr1 ++ tr_d)
  else
    let nSegments := length (nr_segments run) in
    let tr2 := report progressCallback
                 ("Processing " +:+ pretty (Z.of_nat nSegments) +:+ " segments...") in
    let segments := extract_loop (nr_segments run) 0 nSegments 0 in
    let tr3 := deliver segmentCallback segments in
    let tr4 := report progressCallback
                 ("Transcription complete (" +:+ pretty (Z.of_nat (length segments))
                  +:+ " segments)") in
    let st2 :=
      if String.eqb translateTo ""
      then set_transcriptionCache (<[(audioPath, modelID) := segments]>) st1
      else st1 in
    let '(st3, tr_d) := run_deferred m (inv_tempWav inv) (inv_callbackID inv) st2 in
    (Returned (Ok segments), st3, tr1 ++ tr2 ++ tr3 ++ tr4 ++ tr_d).

(** The run of [whisper_full] an invocation gets. *)
Definition native_run (env : CallEnv) (inv : Invocation) : NativeRun :=
  env_whisper_full env (ctx (inv_model inv)) (inv_params inv) (inv_samples inv).

Definition TranscribeWithTranslation (e : WhisperCGOEngine) (env : CallEnv)
    (audioPath modelID : string) (cpuThreads : Z) (translateTo : string)
    (progressCallback segmentCallback : option sink) (st : State)
  : completion * State * list Event :=
  match transcribe_setup e env audioPath modelID cpuThreads translateTo
          progressCallback segmentCallback st with
  | SetupExit c st' tr => (c, st', tr)
  | SetupNative inv st1 tr =>
      let '(c, st', tr') :=
        transcribe_finish audioPath modelID translateTo progressCallback segmentCallback
          inv (native_run env inv) st1 in
      (c, st', tr ++ tr')
  end.

Definition Transcribe (e : WhisperCGOEngine) (env : CallEnv)
    (audioPath modelID : string) (cpuThreads : Z)
    (progressCallback segmentCallback : option sink) (st : State)
  : completion * State * list Event :=
  TranscribeWithTranslation e env audioPath modelID cpuThreads ""
    progressCallback segmentCallback st.

(** The segments a trace hands to the sink [to], in order. *)
Definition segments_sent (to : sink) (tr : list Event) : list Segment :=
  omap (fun ev => match ev with
                  | EvSegment to' seg => if (to' =? to)%N then Some seg else None
                  | _ => None
                  end) tr.

Definition is_native_call (ev : Event) : bool :=
  match ev with EvWhisperFull _ _ _ => true | _ => false end.

(** The calls of [whisper_full] in a trace. *)
Definition native_calls (tr : list Event) : list Event :=
  List.filter is_native_call tr.

(** The tokens registered in a trace. *)
Definition tokens_issued (tr : list Event) : list Z :=
  omap (fun ev => match ev with EvRegister token => Some token | _ => None end) tr.

End Engine.

(** ** Calls running side by side

    Several calls of [TranscribeWithTranslation] run as threads.  A thread
    performs, one at a time and in order, the events of its call; the other
    threads may move between any two of them.  [sync.Mutex] decides which
    moves are possible: a thread whose next event is [EvLock a] moves only
    while nobody holds [a].  Each thread's list of events is the trace of
    its call from some state and in some environment, both arbitrary: what
    the other threads do to the shared maps changes the data a call sees,
    and every control path of the call is the path of some such trace. *)

Module Sched.

Import Engine.

(** The arguments of one call, and the state whose trace the thread
    performs. *)
Record Call : Type := mkCall {
  c_engine : WhisperCGOEngine;
  c_env : CallEnv;
  c_audioPath : string;
  c_modelID : string;
  c_cpuThreads : Z;
  c_translateTo : string;
  c_progress : option sink;
  c_segment : option sink;
  c_state : State;
}.

Definition trace_of (c : Call) : list Event :=
  snd (TranscribeWithTranslation (c_engine c) (c_env c) (c_audioPath c) (c_modelID c)
         (c_cpuThreads c) (c_translateTo c) (c_progress c) (c_segment c) (c_state c)).

(** A thread: the model handle its engine refers to, the events it has
    performed, and those it has yet to perform. *)
Record thread : Type := mkThread {
  th_model : option cachedModel;
  th_done : list Event;
  th_todo : list Event;
}.

(** The mutexes, each with the thread that holds it, and the threads. *)
Record config : Type := mkConfig {
  owner : gmap N nat;
  pool : list thread;
}.

Definition spawn (c : Call) : thread :=
  {| th_model := model (c_engine c); th_done := []; th_todo := trace_of c |}.

Definition initial (calls : list Call) : config :=
  {| owner := ∅; pool := map spawn calls |}.

(** Thread [i] performs its next event; [None] when it has none left or
    when the event is a [Lock] of a mutex that is held. *)
Definition step_thread (i : nat) (c : config) : option config :=
  match pool c !! i with
  | None => None
  | Some t =>
      match th_todo t with
      | [] => None
      | ev :: rest =>
          let t' := {| th_model := th_model t; th_done := th_done t ++ [ev];
                       th_todo := rest |} in
          let pool' := <[i := t']> (pool c) in
          match ev with
          | EvLock a =>
              match owner c !! a with
              | Some _ => None
              | None => Some {| owner := <[a := i]> (owner c); pool := pool' |}
              end
          | EvUnlock a => Some {| owner := delete a (owner c); pool := pool' |}
          | _ => Some {| owner := owner c; pool := pool' |}
          end
      end
  end.

Definition step (c c' : config) : Prop := ∃ i, step_thread i c = Some c'.

(** The configurations some interleaving of the calls leads to. *)
Definition reachable (calls : list Call) (c : config) : Prop :=
  rtc step (initial calls) c.

(** The events performed so far leave the thread inside [whisper_full]: a
    call of it has been issued and has not returned. *)
Definition in_native (done : list Event) : bool :=
  fold_left (fun b ev => match ev with
                         | EvWhisperFull _ _ _ => true
                         | EvWhisperFullReturn _ => false
                         | _ => b
                         end) done false.

(** Thread [i] of [c] is inside the native call on the handle [m]. *)
Definition running_native (c : config) (i : nat) (m : cachedModel) : Prop :=
  ∃ t, pool c !! i = Some t ∧ th_model t = Some m ∧ in_native (th_done t) = true.

(** Position of a thread with respect to its mutex and the native call. *)
Inductive pos : Type := Out | Held | InNative.

(** The lock discipline, as an automaton over events: the mutex is taken
    from outside only, released while held only, and [whisper_full] is
    entered and left while it is held. *)
Definition advance (a : N) (p : pos) (ev : Event) : option pos :=
  match ev, p with
  | EvLock a', Out => if (a' =? a)%N then Some Held else None
  | EvLock _, _ => None
  | EvUnlock a', Held => if (a' =? a)%N then Some Out else None
  | EvUnlock _, _ => None
  | EvWhisperFull _ _ _, Held => Some InNative
  | EvWhisperFull _ _ _, _ => None
  | EvWhisperFullReturn _, InNative => Some Held
  | EvWhisperFullReturn _, _ => None
  | _, _ => Some p
  end.

Fixpoint advance_all (a : N) (p : pos) (tr : list Event) : option pos :=
  match tr with
  | [] => Some p
  | ev :: tr' =>
      match advance a p ev with
      | Some p' => advance_all a p' tr'
      | None => None
      end
  end.

(** The mutex of a handle; a thread without a handle locks nothing. *)
Definition mutex_of (m : option cachedModel) : N :=
  match m with Some m => addr m | None => 0%N end.

(** A trace without lock, unlock, call or return of the native engine. *)
Definition unsynchronised (tr : list Event) : Prop :=
  Forall (fun ev => match ev with
                    | EvLock _ | EvUnlock _ | EvWhisperFull _ _ _ | EvWhisperFullReturn _ => False
                    | _ => True
                    end) tr.

(** Where the automaton stands after the events a thread has performed. *)
Definition position (t : thread) : option pos :=
  advance_all (mutex_of (th_model t)) Out (th_done t).

(** The invariant of the scheduler: every thread has kept and will keep the
    discipline, a thread that is not outside owns its mutex, and every
    owner recorded is such a thread. *)
Definition inv (c : config) : Prop :=
  (∀ i t, pool c !! i = Some t →
     ∃ p, position t = Some p
          ∧ is_Some (advance_all (mutex_of (th_model t)) p (th_todo t))
          ∧ (p ≠ Out → owner c !! mutex_of (th_model t) = Some i))
  ∧ (∀ a i, owner c !! a = Some i →
     ∃ t p, pool c !! i = Some t ∧ mutex_of (th_model t) = a
            ∧ position t = Some p ∧ p ≠ Out).

(** The threads named by [sched] move in turn; a thread that cannot move
    when its turn comes stays where it is. *)
Fixpoint run_schedule (sched : list nat) (c : config) : config :=
  match sched with
  | [] => c
  | i :: rest =>
      run_schedule rest (match step_thread i c with Some c' => c' | None => c end)
  end.

End Sched.

(** ** A worked scenario

    One model loaded into a fresh process, a two-sample recording, and an
    engine that either hears three segments or fails. *)

Module Scenario.

Import Engine.

Definition model_path : string := "models/ggml-ivrit-turbo.bin".

Definition loaded : WhisperCGOEngine * State :=
  ModelCache.store_phase model_path 4096 init_state.

Definition engine : WhisperCGOEngine := fst loaded.

(** The process once the model is cached. *)
Definition ready : State := snd loaded.

(** A canonical 16 kHz mono 16-bit file with two samples. *)
Definition wav : list byte :=
  Bytes.of_string "RIFF" ++ [x28; x00; x00; x00] ++ Bytes.of_string "WAVEfmt "
  ++ [x10; x00; x00; x00; x01; x00; x01; x00; x80; x3e; x00; x00;
      x00; x7d; x00; x00; x02; x00; x10; x00]
  ++ Bytes.of_string "data" ++ [x04; x00; x00; x00] ++ [x00; x40; x00; xc0].

Definition heard : list NativeSegment :=
  [ {| ns_t0 := 0; ns_t1 := 250; ns_text := "שלום"; ns_speaker_turn_next := true |};
    {| ns_t0 := 250; ns_t1 := 510; ns_text := "מה שלומך"; ns_speaker_turn_next := false |};
    {| ns_t0 := 510; ns_t1 := 730; ns_text := "בסדר"; ns_speaker_turn_next := true |} ].

Definition run_ok : NativeRun :=
  {| nr_status := 0;
     nr_events := [NativeProgress 40; Tick; Tick; NativeProgress 100; Tick];
     nr_segments := heard |}.

Definition run_failed : NativeRun :=
  {| nr_status := -6; nr_events := [NativeProgress 10; Tick]; nr_segments := [] |}.

Definition env_with (run : NativeRun) : CallEnv :=
  {| env_createTemp := Ok "/tmp/whisper_audio_1.wav";
     env_ffmpeg := None;
     env_readFile := Ok wav;
     env_whisper_full := fun _ _ _ => run |}.

(** A load of the model file that yields the context [c]. *)
Definition load_env (c : N) : ModelCache.LoadEnv :=
  {| ModelCache.stat_not_exist := false; ModelCache.whisper_init := c |}.

Definition env_ok : CallEnv := env_with run_ok.
Definition env_failed : CallEnv := env_with run_failed.

(** Two calls on the one engine, for two recordings. *)
Definition call_a : Sched.Call :=
  {| Sched.c_engine := engine; Sched.c_env := env_ok;
     Sched.c_audioPath := "a.wav"; Sched.c_modelID := "turbo";
     Sched.c_cpuThreads := 4; Sched.c_translateTo := "";
     Sched.c_progress := Some 1%N; Sched.c_segment := Some 2%N;
     Sched.c_state := ready |}.

Definition call_b : Sched.Call :=
  {| Sched.c_engine := engine; Sched.c_env := env_ok;
     Sched.c_audioPath := "b.wav"; Sched.c_modelID := "turbo";
     Sched.c_cpuThreads := 4; Sched.c_translateTo := "";
     Sched.c_progress := None; Sched.c_segment := Some 3%N;
     Sched.c_state := ready |}.

(** The first call has moved seven times and is inside [whisper_full]. *)
Definition contended : Sched.config :=
  Sched.run_schedule [0; 0; 0; 0; 0; 0; 0]%nat (Sched.initial [call_a; call_b]).

(** The first transcription of [a.wav], with both sinks supplied. *)
Definition first_call : completion * State * list Event :=
  Transcribe engine env_ok "a.wav" "turbo" 4 (Some 1%N) (Some 2%N) ready.

Definition transcript : list Segment := extract_segments heard.

End Scenario.

(** ** Vocabulary of the properties *)

Module Props.

Import Engine.

(** Two states agree on the caches, the token counter and the allocator,
    and, when [keep_registry] is set, on the registry as well; the progress
    cells may differ. *)
Definition same_globals (keep_registry : bool) (st st' : State) : Prop :=
  transcriptionCache st' = transcriptionCache st
  ∧ modelCache st' = modelCache st
  ∧ callbackIDCounter st' = callbackIDCounter st
  ∧ heap_next st' = heap_next st
  ∧ (keep_registry = true → callbackRegistry st' = callbackRegistry st).

(** An engine whose model and native context are there. *)
Definition initialised (e : WhisperCGOEngine) : Prop :=
  ∃ m, model e = Some m ∧ ctx m ≠ 0%N.

(** The state [st] with the transcription cache replaced by [cache]. *)
Definition with_cache (cache : gmap (string * string) (list Segment)) (st : State) : State :=
  set_transcriptionCache (fun _ => cache) st.

(** A trace that only talks to the caller's sinks. *)
Definition quiet (tr : list Event) : Prop :=
  Forall (fun ev => match ev with EvProgress _ _ | EvSegment _ _ => True | _ => False end) tr.

(** The registry as the bridge keeps it: the counter has neither reached 0
    nor wrapped, and every registered token was issued before. *)
Definition registry_wf (st : State) : Prop :=
  0 < callbackIDCounter st < 2 ^ 64
  ∧ ∀ k slot, callbackRegistry st !! k = Some slot → 0 < k < callbackIDCounter st.

(** Speaker ids that start at 0 and never step by anything but 0 or 1. *)
Definition speaker_steps (L : list Segment) : Prop :=
  (∀ s, L !! 0%nat = Some s → Speaker s = 0)
  ∧ ∀ i s s', L !! i = Some s → L !! S i = Some s' →
      Speaker s' = Speaker s ∨ Speaker s' = Speaker s + 1.

(** Speaker ids that start at 0 and grow by one from segment [i] to segment
    [i+1] exactly when the engine flagged a turn on its segment [i]. *)
Definition follows_flags (segs : list NativeSegment) (L : list Segment) : Prop :=
  length L = length segs
  ∧ (∀ s, L !! 0%nat = Some s → Speaker s = 0)
  ∧ ∀ i s s' ns, L !! i = Some s → L !! S i = Some s' → segs !! i = Some ns →
      Speaker s' = Speaker s + (if ns_speaker_turn_next ns then 1 else 0).

(** Every cached list has well-stepped speaker ids. *)
Definition cache_speakers_ok (st : State) : Prop :=
  ∀ k L, transcriptionCache st !! k = Some L → speaker_steps L.

End Props.

(** ** Observations on traces *)

Module Observe.

Import Engine.

(** The events that touch a model's mutex or the native engine. *)
Definition is_sync (ev : Event) : bool :=
  match ev with
  | EvLock _ | EvUnlock _ | EvWhisperFull _ _ _ | EvWhisperFullReturn _ => true
  | _ => false
  end.
Definition sync_events (tr : list Event) : list Event := List.filter is_sync tr.

(** The events that touch the converted file. *)
Definition is_file (ev : Event) : bool :=
  match ev with EvConvert _ _ | EvRemove _ => true | _ => false end.
Definition file_events (tr : list Event) : list Event := List.filter is_file tr.

(** The calls of a segment sink, and those of a progress sink. *)
Definition is_segment (ev : Event) : bool :=
  match ev with EvSegment _ _ => true | _ => false end.
Definition segment_events (tr : list Event) : list Event := List.filter is_segment tr.
Definition is_progress (ev : Event) : bool :=
  match ev with EvProgress _ _ => true | _ => false end.
Definition progress_events (tr : list Event) : list Event := List.filter is_progress tr.

(** The caller supplied the callback. *)
Definition supplied (cb : option sink) : bool :=
  match cb with Some _ => true | None => false end.

(** What the segment sink is to see of a call that ends with [c]: the
    segments returned, in order, and nothing when the call fails. *)
Definition expected_segments (c : completion) (sc : option sink) : list Event :=
  match c, sc with
  | Returned (Ok L), Some to => map (EvSegment to) L
  | _, _ => []
  end.

(** The status messages of a call that is answered from the cache, and the
    ones before and after the native call of a call that is not. *)
Definition cached_messages (n : nat) : list string :=
  [ "Using cached transcription...";
    "Loaded cached transcription (" +:+ pretty (Z.of_nat n) +:+ " segments)" ].
Definition opening_messages (modelID : string) : list string :=
  [ "Transcribing with native whisper.cpp (model: " +:+ modelID +:+ ")...";
    "Preparing audio file...";
    "Starting transcription..." ].
Definition closing_messages (n : nat) : list string :=
  [ "Processing " +:+ pretty (Z.of_nat n) +:+ " segments...";
    "Transcription complete (" +:+ pretty (Z.of_nat n) +:+ " segments)" ].

End Observe.

(** ** The rest of the engine's interface: SupportsModel, Close,
    ClearModelCache *)

Module Lifecycle.

Definition SupportsModel (modelID : string) : bool :=
  String.eqb modelID "large-v3" || String.eqb modelID "turbo" || String.eqb modelID "base".

(** [Close]: the engine afterwards, and the contexts handed to
    [whisper_free]. *)
Definition Close (e : WhisperCGOEngine) : WhisperCGOEngine * list N :=
  let freed :=
    match model e with
    | Some m => if negb (fromCache e) && negb (ctx m =? 0)%N then [ctx m] else []
    | None => []
    end in
  ({| model := None; modelPath := modelPath e; fromCache := fromCache e |}, freed).

(** What [ClearModelCache] does to one model. *)
Inductive TeardownEvent : Type :=
| TdLock (mutex : N)
| TdFree (ctx : N)
| TdUnlock (mutex : N).

Definition release (cachedMdl : cachedModel) : list TeardownEvent :=
  if (ctx cachedMdl =? 0)%N then []
  else [TdLock (addr cachedMdl); TdFree (ctx cachedMdl); TdUnlock (addr cachedMdl)].

(** [ClearModelCache].  Go visits the entries of a map in an order it does
    not specify; the order taken here is that of [map_to_list]. *)
Definition ClearModelCache (st : State) : State * list TeardownEvent :=
  (set_modelCache (fun _ => ∅) st,
   concat (map (fun entry => release (snd entry)) (map_to_list (modelCache st)))).

(** The contexts a teardown hands to [whisper_free]. *)
Definition freed (tr : list TeardownEvent) : list N :=
  omap (fun ev => match ev with TdFree c => Some c | _ => None end) tr.

(** The cache as sequential loads leave it: every handle has a context, was
    allocated before, and no two paths share a handle. *)
Definition cache_wf (st : State) : Prop :=
  (∀ p m, modelCache st !! p = Some m → ctx m ≠ 0%N ∧ (addr m < heap_next st)%N)
  ∧ ∀ p q m m', p ≠ q → modelCache st !! p = Some m → modelCache st !! q = Some m' →
      addr m ≠ addr m'.

End Lifecycle.

(** ** Well-formed text *)

Module Utf8Spec.

(** A Unicode scalar value: a code point that is no surrogate. *)
Definition scalar (r : Z) : bool :=
  (0 <=? r) && (r <=? 0x10FFFF) && negb ((0xD800 <=? r) && (r <=? 0xDFFF)).

(** What [[]rune(string(r))] holds for a rune [r]. *)
Definition normalise (r : Z) : Z := if scalar r then r else Utf8.RuneError.

(** Well-formed UTF-8: the encoding of a sequence of scalar values. *)
Definition well_formed (text : string) : Prop :=
  ∃ runes, Forall (fun r => scalar r = true) runes
           ∧ list_byte_of_string text = Utf8.encode runes.

(** Every text of a list of segments is well-formed, and so for the cache. *)
Definition texts_well_formed (L : list Segment) : Prop :=
  Forall (fun s => well_formed (Text s)) L.
Definition cache_texts_ok (st : State) : Prop :=
  ∀ k L, transcriptionCache st !! k = Some L → texts_well_formed L.

End Utf8Spec.

(** ** Samples *)

Module Pcm.

(** The signed 16-bit integer whose little-endian bytes are [lo], [hi]. *)
Definition le16 (lo hi : Z) : Z := GoInt.wraps 16 (lo + 256 * hi).

(** The interval from -1 to 1, the upper end left out. *)
Definition in_unit (s : float) : bool :=
  PrimFloat.leb (-1)%float s && PrimFloat.ltb s 1%float.

(** The conversion of one sample, from the values of its two bytes. *)
Definition convert (lo hi : Z) : float :=
  PrimFloat.div
    (GoInt.float64 (Z.lor (GoInt.int16 lo) (GoInt.int16 (Z.shiftl (GoInt.int16 hi) 8))))
    32768%float.

(** The conversion agrees with [le16] and lands in the interval. *)
Definition sound (lo hi : Z) : bool :=
  (Z.lor (GoInt.int16 lo) (GoInt.int16 (Z.shiftl (GoInt.int16 hi) 8)) =? le16 lo hi)
  && in_unit (convert lo hi).

Definition byte_values : list Z := map Z.of_nat (seq 0 256).

End Pcm.

(** ** Calls that run to their end *)

Module Liveness.

Import Sched.

(** Every thread has kept the lock discipline and, once it has performed
    what it has left, is outside its mutex. *)
Definition settles (c : config) : Prop :=
  ∀ i t, pool c !! i = Some t →
    ∃ p, position t = Some p
         ∧ advance_all (mutex_of (th_model t)) p (th_todo t) = Some Out.

(** Some thread has an event left. *)
Definition pending (c : config) : Prop :=
  ∃ i t, pool c !! i = Some t ∧ th_todo t ≠ [].

(** The events the threads have left, all together. *)
Definition remaining (c : config) : nat :=
  sum_list (map (fun t => length (th_todo t)) (pool c)).



End Liveness.

(** ** Two more scenarios *)

Module Cases.

Import Engine Sched.



(** A recording that converts to a header without a sample. *)
Definition env_no_sample : CallEnv :=
  {| env_createTemp := Ok "/tmp/whisper_audio_2.wav";
     env_ffmpeg := None;
     env_readFile := Ok Wav.header_only;
     env_whisper_full := fun _ _ _ => Scenario.run_ok |}.

End Cases.

(** ** Translation through ollama *)

Module Translator.

Record MistralTranslator : Type := mkMistralTranslator {
  ollamaURL : string;
  model : string;
}.

Definition NewMistralTranslator : MistralTranslator :=
  {| ollamaURL := "http://localhost:11434/api/generate"; model := "mistral:latest" |}.

(** How one [http.Post] ends: the error of the request, or the status code
    with what [io.ReadAll] got from the body and the error it met, if any. *)
Inductive PostOutcome : Type :=
| PostFailed (err : string)
| PostResponse (StatusCode : Z) (body : string) (readErr : option string).

(** What [Translate] meets outside the program: the server, asked for the
    [n]-th time, and the two library functions applied to its answer,
    [json.Unmarshal] into an [OllamaResponse] (the [Response] field, or the
    error) and [strings.TrimSpace]. *)
Record TranslateEnv : Type := mkTranslateEnv {
  env_post : nat → string → string → string → PostOutcome;
  env_unmarshal : string → result string;
  env_TrimSpace : string → string;
}.

(** What a run does that can be seen from outside, in program order. *)
Inductive Action : Type :=
| Progress (to : sink) (msg : string)
| Delivered (to : sink) (seg : Segment)
| Post (url model prompt : string).

Definition nl : string := String (ascii_of_nat 10) EmptyString.

(** [langNames[targetLang]], the empty string for a missing key. *)
Definition langNames (targetLang : string) : string :=
  if String.eqb targetLang "en" then "English"
  else if String.eqb targetLang "es" then "Spanish"
  else if String.eqb targetLang "fr" then "French"
  else if String.eqb targetLang "de" then "German"
  else if String.eqb targetLang "ar" then "Arabic"
  else if String.eqb targetLang "ru" then "Russian"
  else if String.eqb targetLang "zh" then "Chinese"
  else "".

Definition langName (targetLang : string) : string :=
  let langName := langNames targetLang in
  if String.eqb langName "" then targetLang else langName.

Definition prompt (langName text : string) : string :=
  "Translate the following Hebrew text to " +:+ langName
  +:+ ". Only output the translation, nothing else. Keep the formatting the same including timecodes."
  +:+ nl +:+ nl +:+ "Hebrew text: " +:+ text +:+ nl +:+ nl +:+ langName +:+ " translation:".

Definition say (progressCallback : option sink) (msg : string) : list Action :=
  match progressCallback with
  | Some to => [Progress to msg]
  | None => []
  end.

(** [n] counts the requests sent so far.  [json.Marshal] cannot fail on a
    struct of two strings and a boolean; its error branch is unreachable. *)
Definition Translate (t : MistralTranslator) (env : TranslateEnv)
    (text targetLang : string) (progressCallback : option sink) (n : nat)
  : result string * nat * list Action :=
  if String.eqb text "" then (Ok "", n, [])
  else
    let langName := langName targetLang in
    let prompt := prompt langName text in
    let tr := say progressCallback ("Translating to " +:+ langName +:+ "...")
              ++ [Post (ollamaURL t) (model t) prompt] in
    match env_post env n (ollamaURL t) (model t) prompt with
    | PostFailed err =>
        (Err ("failed to connect to ollama: " +:+ err +:+ " (is ollama running?)"), S n, tr)
    | PostResponse StatusCode body readErr =>
        if negb (StatusCode =? 200)
        then (Err ("ollama returned status " +:+ pretty StatusCode +:+ ": " +:+ body), S n, tr)
        else
          match readErr with
          | Some err => (Err ("failed to read response: " +:+ err), S n, tr)
          | None =>
              match env_unmarshal env body with
              | Err err => (Err ("failed to parse response: " +:+ err), S n, tr)
              | Ok Response => (Ok (env_TrimSpace env Response), S n, tr)
              end
          end
    end.

(** The loop [for i, seg := range segments]; [total] is [len(segments)]. *)
Fixpoint translate_loop (t : MistralTranslator) (env : TranslateEnv)
    (targetLang : string) (progressCallback segmentCallback : option sink)
    (total i : nat) (segments : list Segment) (n : nat)
  : result (list Segment) * nat * list Action :=
  match segments with
  | [] => (Ok [], n, [])
  | seg :: rest =>
      let tr0 := say progressCallback
                   ("Translating segment " +:+ pretty (Z.of_nat (i + 1)) +:+ "/"
                    +:+ pretty (Z.of_nat total) +:+ "...") in
      match Translate t env (Text seg) targetLang None n with
      | (Err err, n1, tr1) =>
          (Err ("failed to translate segment " +:+ pretty (Z.of_nat (i + 1)) +:+ ": " +:+ err),
           n1, tr0 ++ tr1)
      | (Ok translation, n1, tr1) =>
          let translatedSeg :=
            {| Start := Start seg; End_ := End_ seg; Text := translation;
               Original := Text seg; Translation := translation; Speaker := 0 |} in
          let tr2 := match segmentCallback with
                     | Some to => [Delivered to translatedSeg]
                     | None => []
                     end in
          match translate_loop t env targetLang progressCallback segmentCallback
                  total (S i) rest n1 with
          | (Ok out, n2, tr3) => (Ok (translatedSeg :: out), n2, tr0 ++ tr1 ++ tr2 ++ tr3)
          | (Err err, n2, tr3) => (Err err, n2, tr0 ++ tr1 ++ tr2 ++ tr3)
          end
      end
  end.

Definition TranslateSegments (t : MistralTranslator) (env : TranslateEnv)
    (segments : list Segment) (targetLang : string)
    (progressCallback segmentCallback : option sink) (n : nat)
  : result (list Segment) * nat * list Action :=
  translate_loop t env targetLang progressCallback segmentCallback
    (length segments) 0 segments n.

(** The loops of the command line and of the window after a translation:
    [Text] takes the translation, and the original is blanked unless it is
    to be kept. *)
Definition keep_original_pass (keepOriginal : bool) (translatedSegments : list Segment)
  : list Segment :=
  map (fun seg =>
         {| Start := Start seg; End_ := End_ seg; Text := Translation seg;
            Original := if keepOriginal then Original seg else "";
            Translation := Translation seg; Speaker := Speaker seg |})
      translatedSegments.

(** The requests of a run, and the segments it hands to [to]. *)
Definition posts (tr : list Action) : list string :=
  omap (fun a => match a with Post _ _ prompt => Some prompt | _ => None end) tr.
Definition delivered (to : sink) (tr : list Action) : list Segment :=
  omap (fun a => match a with
                 | Delivered to' seg => if (to' =? to)%N then Some seg else None
                 | _ => None
                 end) tr.

(** The segments that cause a request, and the prompts sent for them. *)
Definition has_text (seg : Segment) : bool := negb (String.eqb (Text seg) "").
Definition prompts (targetLang : string) (segments : list Segment) : list string :=
  map (fun seg => prompt (langName targetLang) (Text seg)) (List.filter has_text segments).

(** The number of requests sent for the first [j] segments. *)
Definition requests_before (j : nat) (segments : list Segment) : nat :=
  length (List.filter has_text (take j segments)).

(** A server that answers every request with the same body, which decodes
    to itself. *)
Definition echo (StatusCode : Z) (body : string) : TranslateEnv :=
  {| env_post := fun _ _ _ _ => PostResponse StatusCode body None;
     env_unmarshal := fun body => Ok body;
     env_TrimSpace := fun s => s |}.

(** The translation of [seg] when the server's answer decodes to
    [translation]. *)
Definition translated (seg : Segment) (translation : string) : Segment :=
  {| Start := Start seg; End_ := End_ seg; Text := translation;
     Original := Text seg; Translation := translation; Speaker := 0 |}.

End Translator.

(** ** File names *)

Module Paths.

(** [os.IsPathSeparator]: the slash, and on Windows the backslash too. *)
Definition IsPathSeparator (windows : bool) (c : ascii) : bool :=
  Ascii.eqb c "/" || (windows && Ascii.eqb c "\").

(** The loop of [filepath.Ext],
    [for i := len(path)-1; i >= 0 && !os.IsPathSeparator(path[i]); i--];
    [n] is [i+1]. *)
Fixpoint ext_loop (windows : bool) (path : list ascii) (n : nat) : list ascii :=
  match n with
  | O => []
  | S i =>
      match path !! i with
      | Some c =>
          if IsPathSeparator windows c then []
          else if Ascii.eqb c "." then drop i path
          else ext_loop windows path i
      | None => []
      end
  end.

Definition Ext (windows : bool) (path : string) : string :=
  let bytes := list_ascii_of_string path in
  string_of_list_ascii (ext_loop windows bytes (length bytes)).

Definition videoExts : gmap string bool :=
  <[".mp4" := true]> (<[".avi" := true]> (<[".mov" := true]> (<[".mkv" := true]>
  (<[".webm" := true]> (<[".flv" := true]> (<[".wmv" := true]> (<[".m4v" := true]>
  (<[".3gp" := true]> ∅)))))))).

Definition IsVideoFile (windows : bool) (filePath : string) : bool :=
  let ext := Ext windows filePath in
  default false (videoExts !! ext).

(** The extensions of the table. *)
Definition video_extensions : list string :=
  [".mp4"; ".avi"; ".mov"; ".mkv"; ".webm"; ".flv"; ".wmv"; ".m4v"; ".3gp"].

(** No byte of an extension of the table, its leading dot apart, is a dot
    or a separator. *)
Definition plain (windows : bool) (ext : string) : bool :=
  match list_ascii_of_string ext with
  | c :: body =>
      Ascii.eqb c "." && forallb (fun c => negb (IsPathSeparator windows c || Ascii.eqb c ".")) body
  | [] => false
  end.

End Paths.

(** ** Model files *)

Module ModelFiles.

Record ModelInfo : Type := mkModelInfo {
  ID : string;
  File : string;
  LocalFileName : string;
  Description : string;
  URL : string;
}.

(** What the lookup of a model file meets outside the program:
    [filepath.Join], [os.Getenv("HOME")], [os.UserHomeDir] (its error is
    dropped), what reading and decoding a configuration file yields (the
    [Models] map, or nothing when either step fails), whether [os.Stat]
    succeeds on a path, and how the download of a URL into a file ends
    ([None] for success). *)
Record FilesEnv : Type := mkFilesEnv {
  env_Join : list string → string;
  env_HOME : string;
  env_UserHomeDir : string;
  env_config : string → option (gmap string ModelInfo);
  env_stat : string → bool;
  env_fetch : string → string → option string;
}.

Inductive Action : Type :=
| Progress (to : sink) (msg : string) (pct : Z)
| MkdirAll (dir : string)
| Fetch (url destPath : string).

Definition say (progressCallback : option sink) (msg : string) (pct : Z) : list Action :=
  match progressCallback with
  | Some to => [Progress to msg pct]
  | None => []
  end.

Definition nl : string := String (ascii_of_nat 10) EmptyString.

Definition defaults : gmap string ModelInfo :=
  <["large-v3" := {| ID := "ivrit-ai/whisper-large-v3-ggml"; File := "ggml-model.bin";
                     LocalFileName := "ggml-large-v3-ivrit.bin";
                     Description := "Ivrit.ai Large v3 - Best quality for Hebrew";
                     URL := "" |}]>
  (<["turbo" := {| ID := "ivrit-ai/whisper-large-v3-turbo-ggml"; File := "ggml-model.bin";
                   LocalFileName := "ggml-large-v3-turbo-ivrit.bin";
                   Description := "Ivrit.ai Turbo - Faster with good quality";
                   URL := "" |}]>
  (<["base" := {| ID := "ggerganov/whisper.cpp"; File := "ggml-base.bin";
                  LocalFileName := "ggml-base.bin";
                  Description := "Base model - Fast but lower quality";
                  URL := "" |}]> ∅)).

Definition configPaths (env : FilesEnv) : list string :=
  [ "models.json";
    env_Join env ["."; "models.json"];
    env_Join env [".."; "models.json"];
    env_Join env [env_HOME env; ".config"; "ivrit-ai"; "models.json"] ].

(** The loop over [configPaths]: the first file that decodes to a map that
    is not empty. *)
Fixpoint first_config (env : FilesEnv) (paths : list string) : option (gmap string ModelInfo) :=
  match paths with
  | [] => None
  | configPath :: rest =>
      match env_config env configPath with
      | Some Models => if (0 <? size Models)%nat then Some Models else first_config env rest
      | None => first_config env rest
      end
  end.

Definition loadModelsConfig (env : FilesEnv) : gmap string ModelInfo :=
  match first_config env (configPaths env) with
  | Some Models => Models
  | None => defaults
  end.

(** The part of the two download functions that is theirs: the URL.  What
    follows is the exchange with the server and the writing of the file,
    with the progress it reports. *)
Definition downloadModelFromHuggingFace (env : FilesEnv) (repoID fileName destPath : string)
  : option string * list Action :=
  let url := "https://huggingface.co/" +:+ repoID +:+ "/resolve/main/" +:+ fileName in
  (env_fetch env url destPath, [Fetch url destPath]).

Definition urlMap : gmap string string :=
  <["ggml-large-v3.bin" := "https://ggml.ggerganov.com/models/whisper/ggml-large-v3.bin"]>
  (<["ggml-base.bin" := "https://ggml.ggerganov.com/models/whisper/ggml-base.bin"]> ∅).

Definition downloadModelDirect (env : FilesEnv) (fileName destPath : string)
  : option string * list Action :=
  match urlMap !! fileName with
  | None => (Some ("no direct download URL for " +:+ fileName), [])
  | Some url => (env_fetch env url destPath, [Fetch url destPath])
  end.

Definition possiblePaths (env : FilesEnv) (modelID localFileName : string) : list string :=
  let homeDir := env_UserHomeDir env in
  [ env_Join env [homeDir; ".cache"; "whisper"; localFileName];
    env_Join env [homeDir; ".cache"; "whisper"; modelID +:+ ".bin"];
    env_Join env [homeDir; ".local"; "share"; "whisper"; localFileName];
    env_Join env ["/usr/local/share/whisper"; localFileName];
    env_Join env ["."; "models"; localFileName];
    env_Join env ["."; localFileName] ].

Definition localFileName (modelInfo : ModelInfo) : string :=
  if String.eqb (LocalFileName modelInfo) "" then File modelInfo else LocalFileName modelInfo.

Definition GetModelPath (env : FilesEnv) (modelID : string) (progressCallback : option sink)
  : result string * list Action :=
  let modelMap := loadModelsConfig env in
  match modelMap !! modelID with
  | None => (Err ("unsupported model: " +:+ modelID), [])
  | Some modelInfo =>
      if String.eqb (ID modelInfo) "" then (Err ("unsupported model: " +:+ modelID), [])
      else
        let homeDir := env_UserHomeDir env in
        let localFileName := localFileName modelInfo in
        match List.find (env_stat env) (possiblePaths env modelID localFileName) with
        | Some path => (Ok path, say progressCallback ("Found model at: " +:+ path) (-1))
        | None =>
            let tr0 := say progressCallback
                         ("Downloading " +:+ modelID +:+ " from ivrit.ai...") 0 in
            let cacheDir := env_Join env [homeDir; ".cache"; "whisper"] in
            let modelPath := env_Join env [cacheDir; localFileName] in
            let '(err, tr1) :=
              downloadModelFromHuggingFace env (ID modelInfo) (File modelInfo) modelPath in
            let '(err, tr2) :=
              match err with
              | None => (None, [])
              | Some _ =>
                  if String.eqb modelID "base"
                  then
                    let '(err, tr) := downloadModelDirect env (File modelInfo) modelPath in
                    (err, say progressCallback
                            "HuggingFace download failed, trying direct download..." (-1)
                          ++ tr)
                  else (err, [])
              end in
            match err with
            | Some err =>
                (Err ("failed to download model: " +:+ err +:+ nl
                      +:+ "Please manually download from:" +:+ nl
                      +:+ "  https://huggingface.co/" +:+ ID modelInfo +:+ nl
                      +:+ "Then place " +:+ localFileName +:+ " in: " +:+ cacheDir),
                 tr0 ++ [MkdirAll cacheDir] ++ tr1 ++ tr2)
            | None =>
                (Ok modelPath,
                 tr0 ++ [MkdirAll cacheDir] ++ tr1 ++ tr2
                 ++ say progressCallback "Model downloaded successfully" 100)
            end
        end
  end.

(** The downloads a run attempts. *)
Definition fetches (tr : list Action) : list (string * string) :=
  omap (fun a => match a with Fetch url destPath => Some (url, destPath) | _ => None end) tr.

(** An environment without configuration files. *)
Definition no_config (env : FilesEnv) : Prop :=
  ∀ configPath, env_config env configPath = None.

(** A machine whose home is [/home/user], with no configuration file:
    [present] tells which files exist, [fetch] how downloads end.  Elements
    are joined with slashes and the result is not cleaned as
    [filepath.Join] cleans it, so the two agree on the absolute paths,
    which is where the files of the examples are. *)
Definition machine (present : string → bool) (fetch : string → string → option string)
  : FilesEnv :=
  {| env_Join := String.concat "/";
     env_HOME := "/home/user";
     env_UserHomeDir := "/home/user";
     env_config := fun _ => None;
     env_stat := present;
     env_fetch := fetch |}.

(** No model file is there, and only the direct mirror answers. *)
Definition mirror_only : FilesEnv :=
  machine (fun _ => false)
    (fun url _ => if String.eqb url "https://ggml.ggerganov.com/models/whisper/ggml-base.bin"
                  then None else Some "download failed with status: 404").

(** A table with one model, ["tiny"], and the machine that has it as
    [models.json] in the current directory, under either spelling of that
    path. *)
Definition tiny_only : gmap string ModelInfo :=
  {[ "tiny" := {| ID := "ggerganov/whisper.cpp"; File := "ggml-tiny.bin";
                  LocalFileName := ""; Description := ""; URL := "" |} ]}.

Definition configured : FilesEnv :=
  {| env_Join := String.concat "/";
     env_HOME := "/home/user";
     env_UserHomeDir := "/home/user";
     env_config := fun configPath =>
       if String.eqb configPath "models.json" || String.eqb configPath "./models.json"
       then Some tiny_only else None;
     env_stat := fun _ => false;
     env_fetch := fun _ _ => None |}.

End ModelFiles.

(** * Properties *)

(** ** readWAVFile *)

Section WavFacts.

Lemma bytes_eqb_eq (a b : list byte) : Bytes.eqb a b = true ↔ a = b.
Proof.
  revert b; induction a as [|x a IH]; intros [|y b]; simpl; split;
    try congruence; try done.
  - intros [Hxy Hab]%andb_true_iff.
    apply Byte.byte_dec_bl in Hxy. apply IH in Hab. by subst.
  - intros [= -> ->]. apply andb_true_iff; split.
    + by apply Byte.byte_dec_lb.
    + by apply IH.
Qed.

Lemma at_range (data : list byte) (i : nat) : 0 <= Bytes.at_ data i < 256.
Proof.
  unfold Bytes.at_. destruct (data !! i) as [b|]; [|lia].
  pose proof (Byte.to_N_bounded b). lia.
Qed.

(** Or-ing in a value shifted past the bits of the first operand adds it. *)
Lemma lor_shiftl_add (a b n : Z) :
  0 <= n → 0 <= a < 2 ^ n → 0 <= b → Z.lor a (Z.shiftl b n) = a + 2 ^ n * b.
Proof.
  intros Hn Ha Hb.
  rewrite Z.shiftl_mul_pow2 by lia.
  rewrite <- Z.lxor_lor, <- Z.add_nocarry_lxor; try lia.
  all: apply Z.bits_inj'; intros k Hk; rewrite Z.land_spec, Z.bits_0.
  all: destruct (Z.lt_ge_cases k n) as [Hlt|Hge].
  all: try (rewrite Z.mul_pow2_bits_low by lia; apply andb_false_r).
  all: destruct (Z.eq_dec a 0) as [->|Hnz]; [by rewrite Z.bits_0|].
  all: rewrite (Z.bits_above_log2 a k); [done|lia|].
  all: apply Z.log2_lt_pow2; [lia|].
  all: apply Z.lt_le_trans with (2 ^ n); [lia|apply Z.pow_le_mono_r; lia].
Qed.

Lemma sample_rate_le32 (data : list byte) : Wav.sample_rate data = Wav.le32 data 24.
Proof.
  unfold Wav.sample_rate, Wav.le32. simpl Nat.add.
  pose proof (at_range data 24). pose proof (at_range data 25).
  pose proof (at_range data 26). pose proof (at_range data 27).
  rewrite (lor_shiftl_add (Bytes.at_ data 24) _ 8) by lia.
  rewrite (lor_shiftl_add _ (Bytes.at_ data 26) 16) by lia.
  rewrite (lor_shiftl_add _ (Bytes.at_ data 27) 24) by lia.
  lia.
Qed.

(** The search loop falls through when no offset it visits carries the tag. *)
Lemma find_data_chunk_none (data : list byte) (n i : nat) :
  (∀ j, (i ≤ j < i + n)%nat → Wav.data_tag_at data j = false) →
  Wav.find_data_chunk data i n = 44%nat.
Proof.
  revert i; induction n as [|n IH]; intros i Hno; simpl; [done|].
  pose proof (Hno i ltac:(lia)) as Hi. unfold Wav.data_tag_at in Hi. rewrite Hi.
  apply IH. intros j Hj. apply Hno. lia.
Qed.

(** When the loop finds the tag, the offset it returns lies in the file. *)
Lemma find_data_chunk_bound (data : list byte) (n i : nat) :
  (Wav.find_data_chunk data i n = 44 ∨
   i + 8 ≤ Wav.find_data_chunk data i n < i + n + 8)%nat.
Proof.
  revert i; induction n as [|n IH]; intros i; simpl; [by left|].
  destruct (Bytes.eqb _ _); [right; lia|].
  destruct (IH (S i)) as [->|?]; [by left|right; lia].
Qed.

(** [data[dataOffset:]] is a slice of the file. *)
Lemma data_offset_in_file (data : list byte) :
  (44 ≤ length data)%nat →
  (Wav.find_data_chunk data 12 (length data - 8 - 12) ≤ length data)%nat.
Proof.
  intros Hlen. destruct (find_data_chunk_bound data (length data - 8 - 12) 12); lia.
Qed.

Lemma has_data_tag_false (data : list byte) (j : nat) :
  Wav.has_data_tag data = false → Wav.data_tag_at data j = false.
Proof.
  intros Hno. destruct (decide (j < length data)%nat) as [Hlt|Hge].
  - destruct (Wav.data_tag_at data j) eqn:Hj; [|done].
    assert (Wav.has_data_tag data = true) as Hyes; [|congruence].
    apply existsb_exists. exists j. split; [|done]. apply in_seq. lia.
  - unfold Wav.data_tag_at, Bytes.slice.
    rewrite drop_ge by lia. by rewrite take_nil.
Qed.

End WavFacts.

(** C10.  [readWAVFile] fails exactly when the file cannot be read, is
    shorter than 44 bytes, or lacks ["RIFF"] at offset 0 or ["WAVE"] at
    offset 8.  A readable file of at least 44 bytes with both tags and no
    ["data"] tag anywhere is accepted: the PCM bytes are those from offset
    44 on and the sample rate is the little-endian 32-bit integer of bytes
    24 to 27. *)
Theorem readWAVFile_acceptance (file : result (list byte)) :
  (is_err (Wav.readWAVFile file) ↔
     is_err file ∨
     ∃ data, file = Ok data ∧
       ((length data < 44)%nat ∨ Wav.has_riff data = false ∨ Wav.has_wave data = false))
  ∧ (∀ data, file = Ok data → (44 ≤ length data)%nat →
       Wav.has_riff data = true → Wav.has_wave data = true →
       Wav.has_data_tag data = false →
       Wav.readWAVFile file = Ok (drop 44 data, Wav.le32 data 24)).
Proof.
  split.
  - destruct file as [data|e]; simpl; [|tauto].
    unfold Wav.has_riff, Wav.has_wave.
    destruct (Nat.ltb_spec (length data) 44) as [Hlen|Hlen]; simpl.
    { split; [|done]. intros _. right. exists data. split; [done|]. by left. }
    destruct (Bytes.eqb (Bytes.slice data 0 4) _) eqn:Hriff; simpl.
    2:{ split; [|done]. intros _. right. exists data. split; [done|]. right. by left. }
    destruct (Bytes.eqb (Bytes.slice data 8 12) _) eqn:Hwave; simpl.
    2:{ split; [|done]. intros _. right. exists data. split; [done|]. right. by right. }
    split; [done|]. intros [[]|(data' & [= <-] & [Hl|[Hr|Hw]])]; [lia|congruence..].
  - intros data -> Hlen Hriff Hwave Hno. simpl.
    unfold Wav.has_riff in Hriff. unfold Wav.has_wave in Hwave.
    destruct (Nat.ltb_spec (length data) 44) as [?|_]; [lia|].
    rewrite Hriff, Hwave. simpl.
    rewrite find_data_chunk_none, sample_rate_le32; [done|].
    intros j _. by apply has_data_tag_false.
Qed.

(** The 44-byte header alone is accepted: no PCM byte, 16000 Hz. *)
Lemma readWAVFile_acceptance_witness :
  Wav.readWAVFile (Ok Wav.header_only) = Ok ([], 16000).
Proof.
  apply (proj2 (readWAVFile_acceptance (Ok Wav.header_only)) Wav.header_only);
    [reflexivity | simpl; lia | reflexivity | reflexivity | reflexivity].
Defined.

(** ** The polling goroutine *)

Section PollFacts.

Import Registry.

(** After a tick [lastProgress] is the value just loaded. *)
Lemma poll_tick_last (last cur : Z) : fst (poll_tick last cur) = cur.
Proof. unfold poll_tick. destruct (Z.eqb_spec cur last); simpl; congruence. Qed.

Lemma poll_tick_out (last cur v : Z) :
  snd (poll_tick last cur) = Some v ↔ v = cur ∧ cur ≠ last ∧ 0 < cur <= 100.
Proof.
  unfold poll_tick.
  destruct (Z.eqb_spec cur last); simpl.
  { split; [discriminate|]. intros (_ & ? & _). congruence. }
  destruct (Z.ltb_spec 0 cur), (Z.leb_spec cur 100); simpl; split;
    first [ discriminate
          | intros [= <-]; repeat split; lia
          | intros (-> & ? & ?); first [done | lia] ].
Qed.

Lemma poll_from_cons (k : nat) (last cur : Z) (rest : list Z) :
  poll_from k last (cur :: rest) =
  match snd (poll_tick last cur) with
  | Some v => (k, v) :: poll_from (S k) cur rest
  | None => poll_from (S k) cur rest
  end.
Proof.
  simpl. pose proof (poll_tick_last last cur) as Hl.
  destruct (poll_tick last cur) as [last' out]. simpl in *. by subst.
Qed.

(** The first message after a stretch of ticks: it carries a value other
    than the one last loaded, unless an unreported value was loaded on the
    way. *)
Lemma poll_from_head (samples : list Z) (k0 : nat) (last : Z) (k : nat) (v : Z) :
  poll_from k0 last samples !! 0%nat = Some (k, v) →
  (k0 ≤ k)%nat ∧
  (v ≠ last ∨
   ∃ j x, (k0 ≤ j < k)%nat ∧ samples !! (j - k0)%nat = Some x ∧ unreported x).
Proof.
  revert k0 last. induction samples as [|cur rest IH]; intros k0 last; [done|].
  rewrite poll_from_cons.
  destruct (snd (poll_tick last cur)) as [v0|] eqn:Hout.
  - apply poll_tick_out in Hout as (-> & Hne & _).
    intros [= <- <-]. split; [lia|by left].
  - intros Hhead. apply IH in Hhead as [Hk Hcase]. split; [lia|].
    destruct (Z.eq_dec cur last) as [->|Hne].
    + destruct Hcase as [?|(j & x & Hj & Hx & Hun)]; [by left|].
      right. exists j, x. split; [lia|]. split; [|done].
      replace (j - k0)%nat with (S (j - S k0)) by lia. done.
    + right. exists k0, cur. split; [lia|]. rewrite Nat.sub_diag. split; [done|].
      intros Hin. assert (snd (poll_tick last cur) = Some cur) as Hs; [|congruence].
      by apply poll_tick_out.
Qed.

Lemma poll_from_adjacent (samples : list Z) (k0 : nat) (last : Z)
    (i k k' : nat) (v v' : Z) :
  poll_from k0 last samples !! i = Some (k, v) →
  poll_from k0 last samples !! S i = Some (k', v') →
  (k < k')%nat ∧
  (v ≠ v' ∨
   ∃ j x, (k < j < k')%nat ∧ samples !! (j - k0)%nat = Some x ∧ unreported x).
Proof.
  revert k0 last i. induction samples as [|cur rest IH]; intros k0 last i; [done|].
  rewrite poll_from_cons.
  assert (∀ j, (k0 < j)%nat → (cur :: rest) !! (j - k0)%nat = rest !! (j - S k0)%nat)
    as Hshift.
  { intros j Hj. replace (j - k0)%nat with (S (j - S k0)) by lia. done. }
  assert (∀ i, poll_from (S k0) cur rest !! i = Some (k, v) → (k0 < k)%nat) as Hlater.
  { clear. intros i. revert k0 cur i. induction rest as [|c r IHr]; intros k0 cur i; [done|].
    rewrite poll_from_cons. destruct (snd (poll_tick cur c)).
    - destruct i as [|i]; simpl; [intros [= <- _]; lia|].
      intros H%IHr. lia.
    - intros H%IHr. lia. }
  destruct (snd (poll_tick last cur)) as [v0|] eqn:Hout.
  - apply poll_tick_out in Hout as (-> & _ & _).
    destruct i as [|i]; simpl.
    + intros [= <- <-] Hnext. apply poll_from_head in Hnext as [Hk Hcase].
      split; [lia|]. destruct Hcase as [?|(j & x & Hj & Hx & Hun)]; [left; congruence|].
      right. exists j, x. split; [lia|]. split; [|done]. rewrite Hshift by lia. done.
    + intros H1 H2. pose proof (Hlater _ H1).
      destruct (IH _ _ _ H1 H2) as [Hk Hcase]. split; [done|].
      destruct Hcase as [?|(j & x & Hj & Hx & Hun)]; [by left|].
      right. exists j, x. split; [done|]. split; [|done]. rewrite Hshift by lia. done.
  - intros H1 H2. pose proof (Hlater _ H1).
    destruct (IH _ _ _ H1 H2) as [Hk Hcase]. split; [done|].
    destruct Hcase as [?|(j & x & Hj & Hx & Hun)]; [by left|].
    right. exists j, x. split; [done|]. split; [|done]. rewrite Hshift by lia. done.
Qed.

End PollFacts.

(** C9 does not hold as stated: the poller loads 50, then 0, then 50
    again.  The 0 is remembered as the last value and not reported, so both
    messages it emits carry 50. *)
Lemma poll_repeats_value :
  Registry.poll_messages [50; 0; 50] = ["Transcribing... 50%"; "Transcribing... 50%"]
  ∧ ¬ Registry.no_repeat (Registry.poll_values [50; 0; 50]).
Proof.
  split; [reflexivity|].
  intros Hno. by apply (Hno 0%nat 50).
Qed.

(** C9, amended.  Two consecutive messages of the poller, emitted at ticks
    [k] and [k'], carry different values unless, at some tick between the
    two, the poller loaded a value outside 1..100, which it remembers but
    does not report. *)
Theorem poll_dedup (samples : list Z) (i k k' : nat) (v v' : Z) :
  Registry.poll samples !! i = Some (k, v) →
  Registry.poll samples !! S i = Some (k', v') →
  (k < k')%nat ∧
  (v ≠ v' ∨
   ∃ j x, (k < j < k')%nat ∧ samples !! j = Some x ∧ Registry.unreported x).
Proof.
  intros H1 H2.
  destruct (poll_from_adjacent samples 0 (-1) i k k' v v' H1 H2) as [Hk Hcase].
  split; [done|]. destruct Hcase as [?|(j & x & Hj & Hx & Hun)]; [by left|].
  right. exists j, x. by rewrite Nat.sub_0_r in Hx.
Qed.

Lemma poll_dedup_witness :
  (0 < 2)%nat ∧
  (50 ≠ 50 ∨
   ∃ j x, (0 < j < 2)%nat ∧ [50; 0; 50] !! j = Some x ∧ Registry.unreported x).
Proof. apply (poll_dedup [50; 0; 50] 0 0 2 50 50); reflexivity. Defined.

(** When every value the poller loads lies in 1..100, no two consecutive
    messages carry the same value. *)
Corollary poll_dedup_in_range (samples : list Z) :
  Forall (fun x => 0 < x <= 100) samples → Registry.no_repeat (Registry.poll_values samples).
Proof.
  intros Hall i v Hi Hsi. unfold Registry.poll_values in *.
  rewrite list_lookup_fmap in Hi, Hsi.
  destruct (Registry.poll samples !! i) as [[k v1]|] eqn:E1; [|done].
  destruct (Registry.poll samples !! S i) as [[k' v2]|] eqn:E2; [|done].
  simpl in *. injection Hi as ->. injection Hsi as ->.
  destruct (poll_from_adjacent samples 0 (-1) i k k' v v E1 E2) as [_ [?|(j & x & _ & Hx & Hun)]];
    [done|].
  rewrite Nat.sub_0_r in Hx. apply Hun.
  by apply (proj1 (Forall_lookup _ _) Hall j x).
Qed.

(** During a call the poller is [poll_from] run on the values the cell
    holds at the ticks: its messages, and nothing else, make up the trace of
    the native call. *)
Lemma run_events_poll (params : whisper_full_params) (to : sink) (cell : N)
    (evs : list NativeEvent) (k : nat) (last : Z) (st : State) :
  new_segment_callback params = false →
  snd (Registry.run_events params (Some (to, cell)) evs last st)
  = map (fun e => EvProgress to (Registry.progress_message (snd e)))
      (Registry.poll_from k last (Registry.tick_samples params cell evs st)).
Proof.
  intros Hseg. revert k last st.
  induction evs as [|ev evs IH]; intros k last st; simpl; [done|].
  destruct ev as [p|segs|].
  - apply IH.
  - rewrite Hseg. specialize (IH k last st).
    destruct (Registry.run_events params (Some (to, cell)) evs last st). simpl in *. done.
  - rewrite poll_from_cons.
    pose proof (poll_tick_last last (Registry.load_cell cell st)) as Hlast.
    destruct (Registry.poll_tick last (Registry.load_cell cell st)) as [last' out].
    simpl in Hlast. rewrite Hlast. simpl.
    specialize (IH (S k) (Registry.load_cell cell st) st).
    destruct (Registry.run_events params (Some (to, cell)) evs _ st). simpl in *.
    rewrite IH. by destruct out.
Qed.

(** ** The engine facade *)

Import Engine Registry Props.

Lemma same_globals_refl b st : same_globals b st st.
Proof. by repeat split. Qed.

Lemma same_globals_trans b st1 st2 st3 :
  same_globals b st1 st2 → same_globals b st2 st3 → same_globals b st1 st3.
Proof.
  intros (? & ? & ? & ? & Hr1) (? & ? & ? & ? & Hr2).
  repeat split; try congruence. intros Hb. rewrite Hr2, Hr1; done.
Qed.

Lemma progress_handler_globals b p u st :
  same_globals b st (whisper_progress_callback_go p u st).
Proof.
  unfold whisper_progress_callback_go. repeat case_match; by repeat split.
Qed.

Lemma segment_handler_globals segs u st :
  same_globals false st (fst (whisper_new_segment_callback_go segs u st)).
Proof.
  unfold whisper_new_segment_callback_go. repeat case_match; by repeat split.
Qed.

Lemma run_events_globals params poller evs last st :
  same_globals (negb (new_segment_callback params)) st
    (fst (run_events params poller evs last st)).
Proof.
  revert last st. induction evs as [|ev evs IH]; intros last st; simpl;
    [apply same_globals_refl|].
  destruct ev as [p|segs|].
  - eapply same_globals_trans; [|apply IH].
    destruct (progress_callback params);
      [apply progress_handler_globals|apply same_globals_refl].
  - destruct (new_segment_callback params) eqn:Hn; simpl.
    + pose proof (segment_handler_globals segs (new_segment_callback_user_data params) st) as Hs.
      destruct (whisper_new_segment_callback_go _ _ st) as [st1 tr1].
      specialize (IH last st1).
      destruct (run_events params poller evs last st1) as [st2 tr2].
      eapply same_globals_trans; [apply Hs|apply IH].
    + specialize (IH last st).
      destruct (run_events params poller evs last st) as [st2 tr2]. apply IH.
  - destruct poller as [[to cell]|]; [|apply IH].
    destruct (poll_tick last (load_cell cell st)) as [last' out].
    specialize (IH last' st).
    destruct (run_events params (Some (to, cell)) evs last' st). apply IH.
Qed.

Lemma quiet_app tr1 tr2 : quiet tr1 → quiet tr2 → quiet (tr1 ++ tr2).
Proof. apply Forall_app_2. Qed.

Lemma quiet_report pc msg : quiet (report pc msg).
Proof. destruct pc; simpl; repeat constructor. Qed.

Lemma quiet_deliver sc segs : quiet (deliver sc segs).
Proof.
  destruct sc; simpl; [|constructor].
  induction segs; simpl; constructor; done.
Qed.

Lemma quiet_run_events params poller evs last st :
  quiet (snd (run_events params poller evs last st)).
Proof.
  revert last st. induction evs as [|ev evs IH]; intros last st; simpl; [constructor|].
  destruct ev as [p|segs|].
  - apply IH.
  - destruct (new_segment_callback params).
    + assert (quiet (snd (whisper_new_segment_callback_go segs (new_segment_callback_user_data params) st))) as Hq.
      { unfold whisper_new_segment_callback_go. repeat case_match; simpl; repeat constructor. }
      destruct (whisper_new_segment_callback_go _ _ st) as [st1 tr1].
      specialize (IH last st1). destruct (run_events params poller evs last st1).
      by apply quiet_app.
    + specialize (IH last st). destruct (run_events params poller evs last st).
      apply IH.
  - destruct poller as [[to cell]|]; [|apply IH].
    destruct (poll_tick last (load_cell cell st)) as [last' out].
    specialize (IH last' st).
    destruct (run_events params (Some (to, cell)) evs last' st).
    apply quiet_app; [|done]. destruct out; repeat constructor.
Qed.

Lemma quiet_tokens tr : quiet tr → tokens_issued tr = [].
Proof.
  induction 1 as [|ev tr Hev _ IH]; [done|].
  unfold tokens_issued in *. simpl. destruct ev; try done.
Qed.

Lemma quiet_native_calls tr : quiet tr → native_calls tr = [].
Proof.
  induction 1 as [|ev tr Hev _ IH]; [done|].
  unfold native_calls in *. simpl. destruct ev; try done.
Qed.

Lemma tokens_issued_app tr1 tr2 :
  tokens_issued (tr1 ++ tr2) = tokens_issued tr1 ++ tokens_issued tr2.
Proof. apply omap_app. Qed.

Lemma native_calls_app tr1 tr2 :
  native_calls (tr1 ++ tr2) = native_calls tr1 ++ native_calls tr2.
Proof. apply List.filter_app. Qed.

Lemma quiet_prepare env p pc r tr :
  prepareAudioFile env p pc = (r, tr) → tokens_issued tr = [] ∧ native_calls tr = [].
Proof.
  unfold prepareAudioFile. intros H.
  repeat case_match; simplify_eq; rewrite ?tokens_issued_app, ?native_calls_app,
    ?(quiet_tokens _ (quiet_report _ _)), ?(quiet_native_calls _ (quiet_report _ _)); done.
Qed.

(** What is known when the setup reaches the native call. *)
Lemma setup_native e env p mid thr tl pc sc st inv st1 tr :
  transcribe_setup e env p mid thr tl pc sc st = SetupNative inv st1 tr →
  model e = Some (inv_model inv)
  ∧ ctx (inv_model inv) ≠ 0%N
  ∧ (tl = "" → transcriptionCache st !! (p, mid) = None)
  ∧ inv_progressCell inv = heap_next st
  ∧ inv_samples inv ≠ []
  ∧ new_segment_callback (inv_params inv) = false
  ∧ transcriptionCache st1 = transcriptionCache st
  ∧ modelCache st1 = modelCache st
  ∧ cells st1 = <[heap_next st := 0]> (cells st)
  ∧ native_calls tr = []
  ∧ match pc with
    | Some _ =>
        inv_callbackID inv = callbackIDCounter st
        ∧ callbackRegistry st1 =
            <[callbackIDCounter st :=
                {| progressCallback := None; segmentCallback := None;
                   cb_ctx := ctx (inv_model inv); currentSpeaker := 0;
                   progressPercent := Some (heap_next st) |}]> (callbackRegistry st)
        ∧ callbackIDCounter st1 = GoInt.uintptr (callbackIDCounter st + 1)
        ∧ progress_callback (inv_params inv) = true
        ∧ progress_callback_user_data (inv_params inv) = callbackIDCounter st
        ∧ tokens_issued tr = [callbackIDCounter st]
    | None =>
        inv_callbackID inv = 0
        ∧ callbackRegistry st1 = callbackRegistry st
        ∧ callbackIDCounter st1 = callbackIDCounter st
        ∧ progress_callback (inv_params inv) = false
        ∧ tokens_issued tr = []
    end.
Proof.
  unfold transcribe_setup. intros H.
  repeat case_match; unfold alloc, register in *; simplify_eq.
  all: simpl.
  all: repeat match goal with H : prepareAudioFile _ _ _ = _ |- _ => apply quiet_prepare in H as [? ?] end.
  all: rewrite ?tokens_issued_app, ?native_calls_app.
  all: rewrite ?(quiet_tokens _ (quiet_report _ _)), ?(quiet_native_calls _ (quiet_report _ _)).
  all: repeat match goal with H : tokens_issued _ = _ |- _ => rewrite H end.
  all: repeat match goal with H : native_calls _ = _ |- _ => rewrite H end.
  all: simpl.
  all: repeat split; try done.
  all: try (by apply N.eqb_neq).
  all: try (intros ->; simpl in *; by destruct (transcriptionCache st !! (p, mid))).
Qed.

Ltac clean_trace :=
  repeat match goal with
         | H : prepareAudioFile _ _ _ = _ |- _ => apply quiet_prepare in H as [? ?]
         end;
  repeat progress
    (simpl;
     rewrite ?tokens_issued_app, ?native_calls_app;
     rewrite ?(quiet_tokens _ (quiet_report _ _)), ?(quiet_native_calls _ (quiet_report _ _)),
       ?(quiet_tokens _ (quiet_deliver _ _)), ?(quiet_native_calls _ (quiet_deliver _ _));
     repeat match goal with
            | H : tokens_issued ?l = _ |- context [tokens_issued ?l] => rewrite H
            | H : native_calls ?l = _ |- context [native_calls ?l] => rewrite H
            end).

(** What is known when the call is over before the native call. *)
Lemma setup_exit e env p mid thr tl pc sc st c st' tr :
  transcribe_setup e env p mid thr tl pc sc st = SetupExit c st' tr →
  transcriptionCache st' = transcriptionCache st
  ∧ modelCache st' = modelCache st
  ∧ native_calls tr = []
  ∧ (∀ token, token ∈ tokens_issued tr →
       token = callbackIDCounter st ∧ (token ≠ 0 → callbackRegistry st' !! token = None))
  ∧ (∀ k, k ≠ callbackIDCounter st → callbackRegistry st' !! k = callbackRegistry st !! k)
  ∧ (tokens_issued tr = [] → callbackRegistry st' = callbackRegistry st)
  ∧ (callbackIDCounter st' = callbackIDCounter st
     ∨ callbackIDCounter st' = GoInt.uintptr (callbackIDCounter st + 1))
  ∧ (∀ L, c = Returned (Ok L) →
       tl = "" ∧ transcriptionCache st !! (p, mid) = Some L ∧ st' = st).
Proof.
  unfold transcribe_setup, run_deferred. intros H.
  repeat case_match; unfold alloc, register, unregister in *; simplify_eq.
  all: repeat case_match.
  all: clean_trace.
  all: split_and!; try done.
  all: try (by left).
  all: try (by right).
  all: try (intros ? ?%elem_of_nil; done).
  all: try (intros ? [= <-]; split_and!; [by apply String.eqb_eq|done..]).
  all: try (intros ? ->%list_elem_of_singleton; split; [done|]; intros Hne;
            first [ apply lookup_delete_eq
                  | match goal with
                    | H0 : (_ =? 0) = true |- _ => apply Z.eqb_eq in H0; congruence
                    end ]).
  all: try (intros k Hk; rewrite ?lookup_delete_ne by done; by rewrite lookup_insert_ne).
Qed.

Lemma wraps_small w z : 0 < w → - 2 ^ (w - 1) <= z < 2 ^ (w - 1) → GoInt.wraps w z = z.
Proof.
  intros Hw Hz. unfold GoInt.wraps.
  assert (2 ^ w = 2 * 2 ^ (w - 1)) as Hp.
  { rewrite <- Z.pow_succ_r by lia. f_equal. lia. }
  rewrite Z.mod_small; lia.
Qed.

Lemma turn_next_lookup segs i ns :
  segs !! i = Some ns →
  whisper_full_get_segment_speaker_turn_next segs i = ns_speaker_turn_next ns.
Proof. unfold whisper_full_get_segment_speaker_turn_next. by intros ->. Qed.

Lemma extract_loop_length segs n i cs : length (extract_loop segs i n cs) = n.
Proof. revert i cs. induction n as [|n IH]; intros i cs; simpl; [done|]. by rewrite IH. Qed.

(** The speaker of the first segment a stretch of the loop produces. *)
Lemma extract_loop_head segs n i cs s :
  extract_loop segs i n cs !! 0%nat = Some s →
  Speaker s =
    if (0 <? i)%nat && whisper_full_get_segment_speaker_turn_next segs (i - 1)
    then GoInt.int (cs + 1) else cs.
Proof. destruct n as [|n]; simpl; [done|]. by intros [= <-]. Qed.

(** From one segment to the next the speaker grows by one exactly when the
    earlier segment carries the turn flag. *)
Lemma extract_loop_step segs n i cs j s s' :
  0 <= cs → cs + Z.of_nat n < 2 ^ 63 →
  extract_loop segs i n cs !! j = Some s →
  extract_loop segs i n cs !! S j = Some s' →
  Speaker s' = Speaker s +
    (if whisper_full_get_segment_speaker_turn_next segs (i + j) then 1 else 0).
Proof.
  revert i cs j. induction n as [|n IH]; intros i cs j Hcs Hn; simpl; [done|].
  set (cs' := if (0 <? i)%nat && whisper_full_get_segment_speaker_turn_next segs (i - 1)
              then GoInt.int (cs + 1) else cs).
  assert (cs <= cs' <= cs + 1) as Hcs'.
  { unfold cs'. destruct (_ && _); [|lia]. unfold GoInt.int. rewrite wraps_small; lia. }
  destruct j as [|j]; simpl.
  - intros [= <-] Hnext. simpl. destruct n as [|n']; [done|].
    apply extract_loop_head in Hnext. rewrite Hnext.
    simpl. rewrite Nat.sub_0_r, Nat.add_0_r.
    destruct (whisper_full_get_segment_speaker_turn_next segs i); [|lia].
    unfold GoInt.int. rewrite wraps_small; lia.
  - intros H1 H2. replace (i + S j)%nat with (S i + j)%nat by lia.
    apply (IH (S i) cs' j); [lia|lia|done..].
Qed.

Lemma unregister_globals id st :
  transcriptionCache (unregister id st) = transcriptionCache st
  ∧ modelCache (unregister id st) = modelCache st
  ∧ callbackIDCounter (unregister id st) = callbackIDCounter st.
Proof. unfold unregister. by case_match. Qed.

(** What the part after the setup does. *)
Lemma finish_facts p mid tl pc sc inv run st c st' tr :
  transcribe_finish p mid tl pc sc inv run st = (c, st', tr) →
  new_segment_callback (inv_params inv) = false →
  modelCache st' = modelCache st
  ∧ callbackIDCounter st' = callbackIDCounter st
  ∧ callbackRegistry st' = callbackRegistry (unregister (inv_callbackID inv) st)
  ∧ tokens_issued tr = []
  ∧ native_calls tr = [EvWhisperFull (ctx (inv_model inv)) (inv_params inv) (inv_samples inv)]
  ∧ (if nr_status run =? 0
     then c = Returned (Ok (extract_segments (nr_segments run)))
          ∧ transcriptionCache st' =
              (if String.eqb tl ""
               then <[(p, mid) := extract_segments (nr_segments run)]> (transcriptionCache st)
               else transcriptionCache st)
     else c = Returned (Err ("whisper_full failed with code " +:+ pretty (nr_status run)))
          ∧ transcriptionCache st' = transcriptionCache st).
Proof.
  unfold transcribe_finish, run_deferred. intros H Hseg.
  set (poller := match pc with Some to => Some (to, inv_progressCell inv) | None => None end) in *.
  pose proof (run_events_globals (inv_params inv) poller (nr_events run) (-1) st) as Hg.
  pose proof (quiet_run_events (inv_params inv) poller (nr_events run) (-1) st) as Hq.
  destruct (run_events (inv_params inv) poller (nr_events run) (-1) st) as [st1 tr_run].
  rewrite Hseg in Hg. destruct Hg as (Htc & Hmc & Hctr & _ & Hreg). specialize (Hreg eq_refl).
  simpl in *.
  assert (∀ f, callbackRegistry (unregister (inv_callbackID inv) (set_transcriptionCache f st1))
               = callbackRegistry (unregister (inv_callbackID inv) st)) as Hun1.
  { intros f. unfold unregister. destruct (inv_callbackID inv =? 0); simpl; by rewrite Hreg. }
  assert (callbackRegistry (unregister (inv_callbackID inv) st1)
          = callbackRegistry (unregister (inv_callbackID inv) st)) as Hun2.
  { unfold unregister. destruct (inv_callbackID inv =? 0); simpl; by rewrite Hreg. }
  destruct (nr_status run =? 0) eqn:Hst; simpl in H; simplify_eq.
  - destruct (unregister_globals (inv_callbackID inv)
                (if String.eqb tl ""
                 then set_transcriptionCache
                        (<[(p, mid) := extract_loop (nr_segments run) 0 (length (nr_segments run)) 0]>) st1
                 else st1)) as (Hu1 & Hu2 & Hu3).
    rewrite Hu1, Hu2, Hu3.
    clean_trace. rewrite (quiet_tokens _ Hq), (quiet_native_calls _ Hq). simpl.
    destruct (String.eqb tl ""); simpl; rewrite ?Hun1, ?Hun2; unfold extract_segments;
      split_and!; congruence.
  - destruct (unregister_globals (inv_callbackID inv) st1) as (Hu1 & Hu2 & Hu3).
    rewrite Hu1, Hu2, Hu3, Hun2.
    clean_trace. rewrite (quiet_tokens _ Hq), (quiet_native_calls _ Hq). simpl.
    split_and!; congruence.
Qed.

Lemma segments_sent_app to tr1 tr2 :
  segments_sent to (tr1 ++ tr2) = segments_sent to tr1 ++ segments_sent to tr2.
Proof. apply omap_app. Qed.

Lemma segments_sent_report to pc msg : segments_sent to (report pc msg) = [].
Proof. by destruct pc. Qed.

Lemma segments_sent_deliver to L : segments_sent to (deliver (Some to) L) = L.
Proof.
  induction L as [|s L IH]; [done|].
  unfold segments_sent. cbn. rewrite N.eqb_refl. f_equal. exact IH.
Qed.

(** ** Transcription cache *)

(** C1.  When a call without translation target returns the list [L], a
    second call for the same path and model id, made on the same engine or
    on any other initialised one, whatever its environment, thread count and
    sinks, returns [L] again, leaves the state as it is, hands every segment
    of [L] in order to its segment sink, and does not call [whisper_full]. *)
Theorem cached_transcription_idempotent
    (e e2 : WhisperCGOEngine) (audioPath modelID : string)
    (env1 env2 : CallEnv) (threads1 threads2 : Z) (pc1 sc1 pc2 sc2 : option sink)
    (st st1 : State) (tr1 : list Event) (L : list Segment) :
  TranscribeWithTranslation e env1 audioPath modelID threads1 "" pc1 sc1 st
    = (Returned (Ok L), st1, tr1) →
  e2 = e ∨ initialised e2 →
  ∃ tr2,
    TranscribeWithTranslation e2 env2 audioPath modelID threads2 "" pc2 sc2 st1
      = (Returned (Ok L), st1, tr2)
    ∧ native_calls tr2 = []
    ∧ (∀ to, sc2 = Some to → segments_sent to tr2 = L).
Proof.
  intros Hfirst He2.
  assert (initialised e ∧ transcriptionCache st1 !! (audioPath, modelID) = Some L)
    as [He Hhit].
  { unfold TranscribeWithTranslation in Hfirst.
    destruct (transcribe_setup e env1 audioPath modelID threads1 "" pc1 sc1 st)
      as [c st' tr|inv st0 tr] eqn:Hsetup.
    - injection Hfirst as -> -> ->.
      destruct (setup_exit _ _ _ _ _ _ _ _ _ _ _ _ Hsetup) as (_ & _ & _ & _ & _ & _ & _ & Hok).
      destruct (Hok L eq_refl) as (_ & Hhit & ->). split; [|done].
      unfold transcribe_setup in Hsetup.
      destruct (model e) as [m|] eqn:Hm; [|done]. exists m. split; [done|].
      destruct (N.eqb_spec (ctx m) 0); done.
    - destruct (setup_native _ _ _ _ _ _ _ _ _ _ _ _ Hsetup)
        as (Hm & Hctx & _ & _ & _ & Hseg & Htc & _).
      destruct (transcribe_finish audioPath modelID "" pc1 sc1 inv (native_run env1 inv) st0)
        as [[c st'] tr'] eqn:Hfin.
      injection Hfirst as -> -> <-.
      destruct (finish_facts _ _ _ _ _ _ _ _ _ _ _ Hfin Hseg) as (_ & _ & _ & _ & _ & Hres).
      split; [by exists (inv_model inv)|].
      destruct (nr_status (native_run env1 inv) =? 0); destruct Hres as [Hc Hcache]; [|done].
      injection Hc as ->. rewrite Hcache. simpl. apply lookup_insert_eq. }
  assert (initialised e2) as (m & Hm & Hctx%N.eqb_neq) by (by destruct He2 as [->|]).
  unfold TranscribeWithTranslation, transcribe_setup. rewrite Hm, Hctx. simpl. rewrite Hhit.
  eexists. split; [done|]. clean_trace. split; [done|].
  intros to ->. rewrite !segments_sent_app, !segments_sent_report, segments_sent_deliver.
  by rewrite app_nil_r.
Qed.

(** After the first call of the scenario, a second call whose engine would
    fail still returns the transcript. *)
Lemma cached_transcription_idempotent_witness :
  ∃ tr2,
    TranscribeWithTranslation Scenario.engine Scenario.env_failed "a.wav" "turbo" 8 ""
      None (Some 3%N) (snd (fst Scenario.first_call))
      = (Returned (Ok Scenario.transcript), snd (fst Scenario.first_call), tr2)
    ∧ native_calls tr2 = []
    ∧ (∀ to, Some 3%N = Some to → segments_sent to tr2 = Scenario.transcript).
Proof.
  apply (cached_transcription_idempotent Scenario.engine Scenario.engine "a.wav" "turbo"
           Scenario.env_ok Scenario.env_failed 4 8 (Some 1%N) (Some 2%N) None (Some 3%N)
           Scenario.ready (snd (fst Scenario.first_call)) (snd Scenario.first_call)
           Scenario.transcript).
  - vm_compute. reflexivity.
  - left. reflexivity.
Defined.

Lemma progress_handler_with_cache cache p u st :
  whisper_progress_callback_go p u (with_cache cache st)
  = with_cache cache (whisper_progress_callback_go p u st).
Proof. unfold whisper_progress_callback_go. simpl. by repeat case_match. Qed.

Lemma segment_handler_with_cache cache segs u st :
  whisper_new_segment_callback_go segs u (with_cache cache st)
  = (with_cache cache (fst (whisper_new_segment_callback_go segs u st)),
     snd (whisper_new_segment_callback_go segs u st)).
Proof. unfold whisper_new_segment_callback_go. simpl. by repeat case_match. Qed.

(** The callbacks and the poller never look at the transcription cache. *)
Lemma run_events_with_cache cache params poller evs last st :
  run_events params poller evs last (with_cache cache st)
  = (with_cache cache (fst (run_events params poller evs last st)),
     snd (run_events params poller evs last st)).
Proof.
  revert last st. induction evs as [|ev evs IH]; intros last st; simpl; [done|].
  destruct ev as [p|segs|].
  - destruct (progress_callback params); [|apply IH].
    rewrite progress_handler_with_cache. apply IH.
  - destruct (new_segment_callback params).
    + rewrite segment_handler_with_cache.
      destruct (whisper_new_segment_callback_go _ _ st) as [st1 tr1]. simpl.
      rewrite IH. by destruct (run_events params poller evs last st1).
    + rewrite IH. by destruct (run_events params poller evs last st).
  - destruct poller as [[to cell]|]; [|apply IH].
    change (load_cell cell (with_cache cache st)) with (load_cell cell st).
    destruct (poll_tick last (load_cell cell st)) as [last' out].
    rewrite IH. by destruct (run_events params (Some (to, cell)) evs last' st).
Qed.

Lemma setup_with_cache cache e env p mid thr tl pc sc st :
  String.eqb tl "" = false →
  transcribe_setup e env p mid thr tl pc sc (with_cache cache st)
  = match transcribe_setup e env p mid thr tl pc sc st with
    | SetupExit c st' tr => SetupExit c (with_cache cache st') tr
    | SetupNative inv st1 tr => SetupNative inv (with_cache cache st1) tr
    end.
Proof.
  intros Htl. unfold transcribe_setup. rewrite Htl.
  destruct (model e) as [m|]; [|done].
  destruct (ctx m =? 0)%N; [done|].
  destruct (prepareAudioFile env p pc) as [[tempWav|err] tr2]; [|done].
  destruct (Wav.readWAVFile (env_readFile env)) as [[audioData sampleRate]|err]; [|done].
  destruct (negb (sampleRate =? 16000)); [done|].
  unfold alloc, register, run_deferred, unregister. simpl.
  destruct pc; simpl; destruct (samples_of audioData); try done.
  by destruct (callbackIDCounter st =? 0).
Qed.

Lemma finish_with_cache cache p mid tl pc sc inv run st :
  String.eqb tl "" = false →
  transcribe_finish p mid tl pc sc inv run (with_cache cache st)
  = (fst (fst (transcribe_finish p mid tl pc sc inv run st)),
     with_cache cache (snd (fst (transcribe_finish p mid tl pc sc inv run st))),
     snd (transcribe_finish p mid tl pc sc inv run st)).
Proof.
  intros Htl. unfold transcribe_finish. rewrite run_events_with_cache, Htl.
  destruct (run_events _ _ _ _ st) as [st1 tr_run]. simpl.
  unfold run_deferred, unregister.
  destruct (negb (nr_status run =? 0)); simpl; by destruct (inv_callbackID inv =? 0).
Qed.

(** C7.  A call with a translation target leaves the transcription cache as
    it found it, and whatever the cache holds, the call ends the same way,
    with the same trace and the same state outside the cache. *)
Theorem translation_bypasses_cache
    (e : WhisperCGOEngine) (env : CallEnv) (audioPath modelID : string) (cpuThreads : Z)
    (translateTo : string) (pc sc : option sink)
    (st st' : State) (c : completion) (tr : list Event) :
  translateTo ≠ "" →
  TranscribeWithTranslation e env audioPath modelID cpuThreads translateTo pc sc st
    = (c, st', tr) →
  transcriptionCache st' = transcriptionCache st
  ∧ ∀ cache,
      TranscribeWithTranslation e env audioPath modelID cpuThreads translateTo pc sc
        (with_cache cache st)
      = (c, with_cache cache st', tr).
Proof.
  intros Hne%String.eqb_neq Hcall. unfold TranscribeWithTranslation in *.
  destruct (transcribe_setup e env audioPath modelID cpuThreads translateTo pc sc st)
    as [c0 st0 tr0|inv st1 tr0] eqn:Hsetup.
  - injection Hcall as -> -> ->. split.
    + by destruct (setup_exit _ _ _ _ _ _ _ _ _ _ _ _ Hsetup) as (? & _).
    + intros cache. by rewrite setup_with_cache, Hsetup.
  - destruct (setup_native _ _ _ _ _ _ _ _ _ _ _ _ Hsetup)
      as (_ & _ & _ & _ & _ & Hseg & Htc & _).
    destruct (transcribe_finish audioPath modelID translateTo pc sc inv (native_run env inv) st1)
      as [[c1 st2] tr1] eqn:Hfin.
    injection Hcall as -> -> <-. split.
    + destruct (finish_facts _ _ _ _ _ _ _ _ _ _ _ Hfin Hseg) as (_ & _ & _ & _ & _ & Hres).
      rewrite Hne in Hres.
      destruct (nr_status (native_run env inv) =? 0); destruct Hres as [_ ->]; done.
    + intros cache. rewrite setup_with_cache, Hsetup by done.
      rewrite finish_with_cache, Hfin by done. done.
Qed.

(** Translating the scenario's recording into English on a fresh cache. *)
Lemma translation_bypasses_cache_witness :
  transcriptionCache
    (snd (fst (TranscribeWithTranslation Scenario.engine Scenario.env_ok "a.wav" "turbo" 4
                 "en" (Some 1%N) (Some 2%N) Scenario.ready)))
  = transcriptionCache Scenario.ready
  ∧ ∀ cache,
      TranscribeWithTranslation Scenario.engine Scenario.env_ok "a.wav" "turbo" 4 "en"
        (Some 1%N) (Some 2%N) (with_cache cache Scenario.ready)
      = (fst (fst (TranscribeWithTranslation Scenario.engine Scenario.env_ok "a.wav" "turbo" 4
                     "en" (Some 1%N) (Some 2%N) Scenario.ready)),
         with_cache cache
           (snd (fst (TranscribeWithTranslation Scenario.engine Scenario.env_ok "a.wav"
                        "turbo" 4 "en" (Some 1%N) (Some 2%N) Scenario.ready))),
         snd (TranscribeWithTranslation Scenario.engine Scenario.env_ok "a.wav" "turbo" 4
                "en" (Some 1%N) (Some 2%N) Scenario.ready)).
Proof.
  apply (translation_bypasses_cache Scenario.engine Scenario.env_ok "a.wav" "turbo" 4 "en"
           (Some 1%N) (Some 2%N) Scenario.ready).
  - discriminate.
  - vm_compute. reflexivity.
Defined.

(** C8.  When the call gets as far as [whisper_full] and the status is not
    0, it returns the error that carries the status, and the transcription
    cache is what it was. *)
Theorem inference_failure_atomic
    (e : WhisperCGOEngine) (env : CallEnv) (audioPath modelID : string) (cpuThreads : Z)
    (translateTo : string) (pc sc : option sink)
    (st st1 : State) (inv : Invocation) (tr0 : list Event) :
  transcribe_setup e env audioPath modelID cpuThreads translateTo pc sc st
    = SetupNative inv st1 tr0 →
  nr_status (native_run env inv) ≠ 0 →
  ∃ st' tr,
    TranscribeWithTranslation e env audioPath modelID cpuThreads translateTo pc sc st
    = (Returned (Err ("whisper_full failed with code "
                      +:+ pretty (nr_status (native_run env inv)))), st', tr)
    ∧ transcriptionCache st' = transcriptionCache st.
Proof.
  intros Hsetup Hstatus%Z.eqb_neq. unfold TranscribeWithTranslation. rewrite Hsetup.
  destruct (setup_native _ _ _ _ _ _ _ _ _ _ _ _ Hsetup)
    as (_ & _ & _ & _ & _ & Hseg & Htc & _).
  destruct (transcribe_finish audioPath modelID translateTo pc sc inv (native_run env inv) st1)
    as [[c1 st2] tr1] eqn:Hfin.
  destruct (finish_facts _ _ _ _ _ _ _ _ _ _ _ Hfin Hseg) as (_ & _ & _ & _ & _ & Hres).
  rewrite Hstatus in Hres. destruct Hres as [-> Hcache].
  exists st2, (tr0 ++ tr1). split; [done|]. congruence.
Qed.

(** The scenario's failing engine: status -6 after the setup succeeded. *)
Lemma inference_failure_atomic_witness :
  ∃ st' tr,
    TranscribeWithTranslation Scenario.engine Scenario.env_failed "a.wav" "turbo" 4 ""
      (Some 1%N) (Some 2%N) Scenario.ready
    = (Returned (Err "whisper_full failed with code -6"), st', tr)
    ∧ transcriptionCache st' = transcriptionCache Scenario.ready.
Proof.
  eapply (inference_failure_atomic Scenario.engine Scenario.env_failed "a.wav" "turbo" 4 ""
            (Some 1%N) (Some 2%N) Scenario.ready).
  - vm_compute. reflexivity.
  - discriminate.
Defined.

(** ** Callback registry *)

Lemma registry_wf_fresh st : registry_wf st → callbackRegistry st !! callbackIDCounter st = None.
Proof.
  intros [_ Hkeys]. destruct (callbackRegistry st !! callbackIDCounter st) as [slot|] eqn:Hk;
    [|done].
  apply Hkeys in Hk. lia.
Qed.

Lemma registry_wf_init : registry_wf init_state.
Proof. split; [simpl; lia|]. intros k slot Hk. simpl in Hk. by rewrite lookup_empty in Hk. Qed.

(** A call gives the registry back as it found it. *)
Lemma registry_restored
    (e : WhisperCGOEngine) (env : CallEnv) (audioPath modelID : string) (cpuThreads : Z)
    (translateTo : string) (pc sc : option sink)
    (st st' : State) (c : completion) (tr : list Event) :
  registry_wf st →
  TranscribeWithTranslation e env audioPath modelID cpuThreads translateTo pc sc st
    = (c, st', tr) →
  callbackRegistry st' = callbackRegistry st
  ∧ (callbackIDCounter st' = callbackIDCounter st
     ∨ callbackIDCounter st' = GoInt.uintptr (callbackIDCounter st + 1)).
Proof.
  intros Hwf Hcall. pose proof (registry_wf_fresh st Hwf) as Hfresh.
  destruct Hwf as [[Hpos _] _]. unfold TranscribeWithTranslation in Hcall.
  destruct (transcribe_setup e env audioPath modelID cpuThreads translateTo pc sc st)
    as [c0 st0 tr0|inv st1 tr0] eqn:Hsetup.
  - injection Hcall as -> -> ->.
    destruct (setup_exit _ _ _ _ _ _ _ _ _ _ _ _ Hsetup)
      as (_ & _ & _ & Htok & Hframe & Hnone & Hctr & _).
    split; [|done]. destruct (tokens_issued tr) as [|token rest] eqn:Htr; [by apply Hnone|].
    apply map_eq. intros k. destruct (decide (k = callbackIDCounter st)) as [->|Hk].
    + destruct (Htok token (list_elem_of_here _ _)) as [-> Hgone].
      rewrite Hgone by lia. done.
    + by apply Hframe.
  - destruct (setup_native _ _ _ _ _ _ _ _ _ _ _ _ Hsetup)
      as (_ & _ & _ & _ & _ & Hseg & _ & _ & _ & _ & Hpc).
    destruct (transcribe_finish audioPath modelID translateTo pc sc inv (native_run env inv) st1)
      as [[c1 st2] tr1] eqn:Hfin.
    injection Hcall as -> -> <-.
    destruct (finish_facts _ _ _ _ _ _ _ _ _ _ _ Hfin Hseg) as (_ & Hctr & Hreg & _).
    rewrite Hreg, Hctr. unfold unregister. destruct pc as [to|].
    + destruct Hpc as (-> & Hreg1 & -> & _). split; [|by right].
      destruct (Z.eqb_spec (callbackIDCounter st) 0); [lia|]. simpl.
      rewrite Hreg1. by apply delete_insert_id.
    + destruct Hpc as (-> & Hreg1 & -> & _). simpl. split; [done|by left].
Qed.

(** The registry stays well formed as long as the counter has room. *)
Lemma registry_wf_preserved
    (e : WhisperCGOEngine) (env : CallEnv) (audioPath modelID : string) (cpuThreads : Z)
    (translateTo : string) (pc sc : option sink)
    (st st' : State) (c : completion) (tr : list Event) :
  registry_wf st → callbackIDCounter st + 1 < 2 ^ 64 →
  TranscribeWithTranslation e env audioPath modelID cpuThreads translateTo pc sc st
    = (c, st', tr) →
  registry_wf st'.
Proof.
  intros Hwf Hroom Hcall.
  destruct (registry_restored _ _ _ _ _ _ _ _ _ _ _ _ Hwf Hcall) as [Hreg Hctr].
  destruct Hwf as [Hpos Hkeys]. unfold registry_wf. rewrite Hreg.
  assert (GoInt.uintptr (callbackIDCounter st + 1) = callbackIDCounter st + 1) as Hno_wrap.
  { unfold GoInt.uintptr, GoInt.wrapu. apply Z.mod_small. lia. }
  destruct Hctr as [->| ->]; [done|]. rewrite Hno_wrap. split; [lia|].
  intros k slot Hk. apply Hkeys in Hk. lia.
Qed.

(** C4 does not hold as stated, twice over in the scenario.  Without a
    progress sink the call reaches [whisper_full] with an empty registry.
    With both sinks the registered slot has no segment sink, and the live
    segment handler, run on that slot, delivers nothing. *)
Lemma slot_lacks_segment_sink :
  (∃ inv st1 tr,
      transcribe_setup Scenario.engine Scenario.env_ok "a.wav" "turbo" 4 "" None (Some 2%N)
        Scenario.ready = SetupNative inv st1 tr
      ∧ inv_callbackID inv = 0
      ∧ callbackRegistry st1 = ∅)
  ∧ (∃ inv st1 tr slot,
      transcribe_setup Scenario.engine Scenario.env_ok "a.wav" "turbo" 4 "" (Some 1%N)
        (Some 2%N) Scenario.ready = SetupNative inv st1 tr
      ∧ callbackRegistry st1 !! inv_callbackID inv = Some slot
      ∧ segmentCallback slot = None
      ∧ whisper_new_segment_callback_go Scenario.heard (inv_callbackID inv) st1 = (st1, [])).
Proof.
  split.
  - eexists _, _, _. split; [vm_compute; reflexivity|]. split; reflexivity.
  - eexists _, _, _, _. split; [vm_compute; reflexivity|].
    split; [vm_compute; reflexivity|]. split; reflexivity.
Qed.

(** C4, amended.  A call that reaches [whisper_full] with a progress sink
    has registered one slot, and nothing else, under the token the counter
    held; the counter has then been incremented, as a [uintptr] is, and is
    no longer the token.  No slot of a well-formed registry uses the token,
    and the registry the call is in flight with is well-formed again, so
    that the next token is fresh in turn.  The slot holds the model's
    context and the invocation's progress cell, which reads 0, the token is
    installed as the user data of the progress callback, and the slot has
    no segment sink and no new-segment callback is installed, so that the
    live segment handler delivers nothing.  A call without progress sink
    registers no slot and leaves the counter alone. *)
Theorem callback_slot_registration
    (e : WhisperCGOEngine) (env : CallEnv) (audioPath modelID : string) (cpuThreads : Z)
    (translateTo : string) (pc sc : option sink)
    (st st1 : State) (inv : Invocation) (tr : list Event) :
  transcribe_setup e env audioPath modelID cpuThreads translateTo pc sc st
    = SetupNative inv st1 tr →
  match pc with
  | Some _ =>
      let token := callbackIDCounter st in
      let slot := {| progressCallback := None; segmentCallback := None;
                     cb_ctx := ctx (inv_model inv); currentSpeaker := 0;
                     progressPercent := Some (inv_progressCell inv) |} in
      inv_callbackID inv = token
      ∧ tokens_issued tr = [token]
      ∧ (registry_wf st → callbackRegistry st !! token = None)
      ∧ callbackRegistry st1 !! token = Some slot
      ∧ cells st1 !! inv_progressCell inv = Some 0
      ∧ progress_callback (inv_params inv) = true
      ∧ progress_callback_user_data (inv_params inv) = token
      ∧ new_segment_callback (inv_params inv) = false
      ∧ (∀ segs, whisper_new_segment_callback_go segs token st1 = (st1, []))
      ∧ callbackIDCounter st1 = GoInt.uintptr (token + 1)
      ∧ callbackIDCounter st1 ≠ token
      ∧ callbackRegistry st1 = <[token := slot]> (callbackRegistry st)
      ∧ (registry_wf st → callbackRegistry st1 !! callbackIDCounter st1 = None)
      ∧ (registry_wf st → token + 1 < 2 ^ 64 → registry_wf st1)
  | None =>
      inv_callbackID inv = 0
      ∧ tokens_issued tr = []
      ∧ callbackRegistry st1 = callbackRegistry st
      ∧ progress_callback (inv_params inv) = false
      ∧ new_segment_callback (inv_params inv) = false
      ∧ callbackIDCounter st1 = callbackIDCounter st
      ∧ (registry_wf st → registry_wf st1)
  end.
Proof.
  intros Hsetup.
  destruct (setup_native _ _ _ _ _ _ _ _ _ _ _ _ Hsetup)
    as (_ & _ & _ & Hcell & _ & Hseg & _ & _ & Hcells & _ & Hpc).
  destruct pc as [to|].
  - destruct Hpc as (Hid & Hreg & Hctr & Hcb & Hud & Htok). simpl.
    rewrite <- Hcell in Hreg.
    assert (callbackRegistry st1 !! callbackIDCounter st =
              Some {| progressCallback := None; segmentCallback := None;
                      cb_ctx := ctx (inv_model inv); currentSpeaker := 0;
                      progressPercent := Some (inv_progressCell inv) |}) as Hslot.
    { rewrite Hreg. apply lookup_insert_eq. }
    assert (0 <= GoInt.uintptr (callbackIDCounter st + 1) < 2 ^ 64) as Hrange.
    { unfold GoInt.uintptr, GoInt.wrapu. apply Z.mod_pos_bound. lia. }
    assert (GoInt.uintptr (callbackIDCounter st + 1) ≠ callbackIDCounter st) as Hnext.
    { intros Heq. rewrite Heq in Hrange.
      unfold GoInt.uintptr, GoInt.wrapu in Heq.
      destruct (Z.eq_dec (callbackIDCounter st + 1) (2 ^ 64)) as [Htop|Htop].
      - rewrite Htop, Z.mod_same in Heq by lia. lia.
      - rewrite Z.mod_small in Heq by lia. lia. }
    split_and!; try done.
    + apply registry_wf_fresh.
    + rewrite Hcells, Hcell. apply lookup_insert_eq.
    + intros segs. unfold whisper_new_segment_callback_go.
      destruct (length segs =? 0)%nat; [done|]. by rewrite Hslot.
    + by rewrite Hctr.
    + intros [[Hpos Hlt] Hkeys]. rewrite Hreg, Hctr, lookup_insert_ne by done.
      destruct (callbackRegistry st !! GoInt.uintptr (callbackIDCounter st + 1))
        as [other|] eqn:Hother; [|done].
      apply Hkeys in Hother. exfalso.
      unfold GoInt.uintptr, GoInt.wrapu in Hother.
      destruct (Z.eq_dec (callbackIDCounter st + 1) (2 ^ 64)) as [Htop|Htop].
      * rewrite Htop, Z.mod_same in Hother by lia. lia.
      * rewrite Z.mod_small in Hother by lia. lia.
    + intros [[Hpos Hlt] Hkeys] Hroom. unfold registry_wf. rewrite Hreg, Hctr.
      assert (GoInt.uintptr (callbackIDCounter st + 1) = callbackIDCounter st + 1) as ->.
      { unfold GoInt.uintptr, GoInt.wrapu. apply Z.mod_small. lia. }
      split; [lia|]. intros k other Hk.
      destruct (decide (k = callbackIDCounter st)) as [->|Hne]; [lia|].
      rewrite lookup_insert_ne in Hk by done. apply Hkeys in Hk. lia.
  - destruct Hpc as (Hid & Hreg & Hctr & Hcb & Htok). split_and!; try done.
    intros Hwf. unfold registry_wf. by rewrite Hreg, Hctr.
Qed.

(** The scenario's first call: token 1, the counter at 2 while the call is
    in flight. *)
Lemma callback_slot_registration_witness :
  ∃ inv st1,
    inv_callbackID inv = 1
    ∧ callbackRegistry st1 !! 1 =
        Some {| progressCallback := None; segmentCallback := None;
                cb_ctx := 4096; currentSpeaker := 0;
                progressPercent := Some (inv_progressCell inv) |}
    ∧ whisper_new_segment_callback_go Scenario.heard 1 st1 = (st1, [])
    ∧ callbackIDCounter st1 = 2
    ∧ callbackRegistry st1 !! 2 = None
    ∧ registry_wf st1.
Proof.
  eassert (transcribe_setup Scenario.engine Scenario.env_ok "a.wav" "turbo" 4 ""
             (Some 1%N) (Some 2%N) Scenario.ready = SetupNative _ _ _) as Hsetup
    by (vm_compute; reflexivity).
  assert (registry_wf Scenario.ready) as Hwf.
  { split; [vm_compute; split; reflexivity|].
    intros k slot Hk. vm_compute in Hk. discriminate. }
  destruct (callback_slot_registration _ _ _ _ _ _ _ _ _ _ _ _ Hsetup)
    as (H1 & _ & _ & H4 & _ & _ & _ & _ & H9 & H10 & _ & _ & H13 & H14).
  eexists _, _. split; [exact H1|]. split; [exact H4|]. split; [exact (H9 Scenario.heard)|].
  split; [exact H10|]. split; [exact (H13 Hwf)|]. apply (H14 Hwf). vm_compute. reflexivity.
Defined.

(** C5.  As long as the token counter is not 0, which it is not before
    it wraps, no token a call has registered is left in the registry when
    the call is over, however the call ends. *)
Theorem registry_cleanup
    (e : WhisperCGOEngine) (env : CallEnv) (audioPath modelID : string) (cpuThreads : Z)
    (translateTo : string) (pc sc : option sink)
    (st st' : State) (c : completion) (tr : list Event) :
  callbackIDCounter st ≠ 0 →
  TranscribeWithTranslation e env audioPath modelID cpuThreads translateTo pc sc st
    = (c, st', tr) →
  ∀ token, token ∈ tokens_issued tr → callbackRegistry st' !! token = None.
Proof.
  intros Hctr Hcall token Htoken. unfold TranscribeWithTranslation in Hcall.
  destruct (transcribe_setup e env audioPath modelID cpuThreads translateTo pc sc st)
    as [c0 st0 tr0|inv st1 tr0] eqn:Hsetup.
  - injection Hcall as -> -> ->.
    destruct (setup_exit _ _ _ _ _ _ _ _ _ _ _ _ Hsetup) as (_ & _ & _ & Htok & _).
    destruct (Htok token Htoken) as [-> Hgone]. by apply Hgone.
  - destruct (setup_native _ _ _ _ _ _ _ _ _ _ _ _ Hsetup)
      as (_ & _ & _ & _ & _ & Hseg & _ & _ & _ & _ & Hpc).
    destruct (transcribe_finish audioPath modelID translateTo pc sc inv (native_run env inv) st1)
      as [[c1 st2] tr1] eqn:Hfin.
    injection Hcall as -> -> <-.
    destruct (finish_facts _ _ _ _ _ _ _ _ _ _ _ Hfin Hseg) as (_ & _ & Hreg & Htok1 & _).
    rewrite tokens_issued_app, Htok1, app_nil_r in Htoken.
    destruct pc as [to|].
    + destruct Hpc as (Hid & _ & _ & _ & _ & Htok0).
      rewrite Htok0 in Htoken. apply list_elem_of_singleton in Htoken as ->.
      rewrite Hreg, Hid. unfold unregister.
      destruct (Z.eqb_spec (callbackIDCounter st) 0); [done|]. apply lookup_delete_eq.
    + destruct Hpc as (_ & _ & _ & _ & Htok0). rewrite Htok0 in Htoken.
      by apply elem_of_nil in Htoken.
Qed.

(** The first call of the scenario registered token 1; it is gone. *)
Lemma registry_cleanup_witness :
  callbackRegistry (snd (fst Scenario.first_call)) !! 1 = None.
Proof.
  apply (registry_cleanup Scenario.engine Scenario.env_ok "a.wav" "turbo" 4 ""
           (Some 1%N) (Some 2%N) Scenario.ready (snd (fst Scenario.first_call))
           (fst (fst Scenario.first_call)) (snd Scenario.first_call)).
  - discriminate.
  - vm_compute. reflexivity.
  - vm_compute. apply list_elem_of_here.
Defined.

(** ** Speakers *)

Lemma extract_follows_flags (segs : list NativeSegment) :
  Z.of_nat (length segs) <= GoInt.C_INT_MAX →
  follows_flags segs (extract_segments segs).
Proof.
  unfold GoInt.C_INT_MAX. intros Hlen. unfold extract_segments.
  assert (0 + Z.of_nat (length segs) < 2 ^ 63) as Hroom by lia.
  split_and!.
  - apply extract_loop_length.
  - intros s Hs. by apply extract_loop_head in Hs.
  - intros i s s' ns Hs Hs' Hns.
    rewrite (extract_loop_step segs (length segs) 0 0 i s s'); [|lia|done..].
    simpl. by rewrite (turn_next_lookup segs i ns).
Qed.

Lemma follows_flags_steps (segs : list NativeSegment) (L : list Segment) :
  follows_flags segs L → speaker_steps L.
Proof.
  intros (Hlen & Hhead & Hstep). split; [done|].
  intros i s s' Hs Hs'.
  assert (is_Some (segs !! i)) as [ns Hns].
  { apply lookup_lt_is_Some. rewrite <- Hlen. apply lookup_lt_Some in Hs'. lia. }
  rewrite (Hstep i s s' ns) by done.
  destruct (ns_speaker_turn_next ns); [by right|left; lia].
Qed.

(** C6.  The engine counts its segments in a C [int] and every list in the
    cache has speaker ids that start at 0 and step by 0 or 1.  Then the list
    a successful call returns has such speaker ids too, the cache keeps the
    property, and when the call went through [whisper_full] the list has one
    segment per native segment, the first with speaker 0, and the speaker
    grows by exactly one from segment [i] to segment [i+1] when the engine
    flagged a turn on segment [i] and stays the same otherwise. *)
Theorem speaker_monotonicity
    (e : WhisperCGOEngine) (env : CallEnv) (audioPath modelID : string) (cpuThreads : Z)
    (translateTo : string) (pc sc : option sink)
    (st st' : State) (L : list Segment) (tr : list Event) :
  (∀ c params samples,
      Z.of_nat (length (nr_segments (env_whisper_full env c params samples)))
      <= GoInt.C_INT_MAX) →
  cache_speakers_ok st →
  TranscribeWithTranslation e env audioPath modelID cpuThreads translateTo pc sc st
    = (Returned (Ok L), st', tr) →
  speaker_steps L
  ∧ cache_speakers_ok st'
  ∧ ∀ inv st1 tr0,
      transcribe_setup e env audioPath modelID cpuThreads translateTo pc sc st
        = SetupNative inv st1 tr0 →
      follows_flags (nr_segments (native_run env inv)) L.
Proof.
  intros Hint Hcache Hcall. unfold TranscribeWithTranslation in Hcall.
  destruct (transcribe_setup e env audioPath modelID cpuThreads translateTo pc sc st)
    as [c0 st0 tr0|inv st1 tr0] eqn:Hsetup.
  - injection Hcall as -> -> ->.
    destruct (setup_exit _ _ _ _ _ _ _ _ _ _ _ _ Hsetup) as (_ & _ & _ & _ & _ & _ & _ & Hok).
    destruct (Hok L eq_refl) as (_ & Hhit & ->).
    split_and!; [by eapply Hcache|done|done].
  - destruct (setup_native _ _ _ _ _ _ _ _ _ _ _ _ Hsetup)
      as (_ & _ & _ & _ & _ & Hseg & Htc & _).
    destruct (transcribe_finish audioPath modelID translateTo pc sc inv (native_run env inv) st1)
      as [[c1 st2] tr1] eqn:Hfin.
    injection Hcall as -> -> <-.
    destruct (finish_facts _ _ _ _ _ _ _ _ _ _ _ Hfin Hseg) as (_ & _ & _ & _ & _ & Hres).
    destruct (nr_status (native_run env inv) =? 0); destruct Hres as [[= ->] Hnew].
    pose proof (extract_follows_flags (nr_segments (native_run env inv)) (Hint _ _ _))
      as Hflags.
    split_and!.
    + by eapply follows_flags_steps.
    + intros k L' Hk. rewrite Hnew in Hk.
      destruct (String.eqb translateTo "").
      * destruct (decide (k = (audioPath, modelID))) as [->|Hne].
        -- rewrite lookup_insert_eq in Hk. injection Hk as <-.
           by eapply follows_flags_steps.
        -- rewrite lookup_insert_ne in Hk by done. rewrite Htc in Hk. by eapply Hcache.
      * rewrite Htc in Hk. by eapply Hcache.
    + intros inv' st1' tr0' [= <- <- <-]. done.
Qed.

(** The scenario's first call: three segments, speakers 0, 1, 1. *)
Lemma speaker_monotonicity_witness :
  speaker_steps Scenario.transcript
  ∧ cache_speakers_ok (snd (fst Scenario.first_call))
  ∧ ∀ inv st1 tr0,
      transcribe_setup Scenario.engine Scenario.env_ok "a.wav" "turbo" 4 ""
        (Some 1%N) (Some 2%N) Scenario.ready = SetupNative inv st1 tr0 →
      follows_flags (nr_segments (native_run Scenario.env_ok inv)) Scenario.transcript.
Proof.
  apply (speaker_monotonicity Scenario.engine Scenario.env_ok "a.wav" "turbo" 4 ""
           (Some 1%N) (Some 2%N) Scenario.ready (snd (fst Scenario.first_call))
           Scenario.transcript (snd Scenario.first_call)).
  - intros c params samples. vm_compute. discriminate.
  - intros k L Hk. vm_compute in Hk. discriminate Hk.
  - vm_compute. reflexivity.
Defined.

Example transcript_speakers : map Speaker Scenario.transcript = [0; 1; 1].
Proof. reflexivity. Qed.

(** ** Model cache *)

(** C3 does not hold as stated.  In the scenario the cache maps the
    model path to the handle at address 1; storing a second load of the same
    path puts the new handle, at address 2, in its place.  The same happens
    when two calls race from an empty cache: the call that stores last wins,
    and the two engines hold different handles. *)
Lemma store_replaces_existing_handle :
  (modelCache Scenario.ready !! Scenario.model_path = Some {| addr := 1; ctx := 4096 |}
   ∧ modelCache (snd (ModelCache.store_phase Scenario.model_path 8192 Scenario.ready))
       !! Scenario.model_path = Some {| addr := 2; ctx := 8192 |}
   ∧ modelCache (snd (ModelCache.store_phase Scenario.model_path 8192 Scenario.ready))
       !! Scenario.model_path ≠ modelCache Scenario.ready !! Scenario.model_path)
  ∧ (∃ eA eB st,
       ModelCache.race (Scenario.load_env 8192) (Scenario.load_env 4096)
         Scenario.model_path init_state = Some (eA, eB, st)
       ∧ model eB = Some {| addr := 1; ctx := 4096 |}
       ∧ model eA = Some {| addr := 2; ctx := 8192 |}
       ∧ modelCache st !! Scenario.model_path = Some {| addr := 2; ctx := 8192 |}).
Proof.
  split; [split_and!; [reflexivity..|discriminate]|].
  eexists _, _, _. split; [vm_compute; reflexivity|]. split_and!; reflexivity.
Qed.

(** C3, amended.  Storing a freshly loaded context always maps the path to
    the new handle: other paths keep their handles, a handle the path had
    before (allocated earlier, hence at a lower address) is replaced by a
    different one, and a later call for the path that finds the file gets
    the new handle from the cache. *)
Theorem store_phase_overwrites
    (modelPath : string) (c : N) (st st' : State) (e : WhisperCGOEngine) :
  ModelCache.store_phase modelPath c st = (e, st') →
  let h := {| addr := heap_next st; ctx := c |} in
  model e = Some h
  ∧ fromCache e = false
  ∧ modelCache st' !! modelPath = Some h
  ∧ (∀ q, q ≠ modelPath → modelCache st' !! q = modelCache st !! q)
  ∧ (∀ h0, modelCache st !! modelPath = Some h0 → (addr h0 < heap_next st)%N → h ≠ h0)
  ∧ (∀ env, modelPath ≠ "" → ModelCache.stat_not_exist env = false →
       ModelCache.NewWhisperCGOEngine env modelPath st'
       = (Ok {| model := Some h; modelPath := modelPath; fromCache := true |}, st')).
Proof.
  unfold ModelCache.store_phase, alloc. intros [= <- <-]. simpl. split_and!; try done.
  - apply lookup_insert_eq.
  - intros q Hq. by apply lookup_insert_ne.
  - intros h0 _ Hlt <-. simpl in Hlt. lia.
  - intros env Hpath%String.eqb_neq Hstat.
    unfold ModelCache.NewWhisperCGOEngine, ModelCache.lookup_phase.
    rewrite Hpath, Hstat. simpl. by rewrite lookup_insert_eq.
Qed.

Lemma store_phase_overwrites_witness :
  let h := {| addr := 2; ctx := 8192 |} in
  let stored := ModelCache.store_phase Scenario.model_path 8192 Scenario.ready in
  model (fst stored) = Some h
  ∧ fromCache (fst stored) = false
  ∧ modelCache (snd stored) !! Scenario.model_path = Some h
  ∧ (∀ q, q ≠ Scenario.model_path →
       modelCache (snd stored) !! q = modelCache Scenario.ready !! q)
  ∧ (∀ h0, modelCache Scenario.ready !! Scenario.model_path = Some h0 →
       (addr h0 < heap_next Scenario.ready)%N → h ≠ h0)
  ∧ (∀ env, Scenario.model_path ≠ "" → ModelCache.stat_not_exist env = false →
       ModelCache.NewWhisperCGOEngine env Scenario.model_path (snd stored)
       = (Ok {| model := Some h; modelPath := Scenario.model_path; fromCache := true |},
          snd stored)).
Proof.
  apply (store_phase_overwrites Scenario.model_path 8192 Scenario.ready). reflexivity.
Defined.

(** ** Calls running side by side *)

Import Sched.

Lemma advance_all_app a p tr1 tr2 :
  advance_all a p (tr1 ++ tr2) =
  match advance_all a p tr1 with
  | Some p' => advance_all a p' tr2
  | None => None
  end.
Proof.
  revert p. induction tr1 as [|ev tr1 IH]; intros p; simpl; [done|].
  destruct (advance a p ev); [apply IH|done].
Qed.

Lemma advance_all_unsynchronised a p tr :
  unsynchronised tr → advance_all a p tr = Some p.
Proof.
  induction 1 as [|ev tr Hev _ IH]; simpl; [done|].
  destruct ev, p; simpl; try done.
Qed.

Lemma quiet_unsynchronised tr : quiet tr → unsynchronised tr.
Proof. intros H. eapply Forall_impl; [exact H|]. by intros []. Qed.

Lemma unsynchronised_prepare env p pc r tr :
  prepareAudioFile env p pc = (r, tr) → unsynchronised tr.
Proof.
  unfold prepareAudioFile. intros H.
  repeat case_match; simplify_eq.
  all: repeat apply Forall_app_2; try apply quiet_unsynchronised, quiet_report.
  all: repeat constructor.
Qed.

Ltac walk :=
  repeat progress
    (simpl;
     rewrite ?N.eqb_refl, ?advance_all_app;
     rewrite ?(advance_all_unsynchronised _ _ _ (quiet_unsynchronised _ (quiet_report _ _))),
       ?(advance_all_unsynchronised _ _ _ (quiet_unsynchronised _ (quiet_deliver _ _)));
     repeat match goal with
            | H : unsynchronised ?l |- context [advance_all _ _ ?l] =>
                rewrite (advance_all_unsynchronised _ _ l H)
            end).

Lemma setup_disciplined e env p mid thr tl pc sc st :
  match transcribe_setup e env p mid thr tl pc sc st with
  | SetupExit _ _ tr => advance_all (mutex_of (model e)) Out tr = Some Out
  | SetupNative inv _ tr =>
      advance_all (mutex_of (model e)) Out tr = Some Held
      ∧ model e = Some (inv_model inv)
  end.
Proof.
  unfold transcribe_setup, run_deferred.
  repeat case_match; unfold alloc, register in *; simplify_eq.
  all: repeat match goal with
              | H : prepareAudioFile _ _ _ = _ |- _ => apply unsynchronised_prepare in H
              end.
  all: walk.
  all: try done.
Qed.

Lemma finish_disciplined p mid tl pc sc inv run st :
  advance_all (addr (inv_model inv)) Held
    (snd (transcribe_finish p mid tl pc sc inv run st)) = Some Out.
Proof.
  unfold transcribe_finish, run_deferred.
  match goal with |- context [run_events ?a ?b ?c ?d ?e] =>
    pose proof (quiet_unsynchronised _ (quiet_run_events a b c d e)) as Hq;
    destruct (run_events a b c d e) as [st1 tr_run] end.
  simpl in Hq.
  destruct (negb (nr_status run =? 0)); walk; done.
Qed.

(** Every call keeps the lock discipline with respect to its handle's mutex. *)
Lemma trace_disciplined (c : Call) :
  advance_all (mutex_of (model (c_engine c))) Out (trace_of c) = Some Out.
Proof.
  unfold trace_of, TranscribeWithTranslation.
  pose proof (setup_disciplined (c_engine c) (c_env c) (c_audioPath c) (c_modelID c)
                (c_cpuThreads c) (c_translateTo c) (c_progress c) (c_segment c) (c_state c))
    as Hs.
  destruct (transcribe_setup _ _ _ _ _ _ _ _ _) as [c0 st0 tr0|inv st1 tr0]; [done|].
  destruct Hs as [Hs Hm].
  pose proof (finish_disciplined (c_audioPath c) (c_modelID c) (c_translateTo c)
                (c_progress c) (c_segment c) inv (native_run (c_env c) inv) st1) as Hf.
  destruct (transcribe_finish _ _ _ _ _ _ _ _) as [[c1 st2] tr1]. simpl in *.
  rewrite advance_all_app, Hs, Hm. done.
Qed.

Lemma inv_initial calls : inv (initial calls).
Proof.
  split.
  - intros i t Ht. unfold initial in Ht. simpl in Ht.
    apply list_lookup_fmap_Some in Ht as (call & -> & _).
    exists Out. split_and!; [done| |done].
    simpl. rewrite trace_disciplined. by eexists.
  - intros a i Ha. simpl in Ha. by rewrite lookup_empty in Ha.
Qed.

(** What one step does to the thread that takes it. *)
Lemma step_thread_inv i c c' :
  step_thread i c = Some c' →
  ∃ t ev rest,
    pool c !! i = Some t ∧ th_todo t = ev :: rest
    ∧ pool c' = <[i := {| th_model := th_model t; th_done := th_done t ++ [ev];
                          th_todo := rest |}]> (pool c)
    ∧ match ev with
      | EvLock a => owner c !! a = None ∧ owner c' = <[a := i]> (owner c)
      | EvUnlock a => owner c' = delete a (owner c)
      | _ => owner c' = owner c
      end.
Proof.
  unfold step_thread. intros H.
  destruct (pool c !! i) as [t|]; [|done].
  destruct (th_todo t) as [|ev rest] eqn:Htodo; [done|].
  exists t, ev, rest. split_and!; try done.
  all: destruct ev; simplify_eq; try done.
  all: destruct (owner c !! mutex) eqn:Ho; simplify_eq; done.
Qed.

Lemma step_preserves_inv i c c' : inv c → step_thread i c = Some c' → inv c'.
Proof.
  unfold inv, position. intros [Hthreads Howner] Hstep.
  apply step_thread_inv in Hstep as (t & ev & rest & Ht & Htodo & Hpool & Hev).
  destruct (Hthreads i t Ht) as (p & Hp & [pend Hpend] & Hheld).
  remember (mutex_of (th_model t)) as a eqn:Ha.
  rewrite Htodo in Hpend. simpl in Hpend.
  destruct (advance a p ev) as [p'|] eqn:Hadv; [|done].
  set (t' := {| th_model := th_model t; th_done := th_done t ++ [ev]; th_todo := rest |}) in *.
  assert (advance_all a Out (th_done t ++ [ev]) = Some p') as Hp'.
  { rewrite advance_all_app, Hp. simpl. by rewrite Hadv. }
  assert (i < length (pool c))%nat as Hi by by eapply lookup_lt_Some.
  assert (∀ j tj, j ≠ i → pool c' !! j = Some tj ↔ pool c !! j = Some tj) as Hother.
  { intros j tj Hj. rewrite Hpool. by rewrite list_lookup_insert_ne. }
  assert (pool c' !! i = Some t') as Ht'.
  { rewrite Hpool. by apply list_lookup_insert_eq. }
  (* what the thread [i] itself holds *)
  assert (∀ a0, owner c !! a0 = Some i → a0 = a ∧ p ≠ Out) as Hmine.
  { intros a0 Ha0. destruct (Howner a0 i Ha0) as (t0 & p0 & Ht0 & Hm0 & Hp0 & Hne0).
    rewrite Ht in Ht0. injection Ht0 as <-. rewrite <- Ha in Hm0, Hp0.
    rewrite Hp in Hp0. injection Hp0 as <-. done. }
  split.
  - intros j tj Htj. destruct (decide (j = i)) as [->|Hj].
    + rewrite Ht' in Htj. injection Htj as <-. exists p'.
      split; [simpl; by rewrite <- Ha|]. split; [exists pend; simpl; by rewrite <- Ha|].
      simpl. rewrite <- Ha. intros Hp'ne.
      destruct ev, p; simpl in Hadv; simplify_eq; try done.
      all: try (rewrite Hev; apply Hheld; done).
      * destruct Hev as [_ ->]. destruct (N.eqb_spec mutex (mutex_of (th_model t))) as [Heq|];
          [|done].
        rewrite Heq. apply lookup_insert_eq.
      * destruct (mutex =? mutex_of (th_model t))%N; by simplify_eq.
    + apply Hother in Htj; [|done].
      destruct (Hthreads j tj Htj) as (pj & Hpj & Hpendj & Hheldj).
      exists pj. split; [done|]. split; [done|]. intros Hne. specialize (Hheldj Hne).
      destruct ev; try (by rewrite Hev).
      * destruct Hev as [Hfree ->]. rewrite lookup_insert_ne; [done|].
        intros Heq. rewrite <- Heq in Hheldj. congruence.
      * rewrite Hev. rewrite lookup_delete_ne; [done|].
        intros Heq. rewrite <- Heq in Hheldj. destruct p; simpl in Hadv; try done.
        destruct (N.eqb_spec mutex a) as [Heq'|]; [|done].
        rewrite Heq' in Hheldj. rewrite Hheld in Hheldj by done. congruence.
  - intros a' k Hk.
    destruct (decide (k = i)) as [->|Hne].
    + exists t', p'. split; [done|]. simpl. rewrite <- Ha.
      destruct ev.
      3:{ destruct Hev as [Hfree Hev]. rewrite Hev in Hk.
          destruct p; simpl in Hadv; try done.
          destruct (N.eqb_spec mutex a) as [Heq|]; [|done]. injection Hadv as <-.
          rewrite Heq in Hk.
          destruct (decide (a' = a)) as [->|Hne]; [done|].
          rewrite lookup_insert_ne in Hk by done.
          destruct (Hmine a' Hk) as [-> _]. done. }
      3:{ rewrite Hev in Hk. destruct p; simpl in Hadv; try done.
          destruct (N.eqb_spec mutex a) as [Heq|]; [|done]. rewrite Heq in Hk.
          destruct (decide (a' = a)) as [->|Hne]; [by rewrite lookup_delete_eq in Hk|].
          rewrite lookup_delete_ne in Hk by done.
          destruct (Hmine a' Hk) as [-> _]. done. }
      all: rewrite Hev in Hk; destruct (Hmine a' Hk) as [-> Hpne].
      all: split; [done|]; split; [done|].
      all: destruct p; simpl in Hadv; simplify_eq; done.
    + assert (owner c !! a' = Some k) as Hk0.
      { destruct ev; try (by rewrite Hev in Hk).
        - destruct Hev as [_ Hev]. rewrite Hev in Hk.
          destruct (decide (a' = mutex)) as [->|Hnm].
          + rewrite lookup_insert_eq in Hk. congruence.
          + by rewrite lookup_insert_ne in Hk.
        - rewrite Hev in Hk.
          destruct (decide (a' = mutex)) as [->|Hnm].
          + by rewrite lookup_delete_eq in Hk.
          + by rewrite lookup_delete_ne in Hk. }
      destruct (Howner a' k Hk0) as (t0 & p0 & Ht0 & Hm0 & Hp0 & Hne0).
      exists t0, p0. split_and!; try done. by apply Hother.
Qed.

Lemma inv_reachable calls c : reachable calls c → inv c.
Proof.
  unfold reachable. intros Hreach.
  eapply (rtc_ind_r (λ c, inv c)); [apply inv_initial| |exact Hreach].
  intros c1 c2 _ [i Hstep] IH. by eapply step_preserves_inv.
Qed.

(** A thread that keeps the discipline is inside the native call only at
    the position of that name. *)
Lemma in_native_position a done p0 p b :
  advance_all a p0 done = Some p →
  (b = true → p0 = InNative) →
  fold_left (fun b ev => match ev with
                         | EvWhisperFull _ _ _ => true
                         | EvWhisperFullReturn _ => false
                         | _ => b
                         end) done b = true →
  p = InNative.
Proof.
  revert p0 b. induction done as [|ev done IH]; intros p0 b; simpl.
  - intros [= <-] Hb Hfold. by apply Hb.
  - destruct (advance a p0 ev) as [p1|] eqn:Hadv; [|done].
    intros Hrest Hb. apply (IH p1); [done|].
    destruct ev, p0; simpl in Hadv; simplify_eq; try done.
    all: try (intros Hb'; by specialize (Hb Hb')).
    all: try (destruct (_ =? _)%N; simplify_eq; intros Hb'; by specialize (Hb Hb')).
Qed.

Lemma running_native_owner calls c i m :
  reachable calls c → running_native c i m → owner c !! addr m = Some i.
Proof.
  intros [Hthreads _]%inv_reachable (t & Ht & Hm & Hin).
  destruct (Hthreads i t Ht) as (p & Hp & _ & Hheld).
  unfold position in Hp. rewrite Hm in Hp, Hheld. simpl in *. apply Hheld.
  unfold in_native in Hin.
  rewrite (in_native_position _ _ _ _ _ Hp (λ H, False_ind _ (Bool.diff_false_true H)) Hin).
  done.
Qed.

(** C2.  In every configuration that some interleaving of the calls reaches:
    two threads inside [whisper_full] on handles with the same address are
    one thread; a thread inside [whisper_full] owns the mutex of its handle;
    a thread whose next event is the [Lock] of a mutex that is owned cannot
    move; and no move of another thread takes a mutex from its owner. *)
Theorem native_calls_exclusive (calls : list Call) (c : config) :
  reachable calls c →
  (∀ i j m m', running_native c i m → running_native c j m' → addr m = addr m' → i = j)
  ∧ (∀ i m, running_native c i m → owner c !! addr m = Some i)
  ∧ (∀ i j a t rest, owner c !! a = Some i → pool c !! j = Some t →
       th_todo t = EvLock a :: rest → step_thread j c = None)
  ∧ (∀ i k a c', owner c !! a = Some i → k ≠ i → step_thread k c = Some c' →
       owner c' !! a = Some i).
Proof.
  intros Hreach. split_and!.
  - intros i j m m' Hi Hj Haddr.
    pose proof (running_native_owner calls c i m Hreach Hi) as Hoi.
    pose proof (running_native_owner calls c j m' Hreach Hj) as Hoj.
    rewrite Haddr in Hoi. congruence.
  - intros i m. by apply (running_native_owner calls).
  - intros i j a t rest Ha Ht Htodo. unfold step_thread. by rewrite Ht, Htodo, Ha.
  - intros i k a c' Ha Hk Hstep.
    pose proof (inv_reachable _ _ Hreach) as [Hthreads Howner].
    apply step_thread_inv in Hstep as (t & ev & rest & Ht & Htodo & Hpool & Hev).
    destruct ev; try (by rewrite Hev).
    + destruct Hev as [Hfree ->]. rewrite lookup_insert_ne; [done|]. intros ->. congruence.
    + rewrite Hev. rewrite lookup_delete_ne; [done|]. intros ->.
      (* [k] would be unlocking a mutex it does not hold *)
      destruct (Hthreads k t Ht) as (p & Hp & [pend Hpend] & Hheld).
      rewrite Htodo in Hpend. simpl in Hpend.
      destruct p; simpl in Hpend; try done.
      destruct (N.eqb_spec a (mutex_of (th_model t))) as [Heq|]; [|done].
      rewrite <- Heq in Hheld. rewrite Hheld in Ha by done. congruence.
Qed.

(** In the scenario the first call is inside [whisper_full] after seven
    moves and owns the mutex at address 1; the second call cannot move. *)
Lemma native_calls_exclusive_witness :
  (∀ i j m m', running_native Scenario.contended i m →
               running_native Scenario.contended j m' → addr m = addr m' → i = j)
  ∧ (∀ i m, running_native Scenario.contended i m →
            owner Scenario.contended !! addr m = Some i)
  ∧ (∀ i j a t rest, owner Scenario.contended !! a = Some i →
       pool Scenario.contended !! j = Some t →
       th_todo t = EvLock a :: rest → step_thread j Scenario.contended = None)
  ∧ (∀ i k a c', owner Scenario.contended !! a = Some i → k ≠ i →
       step_thread k Scenario.contended = Some c' → owner c' !! a = Some i).
Proof.
  apply (native_calls_exclusive [Scenario.call_a; Scenario.call_b] Scenario.contended).
  unfold reachable.
  do 7 (eapply rtc_l; [exists 0%nat; vm_compute; reflexivity|]).
  vm_compute. apply rtc_refl.
Defined.

Example first_call_running :
  running_native Scenario.contended 0 {| addr := 1; ctx := 4096 |}
  ∧ owner Scenario.contended !! 1%N = Some 0%nat
  ∧ step_thread 1 Scenario.contended = None.
Proof.
  split_and!; [|reflexivity..].
  eexists. split; [vm_compute; reflexivity|]. split; reflexivity.
Qed.

(** Once the first call is over the second one takes the mutex. *)
Example second_call_proceeds :
  let later := run_schedule (replicate 30 0%nat) Scenario.contended in
  owner later = ∅
  ∧ owner (run_schedule [1%nat] later) !! 1%N = Some 1%nat.
Proof. split; reflexivity. Qed.

Lemma run_schedule_reachable (calls : list Call) (sched : list nat) (c : config) :
  reachable calls c → reachable calls (run_schedule sched c).
Proof.
  revert c. induction sched as [|i sched IH]; intros c Hc; simpl; [done|].
  apply IH. destruct (step_thread i c) as [c'|] eqn:Hstep; [|done].
  eapply rtc_r; [exact Hc|]. by exists i.
Qed.

(** * Further properties

    The remaining paths of [TranscribeWithTranslation], the exported
    handlers, the rest of the engine's interface, calls that run side by
    side, the translator, and the lookup of model files. *)

Import Observe Lifecycle Utf8Spec Liveness.

(** ** What a call of TranscribeWithTranslation does, event by event *)

Lemma filter_quiet (f : Event → bool) tr :
  (∀ to msg, f (EvProgress to msg) = false) →
  (∀ to seg, f (EvSegment to seg) = false) →
  quiet tr → List.filter f tr = [].
Proof.
  intros Hp Hs. induction 1 as [|ev tr Hev _ IH]; [done|].
  simpl. destruct ev; try done; by rewrite ?Hp, ?Hs.
Qed.

Lemma filter_report (f : Event → bool) pc msg :
  (∀ to m, f (EvProgress to m) = false) → List.filter f (report pc msg) = [].
Proof. intros Hp. destruct pc; simpl; by rewrite ?Hp. Qed.

Lemma filter_run_events_progress (f : Event → bool) params poller evs last st :
  (∀ to m, f (EvProgress to m) = false) →
  new_segment_callback params = false →
  List.filter f (snd (run_events params poller evs last st)) = [].
Proof.
  intros Hp Hseg. revert last st.
  induction evs as [|ev evs IH]; intros last st; simpl; [done|].
  destruct ev as [p|segs|].
  - apply IH.
  - rewrite Hseg. specialize (IH last st).
    destruct (run_events params poller evs last st). done.
  - destruct poller as [[to cell]|]; [|apply IH].
    destruct (poll_tick last (load_cell cell st)) as [last' out].
    specialize (IH last' st). destruct (run_events _ _ evs last' st). simpl in *.
    rewrite List.filter_app, IH. destruct out; simpl; by rewrite ?Hp.
Qed.

Ltac project Hp :=
  repeat progress
    (simpl;
     rewrite ?List.filter_app;
     rewrite ?(filter_report _ _ _ Hp);
     simpl).

(** The mutex and the native engine, as the setup and the rest of a call
    use them. *)
Lemma setup_sync e env p mid thr tl pc sc st :
  match transcribe_setup e env p mid thr tl pc sc st with
  | SetupExit _ _ tr =>
      sync_events tr = []
      ∨ ∃ m, model e = Some m ∧ sync_events tr = [EvLock (addr m); EvUnlock (addr m)]
  | SetupNative inv _ tr =>
      model e = Some (inv_model inv) ∧ sync_events tr = [EvLock (addr (inv_model inv))]
  end.
Proof.
  assert (∀ to m, is_sync (EvProgress to m) = false) as Hp by done.
  unfold transcribe_setup, run_deferred, prepareAudioFile, sync_events.
  repeat case_match; unfold alloc, register in *; simplify_eq.
  all: rewrite ?List.filter_app.
  all: rewrite ?(filter_quiet is_sync _ ltac:(done) ltac:(done) (quiet_deliver _ _)).
  all: project Hp.
  all: first [ by left
             | by (right; eexists; split; [done|]; project Hp)
             | by (split; [done|]; project Hp) ].
Qed.

Lemma finish_sync p mid tl pc sc inv run st :
  new_segment_callback (inv_params inv) = false →
  sync_events (snd (transcribe_finish p mid tl pc sc inv run st))
  = [EvWhisperFull (ctx (inv_model inv)) (inv_params inv) (inv_samples inv);
     EvWhisperFullReturn (nr_status run); EvUnlock (addr (inv_model inv))].
Proof.
  assert (∀ to m, is_sync (EvProgress to m) = false) as Hp by done.
  intros Hseg. unfold transcribe_finish, run_deferred, sync_events.
  match goal with |- context [run_events ?a ?b ?c ?d ?e] =>
    pose proof (filter_run_events_progress is_sync a b c d e Hp Hseg) as Hrun;
    destruct (run_events a b c d e) as [st1 tr_run] end.
  simpl in Hrun.
  destruct (negb (nr_status run =? 0)); simpl; rewrite ?List.filter_app, ?Hrun.
  all: rewrite ?(filter_quiet is_sync _ ltac:(done) ltac:(done) (quiet_deliver _ _)).
  all: project Hp; done.
Qed.

(** X1.  Whatever a call of [TranscribeWithTranslation] meets, what it does to
    the mutex of its handle and to the native engine is one of three things:
    nothing; a [Lock] and an [Unlock] of that mutex; or the [Lock], one call
    of [whisper_full] on the handle's context, its return, and the
    [Unlock], in that order. *)
Theorem lock_and_native_call_shape
    (e : WhisperCGOEngine) (env : CallEnv) (audioPath modelID : string) (cpuThreads : Z)
    (translateTo : string) (pc sc : option sink) (st : State) :
  let tr := snd (TranscribeWithTranslation e env audioPath modelID cpuThreads translateTo
                   pc sc st) in
  sync_events tr = []
  ∨ ∃ m, model e = Some m
         ∧ (sync_events tr = [EvLock (addr m); EvUnlock (addr m)]
            ∨ ∃ params samples status,
                sync_events tr = [EvLock (addr m); EvWhisperFull (ctx m) params samples;
                                  EvWhisperFullReturn status; EvUnlock (addr m)]).
Proof.
  unfold TranscribeWithTranslation.
  pose proof (setup_sync e env audioPath modelID cpuThreads translateTo pc sc st) as Hs.
  destruct (transcribe_setup e env audioPath modelID cpuThreads translateTo pc sc st)
    as [c0 st0 tr0|inv st1 tr0] eqn:Hsetup; simpl.
  - destruct Hs as [?|(m & ? & ?)]; [by left|]. right. exists m. split; [done|]. by left.
  - destruct Hs as [Hm Hs].
    destruct (setup_native _ _ _ _ _ _ _ _ _ _ _ _ Hsetup)
      as (_ & _ & _ & _ & _ & Hseg & _).
    pose proof (finish_sync audioPath modelID translateTo pc sc inv (native_run env inv) st1 Hseg)
      as Hf.
    destruct (transcribe_finish _ _ _ _ _ _ _ _) as [[c1 st2] tr1]. simpl in *.
    right. exists (inv_model inv). split; [done|]. right.
    eexists _, _, _. unfold sync_events in *. rewrite List.filter_app, Hs, Hf. done.
Qed.

(** The converted file. *)
Lemma setup_files e env p mid thr tl pc sc st :
  match transcribe_setup e env p mid thr tl pc sc st with
  | SetupExit _ _ tr =>
      file_events tr = []
      ∨ ∃ t, env_createTemp env = Ok t ∧ file_events tr = [EvConvert p t; EvRemove t]
  | SetupNative inv _ tr =>
      env_createTemp env = Ok (inv_tempWav inv)
      ∧ file_events tr = [EvConvert p (inv_tempWav inv)]
  end.
Proof.
  assert (∀ to m, is_file (EvProgress to m) = false) as Hp by done.
  unfold transcribe_setup, run_deferred, prepareAudioFile, file_events.
  repeat case_match; unfold alloc, register in *; simplify_eq.
  all: rewrite ?List.filter_app.
  all: rewrite ?(filter_quiet is_file _ ltac:(done) ltac:(done) (quiet_deliver _ _)).
  all: project Hp.
  all: first [ by left | by (right; eexists) | done ].
Qed.

Lemma finish_files p mid tl pc sc inv run st :
  new_segment_callback (inv_params inv) = false →
  file_events (snd (transcribe_finish p mid tl pc sc inv run st))
  = [EvRemove (inv_tempWav inv)].
Proof.
  assert (∀ to m, is_file (EvProgress to m) = false) as Hp by done.
  intros Hseg. unfold transcribe_finish, run_deferred, file_events.
  match goal with |- context [run_events ?a ?b ?c ?d ?e] =>
    pose proof (filter_run_events_progress is_file a b c d e Hp Hseg) as Hrun;
    destruct (run_events a b c d e) as [st1 tr_run] end.
  simpl in Hrun.
  destruct (negb (nr_status run =? 0)); simpl; rewrite ?List.filter_app, ?Hrun.
  all: rewrite ?(filter_quiet is_file _ ltac:(done) ltac:(done) (quiet_deliver _ _)).
  all: project Hp; done.
Qed.

(** X2.  The converted file does not outlive the call.  Either the call touches
    no file, or it converts the audio into the file [os.CreateTemp] named
    and removes that file afterwards, and these are its only file events. *)
Theorem temp_file_removed
    (e : WhisperCGOEngine) (env : CallEnv) (audioPath modelID : string) (cpuThreads : Z)
    (translateTo : string) (pc sc : option sink) (st : State) :
  let tr := snd (TranscribeWithTranslation e env audioPath modelID cpuThreads translateTo
                   pc sc st) in
  file_events tr = []
  ∨ ∃ tempPath,
      env_createTemp env = Ok tempPath
      ∧ file_events tr = [EvConvert audioPath tempPath; EvRemove tempPath].
Proof.
  unfold TranscribeWithTranslation.
  pose proof (setup_files e env audioPath modelID cpuThreads translateTo pc sc st) as Hs.
  destruct (transcribe_setup e env audioPath modelID cpuThreads translateTo pc sc st)
    as [c0 st0 tr0|inv st1 tr0] eqn:Hsetup; simpl; [done|].
  destruct Hs as [Htemp Hs].
  destruct (setup_native _ _ _ _ _ _ _ _ _ _ _ _ Hsetup)
    as (_ & _ & _ & _ & _ & Hseg & _).
  pose proof (finish_files audioPath modelID translateTo pc sc inv (native_run env inv) st1 Hseg)
    as Hf.
  destruct (transcribe_finish _ _ _ _ _ _ _ _) as [[c1 st2] tr1]. simpl in *.
  right. exists (inv_tempWav inv). split; [done|].
  unfold file_events in *. by rewrite List.filter_app, Hs, Hf.
Qed.

Lemma segment_events_deliver sc L :
  segment_events (deliver sc L) = expected_segments (Returned (Ok L)) sc.
Proof.
  destruct sc as [to|]; simpl; [|done].
  unfold segment_events. induction L as [|s L IH]; simpl; [done|]. by rewrite IH.
Qed.

Lemma setup_segments e env p mid thr tl pc sc st :
  match transcribe_setup e env p mid thr tl pc sc st with
  | SetupExit c _ tr => segment_events tr = expected_segments c sc
  | SetupNative _ _ tr => segment_events tr = []
  end.
Proof.
  assert (∀ to m, is_segment (EvProgress to m) = false) as Hp by done.
  unfold transcribe_setup, run_deferred, prepareAudioFile.
  repeat case_match; unfold alloc, register in *; simplify_eq.
  all: unfold segment_events; rewrite ?List.filter_app.
  all: repeat match goal with
              | |- context [List.filter is_segment (deliver ?a ?b)] =>
                  change (List.filter is_segment (deliver a b))
                    with (segment_events (deliver a b));
                  rewrite (segment_events_deliver a b)
              end.
  all: project Hp.
  all: rewrite ?app_nil_r; try done.
  all: by destruct sc.
Qed.

Lemma finish_segments p mid tl pc sc inv run st :
  new_segment_callback (inv_params inv) = false →
  segment_events (snd (transcribe_finish p mid tl pc sc inv run st))
  = expected_segments (fst (fst (transcribe_finish p mid tl pc sc inv run st))) sc.
Proof.
  assert (∀ to m, is_segment (EvProgress to m) = false) as Hp by done.
  intros Hseg. unfold transcribe_finish, run_deferred.
  match goal with |- context [run_events ?a ?b ?c ?d ?e] =>
    pose proof (filter_run_events_progress is_segment a b c d e Hp Hseg) as Hrun;
    destruct (run_events a b c d e) as [st1 tr_run] end.
  simpl in Hrun.
  destruct (negb (nr_status run =? 0)); unfold segment_events; simpl;
    rewrite ?List.filter_app, ?Hrun.
  - project Hp. by destruct sc.
  - match goal with |- context [List.filter is_segment (deliver ?a ?b)] =>
      change (List.filter is_segment (deliver a b)) with (segment_events (deliver a b));
      rewrite (segment_events_deliver a b) end.
    project Hp. by rewrite app_nil_r.
Qed.

(** X3.  The segment sink sees exactly what the call returns: the segments of
    the returned list, each once and in order, when the call succeeds, and
    nothing when it fails or panics; without a sink nothing is delivered. *)
Theorem segment_sink_receives_result
    (e : WhisperCGOEngine) (env : CallEnv) (audioPath modelID : string) (cpuThreads : Z)
    (translateTo : string) (pc sc : option sink)
    (st st' : State) (c : completion) (tr : list Event) :
  TranscribeWithTranslation e env audioPath modelID cpuThreads translateTo pc sc st
    = (c, st', tr) →
  segment_events tr = expected_segments c sc.
Proof.
  unfold TranscribeWithTranslation.
  pose proof (setup_segments e env audioPath modelID cpuThreads translateTo pc sc st) as Hs.
  destruct (transcribe_setup e env audioPath modelID cpuThreads translateTo pc sc st)
    as [c0 st0 tr0|inv st1 tr0] eqn:Hsetup.
  - by intros [= <- <- <-].
  - destruct (setup_native _ _ _ _ _ _ _ _ _ _ _ _ Hsetup)
      as (_ & _ & _ & _ & _ & Hseg & _).
    pose proof (finish_segments audioPath modelID translateTo pc sc inv (native_run env inv)
                  st1 Hseg) as Hf.
    destruct (transcribe_finish _ _ _ _ _ _ _ _) as [[c1 st2] tr1]. simpl in *.
    intros [= <- <- <-]. unfold segment_events in *. by rewrite List.filter_app, Hs, Hf.
Qed.

(** X4.  A call never changes the model cache, and it changes the transcription
    cache in one case only: it succeeds with no translation target, and
    then the list it returns is stored under (audio path, model id).  A
    failed or panicking call, and a call with a translation target, leave
    the transcription cache as it was. *)
Theorem cache_written_only_on_success
    (e : WhisperCGOEngine) (env : CallEnv) (audioPath modelID : string) (cpuThreads : Z)
    (translateTo : string) (pc sc : option sink)
    (st st' : State) (c : completion) (tr : list Event) :
  TranscribeWithTranslation e env audioPath modelID cpuThreads translateTo pc sc st
    = (c, st', tr) →
  modelCache st' = modelCache st
  ∧ transcriptionCache st' =
      match c with
      | Returned (Ok L) =>
          if String.eqb translateTo ""
          then <[(audioPath, modelID) := L]> (transcriptionCache st)
          else transcriptionCache st
      | _ => transcriptionCache st
      end.
Proof.
  unfold TranscribeWithTranslation.
  destruct (transcribe_setup e env audioPath modelID cpuThreads translateTo pc sc st)
    as [c0 st0 tr0|inv st1 tr0] eqn:Hsetup.
  - intros [= <- <- <-].
    destruct (setup_exit _ _ _ _ _ _ _ _ _ _ _ _ Hsetup)
      as (Htc & Hmc & _ & _ & _ & _ & _ & Hok).
    split; [done|]. destruct c0 as [[L|msg]|msg]; try done.
    destruct (Hok L eq_refl) as (-> & Hhit & ->). simpl. by rewrite insert_id.
  - destruct (setup_native _ _ _ _ _ _ _ _ _ _ _ _ Hsetup)
      as (_ & _ & _ & _ & _ & Hseg & Htc & Hmc & _).
    destruct (transcribe_finish audioPath modelID translateTo pc sc inv (native_run env inv) st1)
      as [[c1 st2] tr1] eqn:Hfin.
    intros [= <- <- <-].
    destruct (finish_facts _ _ _ _ _ _ _ _ _ _ _ Hfin Hseg) as (Hmc2 & _ & _ & _ & _ & Hres).
    split; [congruence|].
    destruct (nr_status (native_run env inv) =? 0); destruct Hres as [-> ->];
      rewrite Htc; done.
Qed.

Lemma setup_parameters e env p mid thr tl pc sc st inv st1 tr :
  transcribe_setup e env p mid thr tl pc sc st = SetupNative inv st1 tr →
  language (inv_params inv) = "he"
  ∧ translate (inv_params inv) = String.eqb tl "en"
  ∧ tdrz_enable (inv_params inv) = true
  ∧ n_threads (inv_params inv) = GoInt.c_int thr
  ∧ progress_callback (inv_params inv) = supplied pc
  ∧ ∃ pcm, Wav.readWAVFile (env_readFile env) = Ok (pcm, 16000)
           ∧ inv_samples inv = samples_of pcm.
Proof.
  unfold transcribe_setup. intros H.
  repeat case_match; unfold alloc, register in *; simplify_eq.
  all: simpl; split_and!; try done.
  all: match goal with H : negb (?z =? 16000) = false |- _ =>
         apply negb_false_iff, Z.eqb_eq in H; subst z end.
  all: by eexists.
Qed.

(** X5.  Every call of [whisper_full] a transcription issues is on the context
    of the engine's handle, with language "he", translation on exactly when
    the target is "en", tinydiarize on, the thread count narrowed to a C
    [int], no new-segment callback, the progress callback installed exactly
    when the caller supplied a progress sink, and a buffer that is not
    empty and is the conversion of the PCM bytes of a 16000 Hz file. *)
Theorem engine_parameters
    (e : WhisperCGOEngine) (env : CallEnv) (audioPath modelID : string) (cpuThreads : Z)
    (translateTo : string) (pc sc : option sink) (st : State)
    (c : N) (params : whisper_full_params) (samples : list float) :
  EvWhisperFull c params samples
    ∈ snd (TranscribeWithTranslation e env audioPath modelID cpuThreads translateTo pc sc st) →
  (∃ m, model e = Some m ∧ c = ctx m)
  ∧ language params = "he"
  ∧ translate params = String.eqb translateTo "en"
  ∧ tdrz_enable params = true
  ∧ n_threads params = GoInt.c_int cpuThreads
  ∧ new_segment_callback params = false
  ∧ progress_callback params = supplied pc
  ∧ samples ≠ []
  ∧ ∃ pcm, Wav.readWAVFile (env_readFile env) = Ok (pcm, 16000)
           ∧ samples = samples_of pcm.
Proof.
  intros Hin.
  assert (EvWhisperFull c params samples
            ∈ native_calls (snd (TranscribeWithTranslation e env audioPath modelID cpuThreads
                                   translateTo pc sc st))) as Hcall.
  { unfold native_calls. apply list_elem_of_In, filter_In. split; [|done].
    by apply list_elem_of_In. }
  clear Hin. unfold TranscribeWithTranslation in Hcall.
  destruct (transcribe_setup e env audioPath modelID cpuThreads translateTo pc sc st)
    as [c0 st0 tr0|inv st1 tr0] eqn:Hsetup.
  - destruct (setup_exit _ _ _ _ _ _ _ _ _ _ _ _ Hsetup) as (_ & _ & Hnone & _).
    simpl in Hcall. rewrite Hnone in Hcall. by apply elem_of_nil in Hcall.
  - destruct (setup_native _ _ _ _ _ _ _ _ _ _ _ _ Hsetup)
      as (Hm & _ & _ & _ & Hsamples & Hseg & _ & _ & _ & Hnone & _).
    destruct (setup_parameters _ _ _ _ _ _ _ _ _ _ _ _ Hsetup)
      as (Hlang & Htr & Htdrz & Hthr & Hpcb & Hpcm).
    destruct (transcribe_finish audioPath modelID translateTo pc sc inv (native_run env inv) st1)
      as [[c1 st2] tr1] eqn:Hfin.
    destruct (finish_facts _ _ _ _ _ _ _ _ _ _ _ Hfin Hseg) as (_ & _ & _ & _ & Hone & _).
    simpl in Hcall. rewrite native_calls_app, Hnone, Hone in Hcall.
    apply list_elem_of_singleton in Hcall. injection Hcall as -> -> ->.
    split_and!; try done. by exists (inv_model inv).
Qed.

Lemma segment_sink_receives_result_witness :
  segment_events (snd Scenario.first_call)
  = expected_segments (fst (fst Scenario.first_call)) (Some 2%N).
Proof.
  apply (segment_sink_receives_result Scenario.engine Scenario.env_ok "a.wav" "turbo" 4 ""
           (Some 1%N) (Some 2%N) Scenario.ready (snd (fst Scenario.first_call))).
  vm_compute. reflexivity.
Defined.

Lemma cache_written_only_on_success_witness :
  modelCache (snd (fst Scenario.first_call)) = modelCache Scenario.ready
  ∧ transcriptionCache (snd (fst Scenario.first_call)) =
      match fst (fst Scenario.first_call) with
      | Returned (Ok L) =>
          if String.eqb "" ""
          then <[("a.wav", "turbo") := L]> (transcriptionCache Scenario.ready)
          else transcriptionCache Scenario.ready
      | _ => transcriptionCache Scenario.ready
      end.
Proof.
  apply (cache_written_only_on_success Scenario.engine Scenario.env_ok "a.wav" "turbo" 4 ""
           (Some 1%N) (Some 2%N) Scenario.ready _ _ (snd Scenario.first_call)).
  vm_compute. reflexivity.
Defined.

Lemma engine_parameters_witness :
  ∃ params samples,
    EvWhisperFull 4096 params samples ∈ snd Scenario.first_call
    ∧ language params = "he" ∧ translate params = false ∧ n_threads params = 4
    ∧ progress_callback params = true ∧ samples ≠ [].
Proof.
  eassert (EvWhisperFull 4096 _ _ ∈ snd Scenario.first_call) as Hin.
  { eapply (list_elem_of_lookup_2 _ 6). vm_compute. reflexivity. }
  destruct (engine_parameters Scenario.engine Scenario.env_ok "a.wav" "turbo" 4 ""
              (Some 1%N) (Some 2%N) Scenario.ready _ _ _ Hin)
    as (_ & Hlang & Htr & _ & Hthr & _ & Hpc & Hne & _).
  eexists _, _. split; [exact Hin|]. split_and!; [exact Hlang|exact Htr|exact Hthr|exact Hpc|exact Hne].
Defined.

(** ** The panic on a recording without a sample *)

Lemma samples_of_nil (pcm : list byte) : samples_of pcm = [] ↔ (length pcm < 2)%nat.
Proof.
  unfold samples_of. split.
  - intros H. apply (f_equal length) in H. rewrite length_map, length_seq in H.
    change (length (@nil float)) with 0%nat in H.
    destruct (decide (length pcm < 2)%nat) as [?|Hge]; [done|].
    assert (1 ≤ length pcm / 2)%nat; [|lia].
    apply Nat.div_le_lower_bound; lia.
  - intros H. rewrite Nat.div_small by done. done.
Qed.

(** The setup of a call ends in a panic exactly on a buffer without a
    sample. *)
Lemma setup_panics e env p mid thr tl pc sc st :
  match transcribe_setup e env p mid thr tl pc sc st with
  | SetupExit (Panicked msg) _ _ =>
      msg = "runtime error: index out of range [0] with length 0"
      ∧ initialised e
      ∧ (tl = "" → transcriptionCache st !! (p, mid) = None)
      ∧ (∃ t, env_createTemp env = Ok t) ∧ env_ffmpeg env = None
      ∧ ∃ pcm, Wav.readWAVFile (env_readFile env) = Ok (pcm, 16000) ∧ (length pcm < 2)%nat
  | _ =>
      ¬ (initialised e
         ∧ (tl = "" → transcriptionCache st !! (p, mid) = None)
         ∧ (∃ t, env_createTemp env = Ok t) ∧ env_ffmpeg env = None
         ∧ ∃ pcm, Wav.readWAVFile (env_readFile env) = Ok (pcm, 16000)
                  ∧ (length pcm < 2)%nat)
  end.
Proof.
  unfold transcribe_setup, initialised.
  destruct (model e) as [m|] eqn:Hm.
  2:{ by intros [(m & ? & _) _]. }
  destruct (N.eqb_spec (ctx m) 0) as [H0|H0].
  { intros [(m' & [= <-] & ?) _]. done. }
  destruct (String.eqb_spec tl "") as [->|Htl].
  - destruct (transcriptionCache st !! (p, mid)) as [L|] eqn:Hhit.
    { intros (_ & Hmiss & _). by specialize (Hmiss eq_refl). }
    unfold prepareAudioFile.
    destruct (env_createTemp env) as [t|err] eqn:Htemp.
    2:{ intros (_ & _ & [t ?] & _). done. }
    destruct (env_ffmpeg env) as [err|] eqn:Hff.
    { intros (_ & _ & _ & ? & _). done. }
    destruct (Wav.readWAVFile (env_readFile env)) as [[pcm rate]|err] eqn:Hwav.
    2:{ intros (_ & _ & _ & _ & pcm & ? & _). done. }
    destruct (Z.eqb_spec rate 16000) as [->|Hrate]; simpl.
    2:{ intros (_ & _ & _ & _ & pcm' & [= _ ?] & _). done. }
    unfold alloc. simpl.
    destruct (samples_of pcm) as [|s samples] eqn:Hs.
    + apply samples_of_nil in Hs. destruct pc; simpl; split_and!; try done.
      all: try by eexists. all: by exists pcm.
    + destruct pc; simpl; intros (_ & _ & _ & _ & pcm' & [= <-] & Hlen);
        apply samples_of_nil in Hlen; congruence.
  - unfold prepareAudioFile.
    destruct (env_createTemp env) as [t|err] eqn:Htemp.
    2:{ intros (_ & _ & [t ?] & _). done. }
    destruct (env_ffmpeg env) as [err|] eqn:Hff.
    { intros (_ & _ & _ & ? & _). done. }
    destruct (Wav.readWAVFile (env_readFile env)) as [[pcm rate]|err] eqn:Hwav.
    2:{ intros (_ & _ & _ & _ & pcm & ? & _). done. }
    destruct (Z.eqb_spec rate 16000) as [->|Hrate]; simpl.
    2:{ intros (_ & _ & _ & _ & pcm' & [= _ ?] & _). done. }
    unfold alloc. simpl.
    destruct (samples_of pcm) as [|s samples] eqn:Hs.
    + apply samples_of_nil in Hs. destruct pc; simpl; split_and!; try done.
      all: try by eexists. all: by exists pcm.
    + destruct pc; simpl; intros (_ & _ & _ & _ & pcm' & [= <-] & Hlen);
        apply samples_of_nil in Hlen; congruence.
Qed.

(** X27.  A call panics exactly when its engine has a context, the
    transcription cache does not answer it, the conversion succeeds and the
    converted file is an accepted 16000 Hz file with fewer than two PCM
    bytes: the buffer is then empty and its first element is addressed.
    The panic comes before any call of [whisper_full]; both caches are as
    they were, and so is the registry, the deferred calls having run. *)
Theorem short_audio_panics
    (e : WhisperCGOEngine) (env : CallEnv) (audioPath modelID : string) (cpuThreads : Z)
    (translateTo : string) (pc sc : option sink) (st : State) :
  let '(c, st', tr) :=
    TranscribeWithTranslation e env audioPath modelID cpuThreads translateTo pc sc st in
  ((∃ msg, c = Panicked msg) ↔
     initialised e
     ∧ (translateTo = "" → transcriptionCache st !! (audioPath, modelID) = None)
     ∧ (∃ tempPath, env_createTemp env = Ok tempPath) ∧ env_ffmpeg env = None
     ∧ ∃ pcm, Wav.readWAVFile (env_readFile env) = Ok (pcm, 16000) ∧ (length pcm < 2)%nat)
  ∧ ∀ msg, c = Panicked msg →
      msg = "runtime error: index out of range [0] with length 0"
      ∧ native_calls tr = []
      ∧ transcriptionCache st' = transcriptionCache st
      ∧ modelCache st' = modelCache st
      ∧ (registry_wf st → callbackRegistry st' = callbackRegistry st).
Proof.
  destruct (TranscribeWithTranslation e env audioPath modelID cpuThreads translateTo pc sc st)
    as [[c st'] tr] eqn:Hcall.
  pose proof (registry_restored e env audioPath modelID cpuThreads translateTo pc sc st st' c tr)
    as Hrestored.
  unfold TranscribeWithTranslation in Hcall.
  pose proof (setup_panics e env audioPath modelID cpuThreads translateTo pc sc st) as Hs.
  destruct (transcribe_setup e env audioPath modelID cpuThreads translateTo pc sc st)
    as [c0 st0 tr0|inv st1 tr0] eqn:Hsetup.
  - injection Hcall as -> -> ->.
    destruct (setup_exit _ _ _ _ _ _ _ _ _ _ _ _ Hsetup) as (Htc & Hmc & Hnone & _).
    destruct c as [r|msg].
    + split; [|done]. split; [by intros [? ?]|]. intros H. by destruct Hs.
    + destruct Hs as (-> & Hcond). split; [split; [done|by eexists]|].
      intros msg [= <-]. split_and!; try done.
      intros Hwf. apply Hrestored; [done|]. unfold TranscribeWithTranslation. by rewrite Hsetup.
  - destruct (setup_native _ _ _ _ _ _ _ _ _ _ _ _ Hsetup)
      as (_ & _ & _ & _ & _ & Hseg & _).
    destruct (transcribe_finish audioPath modelID translateTo pc sc inv (native_run env inv) st1)
      as [[c1 st2] tr1] eqn:Hfin.
    injection Hcall as -> -> <-.
    destruct (finish_facts _ _ _ _ _ _ _ _ _ _ _ Hfin Hseg) as (_ & _ & _ & _ & _ & Hres).
    assert (∀ msg, c ≠ Panicked msg) as Hret.
    { intros msg ->. destruct (nr_status (native_run env inv) =? 0); by destruct Hres. }
    split; [|by intros msg ?%Hret].
    split; [by intros [msg ?%Hret]|]. intros H. by destruct Hs.
Qed.

Lemma short_audio_panics_witness :
  ∃ msg, fst (fst (TranscribeWithTranslation Scenario.engine Cases.env_no_sample "c.wav" "turbo" 4 ""
                     None None Scenario.ready)) = Panicked msg.
Proof.
  pose proof (short_audio_panics Scenario.engine Cases.env_no_sample "c.wav" "turbo" 4 ""
                None None Scenario.ready) as H.
  destruct (TranscribeWithTranslation Scenario.engine Cases.env_no_sample "c.wav" "turbo" 4 ""
              None None Scenario.ready) as [[c st'] tr].
  destruct H as [[_ H] _]. simpl. apply H.
  split; [eexists; split; [reflexivity|done]|].
  split; [intros _; reflexivity|].
  split; [by eexists|]. split; [reflexivity|].
  exists []. split; [vm_compute; reflexivity|simpl; lia].
Defined.

(** ** Status messages *)

Lemma progress_events_report to msg :
  progress_events (report (Some to) msg) = [EvProgress to msg].
Proof. done. Qed.

Lemma progress_events_deliver sc L : progress_events (deliver sc L) = [].
Proof.
  destruct sc as [to|]; simpl; [|done].
  unfold progress_events. induction L as [|s L IH]; simpl; [done|]. by rewrite IH.
Qed.

Lemma setup_status e env p mid thr tl to sc st :
  match transcribe_setup e env p mid thr tl (Some to) sc st with
  | SetupExit (Returned (Ok L)) _ tr =>
      progress_events tr = map (EvProgress to) (cached_messages (length L))
  | SetupExit _ _ _ => True
  | SetupNative _ _ tr => progress_events tr = map (EvProgress to) (opening_messages mid)
  end.
Proof.
  unfold transcribe_setup, run_deferred, prepareAudioFile.
  repeat case_match; unfold alloc, register in *; simplify_eq; try done.
  all: unfold progress_events.
  all: repeat progress
         (simpl; rewrite ?List.filter_app;
          repeat match goal with
                 | |- context [List.filter is_progress (deliver ?a ?b)] =>
                     change (List.filter is_progress (deliver a b))
                       with (progress_events (deliver a b));
                     rewrite (progress_events_deliver a b)
                 end).
  all: done.
Qed.

Lemma progress_events_map to (msgs : list string) :
  progress_events (map (EvProgress to) msgs) = map (EvProgress to) msgs.
Proof. unfold progress_events. induction msgs as [|m msgs IH]; simpl; [done|]. by rewrite IH. Qed.

(** A value the poller loads is the one the cell held when the native call
    began, or one the engine reported since. *)
Lemma tick_samples_origin params cell evs st :
  Forall (fun v => v = load_cell cell st
                   ∨ ∃ p, NativeProgress p ∈ evs ∧ v = GoInt.int32 (GoInt.c_int p))
         (tick_samples params cell evs st).
Proof.
  revert st. induction evs as [|ev evs IH]; intros st; simpl; [constructor|].
  destruct ev as [p|segs|].
  - set (st1 := if progress_callback params
                then whisper_progress_callback_go (GoInt.c_int p)
                       (progress_callback_user_data params) st
                else st).
    assert (load_cell cell st1 = load_cell cell st
            ∨ load_cell cell st1 = GoInt.int32 (GoInt.c_int p)) as Hcell.
    { unfold st1, whisper_progress_callback_go, load_cell.
      destruct (progress_callback params); [|by left].
      repeat case_match; try (by left). simpl.
      match goal with |- context [<[?c := _]> _ !! cell] =>
        destruct (decide (c = cell)) as [->|?] end.
      - right. by rewrite lookup_insert_eq.
      - left. by rewrite lookup_insert_ne. }
    eapply Forall_impl; [apply (IH st1)|]. simpl.
    intros v [->|(p' & Hp' & ->)].
    + destruct Hcell as [->| ->]; [by left|]. right. exists p. split; [apply list_elem_of_here|done].
    + right. exists p'. split; [by apply list_elem_of_further|done].
  - set (st1 := if new_segment_callback params
                then fst (whisper_new_segment_callback_go segs
                            (new_segment_callback_user_data params) st)
                else st).
    assert (load_cell cell st1 = load_cell cell st) as Hcell.
    { unfold st1, whisper_new_segment_callback_go, load_cell.
      destruct (new_segment_callback params); [|done].
      repeat case_match; done. }
    eapply Forall_impl; [apply (IH st1)|]. simpl.
    intros v [->|(p' & Hp' & ->)]; [by left|].
    right. exists p'. split; [by apply list_elem_of_further|done].
  - constructor; [by left|].
    eapply Forall_impl; [apply (IH st)|]. simpl.
    intros v [->|(p' & Hp' & ->)]; [by left|].
    right. exists p'. split; [by apply list_elem_of_further|done].
Qed.

Lemma finish_status p mid tl to sc inv run st :
  new_segment_callback (inv_params inv) = false →
  nr_status run = 0 →
  ∃ samples,
    progress_events (snd (transcribe_finish p mid tl (Some to) sc inv run st))
    = map (EvProgress to)
        (poll_messages samples ++ closing_messages (length (nr_segments run)))
    ∧ Forall (fun v => v = load_cell (inv_progressCell inv) st
                       ∨ ∃ p, NativeProgress p ∈ nr_events run
                              ∧ v = GoInt.int32 (GoInt.c_int p)) samples.
Proof.
  intros Hseg Hstatus. unfold transcribe_finish, run_deferred. rewrite Hstatus. simpl.
  pose proof (run_events_poll (inv_params inv) to (inv_progressCell inv) (nr_events run)
                0 (-1) st Hseg) as Hrun.
  destruct (run_events (inv_params inv) (Some (to, inv_progressCell inv)) (nr_events run)
              (-1) st) as [st1 tr_run].
  simpl in Hrun. subst tr_run.
  exists (tick_samples (inv_params inv) (inv_progressCell inv) (nr_events run) st).
  split; [|apply tick_samples_origin].
  simpl. rewrite extract_loop_length.
  rewrite <- (map_map (fun e => progress_message (snd e)) (EvProgress to)).
  fold (poll (tick_samples (inv_params inv) (inv_progressCell inv) (nr_events run) st)).
  fold (poll_messages (tick_samples (inv_params inv) (inv_progressCell inv) (nr_events run) st)).
  unfold progress_events at 1. simpl. rewrite !List.filter_app. simpl.
  rewrite List.filter_app.
  match goal with |- context [List.filter is_progress (deliver ?a ?b)] =>
    change (List.filter is_progress (deliver a b)) with (progress_events (deliver a b));
    rewrite (progress_events_deliver a b) end.
  match goal with |- context [List.filter is_progress (map (EvProgress to) ?l)] =>
    change (List.filter is_progress (map (EvProgress to) l))
      with (progress_events (map (EvProgress to) l));
    rewrite (progress_events_map to l) end.
  simpl. rewrite map_app, app_nil_r. done.
Qed.

(** X6.  The status messages of a successful call with a progress sink all go
    to that sink and are, in order: the two messages of a cache hit; or the
    three opening messages, then the messages of the polling goroutine,
    then the two closing messages with the number of segments returned.
    Every value the goroutine loaded is 0, the initial content of the
    cell, or a value the native engine reported, narrowed to 32 bits. *)
Theorem status_messages_of_a_run
    (e : WhisperCGOEngine) (env : CallEnv) (audioPath modelID : string) (cpuThreads : Z)
    (translateTo : string) (to : sink) (sc : option sink)
    (st st' : State) (L : list Segment) (tr : list Event) :
  TranscribeWithTranslation e env audioPath modelID cpuThreads translateTo (Some to) sc st
    = (Returned (Ok L), st', tr) →
  ∃ messages,
    progress_events tr = map (EvProgress to) messages
    ∧ (messages = cached_messages (length L)
       ∨ ∃ samples,
           messages = opening_messages modelID ++ poll_messages samples
                      ++ closing_messages (length L)
           ∧ Forall (fun v => v = 0
                              ∨ ∃ c params pcm p,
                                  NativeProgress p ∈ nr_events (env_whisper_full env c params pcm)
                                  ∧ v = GoInt.int32 (GoInt.c_int p)) samples).
Proof.
  unfold TranscribeWithTranslation.
  pose proof (setup_status e env audioPath modelID cpuThreads translateTo to sc st) as Hs.
  destruct (transcribe_setup e env audioPath modelID cpuThreads translateTo (Some to) sc st)
    as [c0 st0 tr0|inv st1 tr0] eqn:Hsetup.
  - intros [= -> <- <-]. eexists. split; [exact Hs|]. by left.
  - destruct (setup_native _ _ _ _ _ _ _ _ _ _ _ _ Hsetup)
      as (_ & _ & _ & Hcell & _ & Hseg & _ & _ & Hcells & _).
    destruct (transcribe_finish audioPath modelID translateTo (Some to) sc inv
                (native_run env inv) st1) as [[c1 st2] tr1] eqn:Hfin.
    intros [= -> <- <-].
    destruct (finish_facts _ _ _ _ _ _ _ _ _ _ _ Hfin Hseg) as (_ & _ & _ & _ & _ & Hres).
    destruct (nr_status (native_run env inv) =? 0) eqn:Hstatus; destruct Hres as [[= ->] _].
    apply Z.eqb_eq in Hstatus.
    destruct (finish_status audioPath modelID translateTo to sc inv (native_run env inv) st1
                Hseg Hstatus) as (samples & Hf & Horigin).
    rewrite Hfin in Hf. simpl in Hf.
    eexists. split.
    + unfold progress_events in *. rewrite List.filter_app, Hs, Hf, <- map_app. done.
    + right. exists samples. unfold extract_segments. rewrite extract_loop_length.
      split; [done|]. eapply Forall_impl; [exact Horigin|]. simpl.
      intros v [->|(p & Hp & ->)].
      * left. unfold load_cell. by rewrite Hcell, Hcells, lookup_insert_eq.
      * right. by eexists _, _, _, p.
Qed.

Lemma status_messages_of_a_run_witness :
  ∃ messages,
    progress_events (snd Scenario.first_call) = map (EvProgress 1%N) messages
    ∧ (messages = cached_messages (length Scenario.transcript)
       ∨ ∃ samples,
           messages = opening_messages "turbo" ++ poll_messages samples
                      ++ closing_messages (length Scenario.transcript)
           ∧ Forall (fun v => v = 0
                              ∨ ∃ c params pcm p,
                                  NativeProgress p
                                    ∈ nr_events (env_whisper_full Scenario.env_ok c params pcm)
                                  ∧ v = GoInt.int32 (GoInt.c_int p)) samples).
Proof.
  apply (status_messages_of_a_run Scenario.engine Scenario.env_ok "a.wav" "turbo" 4 ""
           1%N (Some 2%N) Scenario.ready (snd (fst Scenario.first_call))).
  vm_compute. reflexivity.
Defined.

(** ** The exported handlers *)

(** Once a call is over no token it issued is registered. *)
Lemma tokens_unregistered e env p mid thr tl pc sc st c st' tr :
  callbackIDCounter st ≠ 0 →
  TranscribeWithTranslation e env p mid thr tl pc sc st = (c, st', tr) →
  ∀ token, token ∈ tokens_issued tr → callbackRegistry st' !! token = None.
Proof.
  intros Hctr Hcall token Htoken. unfold TranscribeWithTranslation in Hcall.
  destruct (transcribe_setup e env p mid thr tl pc sc st)
    as [c0 st0 tr0|inv st1 tr0] eqn:Hsetup.
  - injection Hcall as -> -> ->.
    destruct (setup_exit _ _ _ _ _ _ _ _ _ _ _ _ Hsetup) as (_ & _ & _ & Htok & _).
    destruct (Htok token Htoken) as [-> Hgone]. by apply Hgone.
  - destruct (setup_native _ _ _ _ _ _ _ _ _ _ _ _ Hsetup)
      as (_ & _ & _ & _ & _ & Hseg & _ & _ & _ & _ & Hpc).
    destruct (transcribe_finish p mid tl pc sc inv (native_run env inv) st1)
      as [[c1 st2] tr1] eqn:Hfin.
    injection Hcall as -> -> <-.
    destruct (finish_facts _ _ _ _ _ _ _ _ _ _ _ Hfin Hseg) as (_ & _ & Hreg & Htok1 & _).
    rewrite tokens_issued_app, Htok1, app_nil_r in Htoken.
    destruct pc as [to|].
    + destruct Hpc as (Hid & _ & _ & _ & _ & Htok0).
      rewrite Htok0 in Htoken. apply list_elem_of_singleton in Htoken as ->.
      rewrite Hreg, Hid. unfold unregister.
      destruct (Z.eqb_spec (callbackIDCounter st) 0); [done|]. apply lookup_delete_eq.
    + destruct Hpc as (_ & _ & _ & _ & Htok0). rewrite Htok0 in Htoken.
      by apply elem_of_nil in Htoken.
Qed.

(** X24.  A callback of the native engine that arrives after its call is
    over does nothing: once [TranscribeWithTranslation] has ended, however
    it ended, the progress handler and the new-segment handler leave the
    state as it is and call no sink when they are given a token the call
    issued.  A call without a progress sink issues no token. *)
Theorem late_callbacks_are_dropped
    (e : WhisperCGOEngine) (env : CallEnv) (audioPath modelID : string) (cpuThreads : Z)
    (translateTo : string) (pc sc : option sink)
    (st st' : State) (c : completion) (tr : list Event) :
  callbackIDCounter st ≠ 0 →
  TranscribeWithTranslation e env audioPath modelID cpuThreads translateTo pc sc st
    = (c, st', tr) →
  (pc = None → tokens_issued tr = [])
  ∧ ∀ token, token ∈ tokens_issued tr →
      (∀ progress, whisper_progress_callback_go progress token st' = st')
      ∧ (∀ segs, whisper_new_segment_callback_go segs token st' = (st', [])).
Proof.
  intros Hctr Hcall. split.
  - intros ->. unfold TranscribeWithTranslation in Hcall.
    destruct (transcribe_setup e env audioPath modelID cpuThreads translateTo None sc st)
      as [c0 st0 tr0|inv st1 tr0] eqn:Hsetup.
    + injection Hcall as -> -> ->. revert Hsetup.
      unfold transcribe_setup, run_deferred, prepareAudioFile.
      intros Hsetup. repeat case_match; unfold alloc in *; simplify_eq; try done.
      all: rewrite ?tokens_issued_app, ?(quiet_tokens _ (quiet_deliver _ _)),
             ?(quiet_tokens _ (quiet_report _ _)).
      all: done.
    + destruct (setup_native _ _ _ _ _ _ _ _ _ _ _ _ Hsetup)
        as (_ & _ & _ & _ & _ & Hseg & _ & _ & _ & _ & Hpc).
      destruct (transcribe_finish audioPath modelID translateTo None sc inv
                  (native_run env inv) st1) as [[c1 st2] tr1] eqn:Hfin.
      injection Hcall as -> -> <-.
      destruct (finish_facts _ _ _ _ _ _ _ _ _ _ _ Hfin Hseg) as (_ & _ & _ & Htok1 & _).
      destruct Hpc as (_ & _ & _ & _ & Htok0).
      by rewrite tokens_issued_app, Htok0, Htok1.
  - intros token Htoken.
    pose proof (tokens_unregistered _ _ _ _ _ _ _ _ _ _ _ _ Hctr Hcall token Htoken) as Hgone.
    split.
    + intros progress. unfold whisper_progress_callback_go. by rewrite Hgone.
    + intros segs. unfold whisper_new_segment_callback_go. rewrite Hgone.
      by destruct (length segs =? 0)%nat.
Qed.

Lemma late_callbacks_are_dropped_witness :
  (Some 1%N = None → tokens_issued (snd Scenario.first_call) = [])
  ∧ ∀ token, token ∈ tokens_issued (snd Scenario.first_call) →
      (∀ progress,
         whisper_progress_callback_go progress token (snd (fst Scenario.first_call))
         = snd (fst Scenario.first_call))
      ∧ (∀ segs,
           whisper_new_segment_callback_go segs token (snd (fst Scenario.first_call))
           = (snd (fst Scenario.first_call), [])).
Proof.
  apply (late_callbacks_are_dropped Scenario.engine Scenario.env_ok "a.wav" "turbo" 4 ""
           (Some 1%N) (Some 2%N) Scenario.ready (snd (fst Scenario.first_call))
           (fst (fst Scenario.first_call)) (snd Scenario.first_call)).
  - vm_compute. discriminate.
  - vm_compute. reflexivity.
Defined.

(** X25.  The two exported handlers stay in their slot.  The progress
    handler changes nothing but the cell of the slot registered under its
    token, which then holds the value reported, narrowed to 32 bits.  The
    new-segment handler changes nothing but that slot's speaker count, by
    one at most; it calls a sink at most once, the slot's segment sink,
    with the last segment of the context and the slot's speaker; with no
    slot under the token it does nothing. *)
Theorem handlers_stay_in_their_slot (userData : Z) (st : State) :
  (∀ progress,
     let st' := whisper_progress_callback_go progress userData st in
     modelCache st' = modelCache st
     ∧ transcriptionCache st' = transcriptionCache st
     ∧ callbackRegistry st' = callbackRegistry st
     ∧ callbackIDCounter st' = callbackIDCounter st
     ∧ ∀ cell, cells st' !! cell = cells st !! cell
               ∨ (∃ slot, callbackRegistry st !! userData = Some slot
                          ∧ progressPercent slot = Some cell)
                 ∧ cells st' !! cell = Some (GoInt.int32 progress))
  ∧ ∀ segs,
      let '(st', tr) := whisper_new_segment_callback_go segs userData st in
      modelCache st' = modelCache st
      ∧ transcriptionCache st' = transcriptionCache st
      ∧ callbackIDCounter st' = callbackIDCounter st
      ∧ cells st' = cells st
      ∧ (∀ k, k ≠ userData → callbackRegistry st' !! k = callbackRegistry st !! k)
      ∧ match callbackRegistry st !! userData with
        | None => st' = st ∧ tr = []
        | Some slot =>
            ∃ slot', callbackRegistry st' !! userData = Some slot'
              ∧ progressCallback slot' = progressCallback slot
              ∧ segmentCallback slot' = segmentCallback slot
              ∧ progressPercent slot' = progressPercent slot
              ∧ (currentSpeaker slot' = currentSpeaker slot
                 ∨ currentSpeaker slot' = GoInt.int (currentSpeaker slot + 1))
              ∧ match tr with
                | [] => st' = st
                | [EvSegment to seg] =>
                    segmentCallback slot = Some to
                    ∧ Speaker seg = currentSpeaker slot'
                    ∧ ∃ ns, last segs = Some ns ∧ Text seg = ns_text ns
                | _ => False
                end
        end.
Proof.
  split.
  - intros progress. unfold whisper_progress_callback_go.
    destruct (callbackRegistry st !! userData) as [slot|] eqn:Hslot; simpl.
    2:{ split_and!; try done. by left. }
    destruct (progressPercent slot) as [c0|] eqn:Hcell; simpl.
    2:{ split_and!; try done. by left. }
    split_and!; try done. intros cell.
    destruct (decide (cell = c0)) as [->|Hne].
    + right. split; [by exists slot|]. apply lookup_insert_eq.
    + left. by rewrite lookup_insert_ne.
  - intros segs. unfold whisper_new_segment_callback_go.
    destruct (length segs =? 0)%nat eqn:Hlen.
    { split_and!; try done. destruct (callbackRegistry st !! userData) as [slot|] eqn:Hslot;
        [|done]. exists slot. split_and!; try done. by left. }
    destruct (callbackRegistry st !! userData) as [slot|] eqn:Hslot; [|by split_and!].
    destruct (segmentCallback slot) as [cb|] eqn:Hcb.
    2:{ split_and!; try done. rewrite Hslot. exists slot. split_and!; try done. by left. }
    simpl. split_and!; try done.
    + intros k Hk. by rewrite lookup_insert_ne.
    + rewrite lookup_insert_eq. eexists. split; [done|].
      assert (∃ ns, last segs = Some ns
                    ∧ whisper_full_get_segment_text segs (length segs - 1) = ns_text ns)
        as (ns & Hlast & Htext).
      { unfold whisper_full_get_segment_text. rewrite last_lookup.
        replace (pred (length segs)) with (length segs - 1)%nat by lia.
        destruct (segs !! (length segs - 1)%nat) as [ns|] eqn:Hns; [by exists ns|].
        apply lookup_ge_None in Hns. apply Nat.eqb_neq in Hlen. lia. }
      destruct (if (0 <? length segs - 1)%nat
                then whisper_full_get_segment_speaker_turn_next segs (length segs - 1 - 1)
                else false); simpl.
      * split_and!; try done; [by right|]. by exists ns.
      * split_and!; try done; [by left|]. by exists ns.
Qed.

(** ** Samples and texts *)

Lemma byte_values_complete (z : Z) : 0 <= z < 256 → In z Pcm.byte_values.
Proof.
  intros Hz. unfold Pcm.byte_values. apply in_map_iff. exists (Z.to_nat z).
  split; [lia|]. apply in_seq. lia.
Qed.

Lemma sound_all_bytes :
  forallb (fun lo => forallb (Pcm.sound lo) Pcm.byte_values) Pcm.byte_values = true.
Proof. vm_compute. reflexivity. Qed.

Lemma sound_bytes (lo hi : Z) : 0 <= lo < 256 → 0 <= hi < 256 → Pcm.sound lo hi = true.
Proof.
  intros Hlo Hhi. pose proof sound_all_bytes as Hall.
  rewrite forallb_forall in Hall. specialize (Hall lo (byte_values_complete lo Hlo)).
  rewrite forallb_forall in Hall. exact (Hall hi (byte_values_complete hi Hhi)).
Qed.

(** X7.  The buffer handed to the engine has one sample for every two PCM
    bytes, a trailing odd byte being dropped; sample [i] is the signed
    16-bit little-endian integer of bytes [2i] and [2i+1] divided by 32768,
    and so lies between -1 inclusive and 1 exclusive. *)
Theorem samples_normalised (audioData : list byte) :
  length (samples_of audioData) = (length audioData / 2)%nat
  ∧ ∀ i s, samples_of audioData !! i = Some s →
      s = PrimFloat.div
            (GoInt.float64 (Pcm.le16 (Bytes.at_ audioData (i * 2))
                                     (Bytes.at_ audioData (i * 2 + 1))))
            32768%float
      ∧ Pcm.in_unit s = true.
Proof.
  unfold samples_of. split; [by rewrite length_map, length_seq|].
  intros i s Hs. rewrite list_lookup_fmap in Hs.
  destruct (seq 0 (length audioData / 2) !! i) as [k|] eqn:Hk; [|done].
  apply lookup_seq in Hk as [-> _]. simpl in Hs. injection Hs as <-.
  pose proof (sound_bytes _ _ (at_range audioData (i * 2)) (at_range audioData (i * 2 + 1)))
    as Hsound.
  unfold Pcm.sound in Hsound. apply andb_true_iff in Hsound as [Heq Hunit].
  apply Z.eqb_eq in Heq. unfold sample_at. rewrite Heq.
  split; [done|]. unfold Pcm.convert in Hunit. by rewrite Heq in Hunit.
Qed.

Section Utf8Facts.

Import Utf8.

Lemma byte_val (z : Z) : 0 <= z < 256 → Z.of_N (Byte.to_N (byte_of_Z z)) = z.
Proof.
  intros Hz. unfold byte_of_Z.
  destruct (Byte.of_N (Z.to_N z)) as [b|] eqn:E.
  - apply Byte.to_of_N in E. lia.
  - apply Byte.of_N_None_iff in E. lia.
Qed.

Lemma lead_add (hi k x : Z) (n : Z) :
  0 <= n → 0 <= x < 2 ^ n → 0 <= k → hi = Z.shiftl k n → Z.lor hi x = x + 2 ^ n * k.
Proof. intros ? ? ? ->. rewrite Z.lor_comm. by apply lor_shiftl_add. Qed.

Lemma land_3F (z : Z) : Z.land z 0x3F = z mod 64.
Proof. change 0x3F with (Z.ones 6). by rewrite Z.land_ones. Qed.
Lemma land_1F (z : Z) : Z.land z 0x1F = z mod 32.
Proof. change 0x1F with (Z.ones 5). by rewrite Z.land_ones. Qed.
Lemma land_0F (z : Z) : Z.land z 0x0F = z mod 16.
Proof. change 0x0F with (Z.ones 4). by rewrite Z.land_ones. Qed.
Lemma land_07 (z : Z) : Z.land z 0x07 = z mod 8.
Proof. change 0x07 with (Z.ones 3). by rewrite Z.land_ones. Qed.

(** A continuation byte carries six bits under the marker [10]. *)
Lemma cont_val (z : Z) :
  Z.of_N (Byte.to_N (byte_of_Z (Z.lor 0x80 (Z.land z 0x3F)))) = 128 + z mod 64.
Proof.
  rewrite land_3F. pose proof (Z.mod_pos_bound z 64 ltac:(lia)).
  rewrite (lead_add 0x80 2 (z mod 64) 6) by (try lia; reflexivity).
  rewrite byte_val; lia.
Qed.

Lemma cont_low6 (z : Z) : low6 (byte_of_Z (Z.lor 0x80 (Z.land z 0x3F))) = z mod 64.
Proof.
  unfold low6. rewrite cont_val, land_3F.
  pose proof (Z.mod_pos_bound z 64 ltac:(lia)).
  Z.div_mod_to_equations. lia.
Qed.

Lemma cont_in_range (lo hi z : Z) :
  lo <= 128 + z mod 64 <= hi →
  in_range lo hi (byte_of_Z (Z.lor 0x80 (Z.land z 0x3F))) = true.
Proof. intros H. unfold in_range. rewrite cont_val. apply andb_true_iff. lia. Qed.

Lemma first_val (v : Z) :
  0 <= v < 256 →
  first (byte_of_Z v) =
    if v <? 0x80 then Some (0%nat, 0, 0)
    else if v <? 0xC2 then None
    else if v <? 0xE0 then Some (1%nat, 0x80, 0xBF)
    else if v =? 0xE0 then Some (2%nat, 0xA0, 0xBF)
    else if v =? 0xED then Some (2%nat, 0x80, 0x9F)
    else if v <? 0xF0 then Some (2%nat, 0x80, 0xBF)
    else if v =? 0xF0 then Some (3%nat, 0x90, 0xBF)
    else if v <? 0xF4 then Some (3%nat, 0x80, 0xBF)
    else if v =? 0xF4 then Some (3%nat, 0x80, 0x8F)
    else None.
Proof. intros Hv. unfold first. by rewrite byte_val. Qed.

Lemma decode_1 (b0 : byte) (rest : list byte) :
  first b0 = Some (0%nat, 0, 0) →
  decode (b0 :: rest) = Z.of_N (Byte.to_N b0) :: decode rest.
Proof. intros H. cbn [decode]. by rewrite H. Qed.

Lemma decode_2 (b0 b1 : byte) (rest : list byte) (lo hi : Z) :
  first b0 = Some (1%nat, lo, hi) → in_range lo hi b1 = true →
  decode (b0 :: b1 :: rest)
  = Z.lor (Z.shiftl (Z.land (Z.of_N (Byte.to_N b0)) 0x1F) 6) (low6 b1) :: decode rest.
Proof. intros H H1. cbn [decode]. by rewrite H, H1. Qed.

Lemma decode_3 (b0 b1 b2 : byte) (rest : list byte) (lo hi : Z) :
  first b0 = Some (2%nat, lo, hi) → in_range lo hi b1 = true →
  in_range 0x80 0xBF b2 = true →
  decode (b0 :: b1 :: b2 :: rest)
  = Z.lor (Z.lor (Z.shiftl (Z.land (Z.of_N (Byte.to_N b0)) 0x0F) 12)
                 (Z.shiftl (low6 b1) 6)) (low6 b2) :: decode rest.
Proof. intros H H1 H2. cbn [decode]. by rewrite H, H1, H2. Qed.

Lemma decode_4 (b0 b1 b2 b3 : byte) (rest : list byte) (lo hi : Z) :
  first b0 = Some (3%nat, lo, hi) → in_range lo hi b1 = true →
  in_range 0x80 0xBF b2 = true → in_range 0x80 0xBF b3 = true →
  decode (b0 :: b1 :: b2 :: b3 :: rest)
  = Z.lor (Z.lor (Z.lor (Z.shiftl (Z.land (Z.of_N (Byte.to_N b0)) 0x07) 18)
                        (Z.shiftl (low6 b1) 12))
                 (Z.shiftl (low6 b2) 6)) (low6 b3) :: decode rest.
Proof. intros H H1 H2 H3. cbn [decode]. by rewrite H, H1, H2, H3. Qed.

(** Or-ing a value into low bits that are all clear adds it. *)
Lemma lor_low (x y n : Z) :
  0 <= n → 0 <= x → x mod 2 ^ n = 0 → 0 <= y < 2 ^ n → Z.lor x y = x + y.
Proof.
  intros Hn Hx Hmod Hy.
  assert (0 < 2 ^ n) by (apply Z.pow_pos_nonneg; lia).
  rewrite (Z.div_mod x (2 ^ n)) at 1 by lia. rewrite Hmod, Z.add_0_r.
  rewrite <- (Z.mul_comm (x / 2 ^ n)), <- Z.shiftl_mul_pow2 by lia.
  rewrite Z.lor_comm, lor_shiftl_add; try lia.
  - pose proof (Z.div_mod x (2 ^ n) ltac:(lia)). lia.
  - apply Z.div_pos; lia.
Qed.

Ltac decide_ifs :=
  repeat match goal with
    | |- context [if (?a <? ?b) then _ else _] => destruct (Z.ltb_spec a b); try lia
    | |- context [if (?a <=? ?b) then _ else _] => destruct (Z.leb_spec a b); try lia
    | |- context [if (?a =? ?b) then _ else _] => destruct (Z.eqb_spec a b); try lia
    end.

Lemma scalar_bounds (r : Z) :
  scalar r = true ↔ 0 <= r <= 0x10FFFF ∧ ¬ (0xD800 <= r <= 0xDFFF).
Proof.
  unfold scalar.
  destruct (Z.leb_spec 0 r), (Z.leb_spec r 0x10FFFF), (Z.leb_spec 0xD800 r),
    (Z.leb_spec r 0xDFFF); simpl; split; try done; try lia.
Qed.

Lemma encode_rune_scalar (r : Z) :
  scalar r = true →
  encode_rune r =
    if r <=? 0x7F then [byte_of_Z r]
    else if r <=? 0x7FF
    then [byte_of_Z (Z.lor 0xC0 (Z.shiftr r 6)); byte_of_Z (Z.lor 0x80 (Z.land r 0x3F))]
    else if r <=? 0xFFFF
    then [byte_of_Z (Z.lor 0xE0 (Z.shiftr r 12));
          byte_of_Z (Z.lor 0x80 (Z.land (Z.shiftr r 6) 0x3F));
          byte_of_Z (Z.lor 0x80 (Z.land r 0x3F))]
    else [byte_of_Z (Z.lor 0xF0 (Z.shiftr r 18));
          byte_of_Z (Z.lor 0x80 (Z.land (Z.shiftr r 12) 0x3F));
          byte_of_Z (Z.lor 0x80 (Z.land (Z.shiftr r 6) 0x3F));
          byte_of_Z (Z.lor 0x80 (Z.land r 0x3F))].
Proof.
  intros Hs. unfold encode_rune.
  assert ((r <? 0) || (0x10FFFF <? r) || ((0xD800 <=? r) && (r <=? 0xDFFF)) = false) as ->; [|done].
  apply scalar_bounds in Hs.
  destruct (Z.ltb_spec r 0), (Z.ltb_spec 0x10FFFF r), (Z.leb_spec 0xD800 r),
    (Z.leb_spec r 0xDFFF); simpl; try done; lia.
Qed.

Lemma encode_rune_normalise (r : Z) : encode_rune (normalise r) = encode_rune r.
Proof.
  unfold normalise. destruct (scalar r) eqn:Hs; [done|].
  unfold encode_rune at 2.
  assert ((r <? 0) || (0x10FFFF <? r) || ((0xD800 <=? r) && (r <=? 0xDFFF)) = true) as ->; [|done].
  unfold scalar in Hs.
  destruct (Z.ltb_spec r 0), (Z.ltb_spec 0x10FFFF r), (Z.leb_spec 0xD800 r),
    (Z.leb_spec r 0xDFFF), (Z.leb_spec 0 r), (Z.leb_spec r 0x10FFFF);
    simpl in *; try done; lia.
Qed.

Lemma decode_encode_scalar (r : Z) (rest : list byte) :
  scalar r = true → decode (encode_rune r ++ rest) = r :: decode rest.
Proof.
  intros Hs. rewrite (encode_rune_scalar r Hs). apply scalar_bounds in Hs as [Hr Hsur].
  destruct (Z.leb_spec r 0x7F) as [H1|H1].
  { simpl app. rewrite decode_1; rewrite ?first_val, ?byte_val by lia; [done|].
    decide_ifs. done. }
  rewrite !Z.shiftr_div_pow2 by lia.
  change (2 ^ 6) with 64. change (2 ^ 12) with 4096. change (2 ^ 18) with 262144.
  destruct (Z.leb_spec r 0x7FF) as [H2|H2].
  { simpl app.
    assert (Z.lor 0xC0 (r / 64) = r / 64 + 192) as ->.
    { rewrite (lor_low 0xC0 (r / 64) 6); try reflexivity; try lia.
      change (2 ^ 6) with 64. Z.div_mod_to_equations. lia. }
    assert (2 <= r / 64 < 32) by (Z.div_mod_to_equations; lia).
    rewrite (decode_2 _ _ _ 0x80 0xBF).
    - rewrite byte_val, land_1F, cont_low6 by lia.
      rewrite Z.shiftl_mul_pow2 by lia. change (2 ^ 6) with 64.
      rewrite (lor_low _ _ 6); try lia.
      + f_equal. Z.div_mod_to_equations. lia.
      + Z.div_mod_to_equations. lia.
      + change (2 ^ 6) with 64. Z.div_mod_to_equations. lia.
      + change (2 ^ 6) with 64. Z.div_mod_to_equations. lia.
    - rewrite first_val by lia. decide_ifs. done.
    - apply cont_in_range. Z.div_mod_to_equations. lia. }
  destruct (Z.leb_spec r 0xFFFF) as [H3|H3].
  { simpl app.
    assert (Z.lor 0xE0 (r / 4096) = r / 4096 + 224) as ->.
    { rewrite (lor_low 0xE0 (r / 4096) 4); try reflexivity; try lia.
      change (2 ^ 4) with 16. Z.div_mod_to_equations. lia. }
    assert (0 <= r / 4096 < 16) by (Z.div_mod_to_equations; lia).
    assert (∃ lo hi, first (byte_of_Z (r / 4096 + 224)) = Some (2%nat, lo, hi)
                     ∧ lo <= 128 + (r / 64) mod 64 <= hi) as (lo & hi & Hfirst & Hrange).
    { rewrite first_val by lia. decide_ifs; eexists _, _; (split; [reflexivity|]);
        Z.div_mod_to_equations; lia. }
    rewrite (decode_3 _ _ _ _ lo hi); [|done|by apply cont_in_range|].
    - rewrite byte_val, land_0F, !cont_low6 by lia.
      rewrite !Z.shiftl_mul_pow2 by lia. change (2 ^ 6) with 64. change (2 ^ 12) with 4096.
      rewrite (lor_low ((r / 4096 + 224) mod 16 * 4096) _ 12); try lia.
      + rewrite (lor_low _ _ 6); try lia.
        * f_equal. Z.div_mod_to_equations. lia.
        * Z.div_mod_to_equations. lia.
        * change (2 ^ 6) with 64. Z.div_mod_to_equations. lia.
        * change (2 ^ 6) with 64. Z.div_mod_to_equations. lia.
      + Z.div_mod_to_equations. lia.
      + change (2 ^ 12) with 4096. Z.div_mod_to_equations. lia.
      + change (2 ^ 12) with 4096. Z.div_mod_to_equations. lia.
    - apply cont_in_range. Z.div_mod_to_equations. lia. }
  simpl app.
  assert (Z.lor 0xF0 (r / 262144) = r / 262144 + 240) as ->.
  { rewrite (lor_low 0xF0 (r / 262144) 3); try reflexivity; try lia.
    change (2 ^ 3) with 8. Z.div_mod_to_equations. lia. }
  assert (0 <= r / 262144 < 5) by (Z.div_mod_to_equations; lia).
  assert (∃ lo hi, first (byte_of_Z (r / 262144 + 240)) = Some (3%nat, lo, hi)
                   ∧ lo <= 128 + (r / 4096) mod 64 <= hi) as (lo & hi & Hfirst & Hrange).
  { rewrite first_val by lia. decide_ifs; eexists _, _; (split; [reflexivity|]);
      Z.div_mod_to_equations; lia. }
  rewrite (decode_4 _ _ _ _ _ lo hi); [|done|by apply cont_in_range| |].
  - rewrite byte_val, land_07, !cont_low6 by lia.
    rewrite !Z.shiftl_mul_pow2 by lia.
    change (2 ^ 6) with 64. change (2 ^ 12) with 4096. change (2 ^ 18) with 262144.
    rewrite (lor_low ((r / 262144 + 240) mod 8 * 262144) _ 18); try lia.
    + rewrite (lor_low _ ((r / 64) mod 64 * 64) 12); try lia.
      * rewrite (lor_low _ _ 6); try lia.
        -- f_equal. Z.div_mod_to_equations. lia.
        -- Z.div_mod_to_equations. lia.
        -- change (2 ^ 6) with 64. Z.div_mod_to_equations. lia.
        -- change (2 ^ 6) with 64. Z.div_mod_to_equations. lia.
      * Z.div_mod_to_equations. lia.
      * change (2 ^ 12) with 4096. Z.div_mod_to_equations. lia.
      * change (2 ^ 12) with 4096. Z.div_mod_to_equations. lia.
    + Z.div_mod_to_equations. lia.
    + change (2 ^ 18) with 262144. Z.div_mod_to_equations. lia.
    + change (2 ^ 18) with 262144. Z.div_mod_to_equations. lia.
  - apply cont_in_range. Z.div_mod_to_equations. lia.
  - apply cont_in_range. Z.div_mod_to_equations. lia.
Qed.

Lemma scalar_normalise (r : Z) : scalar (normalise r) = true.
Proof. unfold normalise. destruct (scalar r) eqn:Hs; [done|reflexivity]. Qed.

Lemma normalise_scalar (r : Z) : scalar r = true → normalise r = r.
Proof. unfold normalise. by intros ->. Qed.

Lemma encode_normalise (runes : list Z) : encode (map normalise runes) = encode runes.
Proof.
  unfold encode. induction runes as [|r runes IH]; simpl; [done|].
  by rewrite encode_rune_normalise, IH.
Qed.

Lemma decode_encode (runes : list Z) : decode (encode runes) = map normalise runes.
Proof.
  induction runes as [|r runes IH]; [done|].
  change (encode (r :: runes)) with (encode_rune r ++ encode runes).
  rewrite <- encode_rune_normalise, decode_encode_scalar by apply scalar_normalise.
  simpl. by rewrite IH.
Qed.

Lemma rune_round_trip (runes : list Z) :
  decode (encode runes) = map normalise runes
  ∧ (Forall (fun r => scalar r = true) runes → decode (encode runes) = runes).
Proof.
  rewrite decode_encode. split; [done|].
  intros Hall. induction Hall as [|r runes Hr _ IH]; simpl; [done|].
  by rewrite (normalise_scalar r Hr), IH.
Qed.

Lemma revalidate_well_formed (text : string) : well_formed (revalidate text).
Proof.
  exists (map normalise (decode (list_byte_of_string text))). split.
  - apply Forall_forall. intros r (r0 & -> & _)%list_elem_of_fmap. apply scalar_normalise.
  - unfold revalidate. by rewrite list_byte_of_string_of_list_byte, encode_normalise.
Qed.

Lemma revalidate_fixed (text : string) : well_formed text → revalidate text = text.
Proof.
  intros (runes & Hall & Hbytes). unfold revalidate.
  rewrite Hbytes, decode_encode, encode_normalise, <- Hbytes.
  apply string_of_list_byte_of_string.
Qed.

End Utf8Facts.

(** X8.  [string([]rune(text))] leaves a text unchanged exactly when the text
    is well-formed UTF-8, and doing it twice is doing it once. *)
Theorem revalidate_fixes_well_formed (text : string) :
  (Utf8.revalidate text = text ↔ well_formed text)
  ∧ Utf8.revalidate (Utf8.revalidate text) = Utf8.revalidate text.
Proof.
  split; [split|].
  - intros <-. apply revalidate_well_formed.
  - apply revalidate_fixed.
  - apply revalidate_fixed, revalidate_well_formed.
Qed.

Lemma extract_loop_texts (segs : list NativeSegment) (n i : nat) (sp : Z) :
  texts_well_formed (extract_loop segs i n sp).
Proof.
  revert i sp. induction n as [|n IH]; intros i sp; simpl; [constructor|].
  constructor; [apply revalidate_well_formed|apply IH].
Qed.

(** X9.  If every text in the transcription cache is well-formed UTF-8, then
    after a call this is still so, and every text of a list the call
    returns is well-formed and unchanged by another round through
    [[]rune]. *)
Theorem segment_texts_well_formed
    (e : WhisperCGOEngine) (env : CallEnv) (audioPath modelID : string) (cpuThreads : Z)
    (translateTo : string) (pc sc : option sink)
    (st st' : State) (c : completion) (tr : list Event) :
  cache_texts_ok st →
  TranscribeWithTranslation e env audioPath modelID cpuThreads translateTo pc sc st
    = (c, st', tr) →
  cache_texts_ok st'
  ∧ ∀ L, c = Returned (Ok L) →
      texts_well_formed L ∧ Forall (fun s => Utf8.revalidate (Text s) = Text s) L.
Proof.
  intros Hcache Hcall.
  assert (cache_texts_ok st' ∧ ∀ L, c = Returned (Ok L) → texts_well_formed L) as [Hst HL].
  2:{ split; [done|]. intros L HcL. split; [by apply HL|].
      eapply Forall_impl; [by apply HL|]. intros s Hs. by apply revalidate_fixed. }
  unfold TranscribeWithTranslation in Hcall.
  destruct (transcribe_setup e env audioPath modelID cpuThreads translateTo pc sc st)
    as [c0 st0 tr0|inv st1 tr0] eqn:Hsetup.
  - injection Hcall as -> -> ->.
    destruct (setup_exit _ _ _ _ _ _ _ _ _ _ _ _ Hsetup) as (Htc & _ & _ & _ & _ & _ & _ & Hok).
    split.
    + intros k L Hk. rewrite Htc in Hk. by eapply Hcache.
    + intros L HcL. destruct (Hok L HcL) as (_ & Hhit & _). by eapply Hcache.
  - destruct (setup_native _ _ _ _ _ _ _ _ _ _ _ _ Hsetup)
      as (_ & _ & _ & _ & _ & Hseg & Htc & _).
    destruct (transcribe_finish audioPath modelID translateTo pc sc inv (native_run env inv) st1)
      as [[c1 st2] tr1] eqn:Hfin.
    injection Hcall as -> -> <-.
    destruct (finish_facts _ _ _ _ _ _ _ _ _ _ _ Hfin Hseg) as (_ & _ & _ & _ & _ & Hres).
    destruct (nr_status (native_run env inv) =? 0); destruct Hres as [-> Hnew].
    + split.
      * intros k L' Hk. rewrite Hnew in Hk.
        destruct (String.eqb translateTo "").
        -- destruct (decide (k = (audioPath, modelID))) as [->|Hne].
           ++ rewrite lookup_insert_eq in Hk. injection Hk as <-. apply extract_loop_texts.
           ++ rewrite lookup_insert_ne in Hk by done. rewrite Htc in Hk. by eapply Hcache.
        -- rewrite Htc in Hk. by eapply Hcache.
      * intros L [= <-]. apply extract_loop_texts.
    + split; [|done]. intros k L' Hk. rewrite Hnew, Htc in Hk. by eapply Hcache.
Qed.

Lemma segment_texts_well_formed_witness :
  cache_texts_ok (snd (fst Scenario.first_call))
  ∧ ∀ L, fst (fst Scenario.first_call) = Returned (Ok L) →
      texts_well_formed L ∧ Forall (fun s => Utf8.revalidate (Text s) = Text s) L.
Proof.
  apply (segment_texts_well_formed Scenario.engine Scenario.env_ok "a.wav" "turbo" 4 ""
           (Some 1%N) (Some 2%N) Scenario.ready _ _ (snd Scenario.first_call)).
  - intros k L Hk. vm_compute in Hk. done.
  - vm_compute. reflexivity.
Defined.

(** ** Loading, closing and clearing models *)

(** X10.  [NewWhisperCGOEngine] fails exactly when the path is empty, the file
    does not exist, or the path is not cached and the load returns no
    context.  A failed call and a cache hit leave the whole state as it
    was; a load changes the model cache at its own path only, and no call
    touches the transcription cache or the callback registry. *)
Theorem new_engine_failures (env : ModelCache.LoadEnv) (modelPath : string) (st : State) :
  let '(r, st') := ModelCache.NewWhisperCGOEngine env modelPath st in
  (is_err r ↔
     modelPath = "" ∨ ModelCache.stat_not_exist env = true
     ∨ (modelCache st !! modelPath = None ∧ ModelCache.whisper_init env = 0%N))
  ∧ (is_err r → st' = st)
  ∧ (is_Some (modelCache st !! modelPath) → st' = st)
  ∧ (∀ q, q ≠ modelPath → modelCache st' !! q = modelCache st !! q)
  ∧ transcriptionCache st' = transcriptionCache st
  ∧ callbackRegistry st' = callbackRegistry st.
Proof.
  unfold ModelCache.NewWhisperCGOEngine, ModelCache.lookup_phase, ModelCache.store_phase, alloc.
  destruct (String.eqb_spec modelPath "") as [->|Hpath]; simpl.
  { split; [|done]. split; [by left|done]. }
  destruct (ModelCache.stat_not_exist env) eqn:Hstat; simpl.
  { split; [|done]. split; [by right; left|done]. }
  destruct (modelCache st !! modelPath) as [m|] eqn:Hm; simpl.
  { split; [|done]. split; [done|]. intros [?|[?|[? _]]]; done. }
  destruct (N.eqb_spec (ModelCache.whisper_init env) 0) as [H0|H0]; simpl.
  { split; [|done]. split; [by right; right|done]. }
  split; [|split; [done|split; [by intros [? ?]|split; [|done]]]].
  - split; [done|]. intros [?|[?|[_ ?]]]; done.
  - intros q Hq. by rewrite lookup_insert_ne.
Qed.

(** X11.  Loads that run one after the other keep the model cache in order:
    every cached handle has a context and an address allocated before, and
    no two paths share a handle.  The engine returned has a context, the
    cache holds its handle under its path, and [fromCache] tells whether
    the path was cached before the call. *)
Theorem new_engine_keeps_cache_wf
    (env : ModelCache.LoadEnv) (modelPath : string) (st st' : State) (e : WhisperCGOEngine) :
  cache_wf st →
  ModelCache.NewWhisperCGOEngine env modelPath st = (Ok e, st') →
  cache_wf st'
  ∧ initialised e
  ∧ modelCache st' !! modelPath = model e
  ∧ (fromCache e = true ↔ is_Some (modelCache st !! modelPath)).
Proof.
  intros [Hctx Hinj].
  unfold ModelCache.NewWhisperCGOEngine, ModelCache.lookup_phase, ModelCache.store_phase, alloc.
  destruct (String.eqb modelPath ""); [done|].
  destruct (ModelCache.stat_not_exist env); [done|].
  destruct (modelCache st !! modelPath) as [m|] eqn:Hm; simpl.
  - intros [= <- <-]. simpl. split_and!; try done.
    exists m. split; [done|]. by destruct (Hctx _ _ Hm).
  - destruct (N.eqb_spec (ModelCache.whisper_init env) 0) as [H0|H0]; [done|].
    intros [= <- <-]. simpl. split_and!.
    + split.
      * intros p m. simpl. destruct (decide (p = modelPath)) as [->|Hp].
        -- rewrite lookup_insert_eq. intros [= <-]. simpl. split; [done|lia].
        -- rewrite lookup_insert_ne by done. intros Hpm.
           destruct (Hctx _ _ Hpm). split; [done|lia].
      * intros p q m m' Hpq. simpl.
        destruct (decide (p = modelPath)) as [->|Hp];
          destruct (decide (q = modelPath)) as [->|Hq]; try done.
        -- rewrite lookup_insert_eq, lookup_insert_ne by done.
           intros [= <-] Hq'. simpl. destruct (Hctx _ _ Hq'). lia.
        -- rewrite lookup_insert_eq, lookup_insert_ne by done.
           intros Hp' [= <-]. simpl. destruct (Hctx _ _ Hp'). lia.
        -- rewrite !lookup_insert_ne by done. by apply Hinj.
    + eexists. split; [done|]. done.
    + apply lookup_insert_eq.
    + split; [done|]. by intros [? ?].
Qed.

(** X12.  [Close] frees the context only of an engine that loaded its model
    itself, and at most one context; it drops the handle, so that a second
    [Close] frees nothing and every later transcription on the engine
    fails with "whisper context not initialized", before the cache is
    consulted, leaving state and sinks untouched. *)
Theorem close_drops_handle (e : WhisperCGOEngine) :
  let '(e1, freed1) := Close e in
  model e1 = None
  ∧ (∀ c, c ∈ freed1 ↔ fromCache e = false ∧ c ≠ 0%N ∧ ∃ m, model e = Some m ∧ ctx m = c)
  ∧ (length freed1 ≤ 1)%nat
  ∧ snd (Close e1) = []
  ∧ ∀ env audioPath modelID cpuThreads translateTo pc sc st,
      TranscribeWithTranslation e1 env audioPath modelID cpuThreads translateTo pc sc st
      = (Returned (Err "whisper context not initialized"), st, []).
Proof.
  unfold Close. simpl. split; [done|]. split; [|split; [|done]].
  - intros c. destruct (model e) as [m|]; simpl.
    + destruct (fromCache e); simpl.
      { split; [by intros ?%elem_of_nil|]. by intros [? _]. }
      destruct (N.eqb_spec (ctx m) 0) as [H0|H0]; simpl.
      * split; [by intros ?%elem_of_nil|]. intros (_ & Hc & m' & [= <-] & <-). done.
      * rewrite list_elem_of_singleton. split.
        -- intros ->. split_and!; [done..|]. by exists m.
        -- by intros (_ & _ & m' & [= <-] & <-).
    + split; [by intros ?%elem_of_nil|]. by intros (_ & _ & m' & ? & _).
  - destruct (model e) as [m|]; simpl; [|lia].
    destruct (negb (fromCache e) && negb (ctx m =? 0)%N); simpl; lia.
Qed.

Lemma release_free c m : TdFree c ∈ release m ↔ ctx m = c ∧ c ≠ 0%N.
Proof.
  unfold release. destruct (N.eqb_spec (ctx m) 0) as [H0|H0].
  - split; [by intros ?%elem_of_nil|]. intros [<- ?]. done.
  - split.
    + intros H%list_elem_of_In. simpl in H.
      destruct H as [H|[H|[H|[]]]]; try done. injection H as H. split; congruence.
    + intros [<- _]. apply list_elem_of_In. simpl. auto.
Qed.



(** X14.  The engine that loads a model shares its handle with the cache but
    has [fromCache] false.  Closing it frees the context the cache still
    holds: a later [NewWhisperCGOEngine] for the path returns that same
    handle from the cache, and [ClearModelCache] frees the context
    again. *)
Theorem loader_close_frees_cached_context
    (env : ModelCache.LoadEnv) (modelPath : string) (st st' : State) (e : WhisperCGOEngine) :
  ModelCache.NewWhisperCGOEngine env modelPath st = (Ok e, st') →
  fromCache e = false →
  ∃ m, model e = Some m
       ∧ snd (Close e) = [ctx m]
       ∧ modelCache st' !! modelPath = Some m
       ∧ (∀ env2, ModelCache.stat_not_exist env2 = false →
            ModelCache.NewWhisperCGOEngine env2 modelPath st'
            = (Ok {| model := Some m; modelPath := modelPath; fromCache := true |}, st'))
       ∧ TdFree (ctx m) ∈ snd (ClearModelCache st').
Proof.
  unfold ModelCache.NewWhisperCGOEngine, ModelCache.lookup_phase, ModelCache.store_phase, alloc.
  destruct (String.eqb modelPath "") eqn:Hpath; [done|].
  destruct (ModelCache.stat_not_exist env); [done|].
  destruct (modelCache st !! modelPath) as [m|] eqn:Hm; simpl.
  { by intros [= <- <-]. }
  destruct (N.eqb_spec (ModelCache.whisper_init env) 0) as [H0|H0]; [done|].
  intros [= <- <-] _. eexists. split; [done|]. simpl.
  assert ((ModelCache.whisper_init env =? 0)%N = false) as -> by by apply N.eqb_neq.
  simpl. split_and!; [done|apply lookup_insert_eq| |].
  - intros env2 Hstat.
    rewrite Hstat. simpl. by rewrite lookup_insert_eq.
  - apply list_elem_of_In, in_concat.
    exists (release {| addr := heap_next st; ctx := ModelCache.whisper_init env |}). split.
    + apply in_map_iff. eexists (modelPath, _). split; [done|].
      apply list_elem_of_In, elem_of_map_to_list. simpl. apply lookup_insert_eq.
    + apply list_elem_of_In, release_free. done.
Qed.

Lemma ready_cache_wf : cache_wf Scenario.ready.
Proof.
  unfold Scenario.ready, Scenario.loaded, ModelCache.store_phase, alloc, set_modelCache, cache_wf.
  simpl. split.
  - intros p m [[_ <-]|[_ Hp]]%lookup_insert_Some; [simpl; split; [done|lia]|done].
  - intros p q m m' Hpq [[<- _]|[_ Hp]]%lookup_insert_Some [[<- _]|[_ Hq]]%lookup_insert_Some;
      done.
Qed.

Lemma new_engine_keeps_cache_wf_witness :
  ∃ e st',
    ModelCache.NewWhisperCGOEngine (Scenario.load_env 8192) "models/ggml-base.bin"
      Scenario.ready = (Ok e, st')
    ∧ cache_wf st' ∧ initialised e ∧ fromCache e = false.
Proof.
  eassert (ModelCache.NewWhisperCGOEngine (Scenario.load_env 8192) "models/ggml-base.bin"
             Scenario.ready = (Ok _, _)) as Hnew by (vm_compute; reflexivity).
  destruct (new_engine_keeps_cache_wf _ _ _ _ _ ready_cache_wf Hnew) as (Hwf & Hinit & _ & _).
  eexists _, _. split; [exact Hnew|]. split_and!; [exact Hwf|exact Hinit|reflexivity].
Defined.

Lemma loader_close_frees_cached_context_witness :
  ∃ m, model Scenario.engine = Some m
       ∧ snd (Close Scenario.engine) = [ctx m]
       ∧ modelCache Scenario.ready !! Scenario.model_path = Some m
       ∧ (∀ env2, ModelCache.stat_not_exist env2 = false →
            ModelCache.NewWhisperCGOEngine env2 Scenario.model_path Scenario.ready
            = (Ok {| model := Some m; modelPath := Scenario.model_path; fromCache := true |},
               Scenario.ready))
       ∧ TdFree (ctx m) ∈ snd (ClearModelCache Scenario.ready).
Proof.
  apply (loader_close_frees_cached_context (Scenario.load_env 4096) Scenario.model_path
           init_state Scenario.ready Scenario.engine); reflexivity.
Defined.

(** ** Locating the samples; what the poller reports *)

Lemma find_data_chunk_first (data : list byte) (n i : nat) :
  (∃ k, (i ≤ k < i + n)%nat ∧ Wav.data_tag_at data k = true
        ∧ (∀ j, (i ≤ j < k)%nat → Wav.data_tag_at data j = false)
        ∧ Wav.find_data_chunk data i n = (k + 8)%nat)
  ∨ ((∀ j, (i ≤ j < i + n)%nat → Wav.data_tag_at data j = false)
     ∧ Wav.find_data_chunk data i n = 44%nat).
Proof.
  revert i; induction n as [|n IH]; intros i; simpl.
  { right. split; [intros j ?; lia|done]. }
  change (Bytes.eqb (Bytes.slice data i (i + 4)) (Bytes.of_string "data"))
    with (Wav.data_tag_at data i).
  destruct (Wav.data_tag_at data i) eqn:Hi.
  - left. exists i. split; [lia|]. split_and!; [done|intros j ?; lia|done].
  - destruct (IH (S i)) as [(k & Hk & Htag & Hbefore & Hfind)|[Hno Hfind]].
    + left. exists k. split; [lia|]. split_and!; [done| |done].
      intros j Hj. destruct (decide (j = i)) as [->|?]; [done|]. apply Hbefore. lia.
    + right. split; [|done].
      intros j Hj. destruct (decide (j = i)) as [->|?]; [done|]. apply Hno. lia.
Qed.

(** X15.  On an accepted file the sample rate read is a 32-bit unsigned value,
    and the PCM bytes start 8 bytes after the first "data" tag found at an
    offset from 12 up to, not including, the length less 8, wherever in
    the file that is; with no tag in that range they start at offset
    44. *)
Theorem readWAVFile_data_chunk (data pcm : list byte) (rate : Z) :
  Wav.readWAVFile (Ok data) = Ok (pcm, rate) →
  0 <= rate < 2 ^ 32
  ∧ ((∃ i, (12 ≤ i < length data - 8)%nat
           ∧ Wav.data_tag_at data i = true
           ∧ (∀ j, (12 ≤ j < i)%nat → Wav.data_tag_at data j = false)
           ∧ pcm = drop (i + 8) data)
     ∨ ((∀ j, (12 ≤ j < length data - 8)%nat → Wav.data_tag_at data j = false)
        ∧ pcm = drop 44 data)).
Proof.
  simpl.
  destruct (Nat.ltb_spec (length data) 44) as [Hlen|Hlen]; [done|].
  destruct (Bytes.eqb (Bytes.slice data 0 4) _); [|done].
  destruct (Bytes.eqb (Bytes.slice data 8 12) _); [|done].
  simpl. intros [= <- <-]. split.
  - rewrite sample_rate_le32. unfold Wav.le32.
    pose proof (at_range data 24). pose proof (at_range data (24 + 1)).
    pose proof (at_range data (24 + 2)). pose proof (at_range data (24 + 3)). lia.
  - destruct (find_data_chunk_first data (length data - 8 - 12) 12)
      as [(k & Hk & Htag & Hbefore & ->)|[Hno ->]].
    + left. exists k. split; [lia|]. split_and!; done.
    + right. split; [|done]. intros j Hj. apply Hno. lia.
Qed.

Lemma readWAVFile_data_chunk_witness :
  0 <= 16000 < 2 ^ 32
  ∧ ((∃ i, (12 ≤ i < length Scenario.wav - 8)%nat
           ∧ Wav.data_tag_at Scenario.wav i = true
           ∧ (∀ j, (12 ≤ j < i)%nat → Wav.data_tag_at Scenario.wav j = false)
           ∧ [x00; x40; x00; xc0] = drop (i + 8) Scenario.wav)
     ∨ ((∀ j, (12 ≤ j < length Scenario.wav - 8)%nat → Wav.data_tag_at Scenario.wav j = false)
        ∧ [x00; x40; x00; xc0] = drop 44 Scenario.wav)).
Proof. apply (readWAVFile_data_chunk Scenario.wav); vm_compute; reflexivity. Defined.

Lemma poll_from_emits (samples : list Z) (k0 : nat) (last : Z) (k : nat) (v : Z) :
  (k, v) ∈ Registry.poll_from k0 last samples ↔
  (k0 ≤ k)%nat ∧ samples !! (k - k0)%nat = Some v ∧ 0 < v <= 100
  ∧ v ≠ (match (k - k0)%nat with O => last | S j => default 0 (samples !! j) end).
Proof.
  revert k0 last. induction samples as [|cur rest IH]; intros k0 last.
  { simpl. split; [by intros ?%elem_of_nil|]. intros (_ & Hv & _). by rewrite lookup_nil in Hv. }
  rewrite poll_from_cons.
  assert ((k, v) ∈ Registry.poll_from (S k0) cur rest ↔
          (k0 < k)%nat ∧ (cur :: rest) !! (k - k0)%nat = Some v ∧ 0 < v <= 100
          ∧ v ≠ (match (k - k0)%nat with O => last | S j => default 0 ((cur :: rest) !! j) end))
    as Hrest.
  { rewrite IH. split.
    - intros (Hk & Hv & Hr & Hne). replace (k - k0)%nat with (S (k - S k0)) by lia.
      split; [lia|]. split; [done|]. split; [done|].
      destruct (k - S k0)%nat as [|j] eqn:Hj; simpl; done.
    - intros (Hk & Hv & Hr & Hne). replace (k - k0)%nat with (S (k - S k0)) in Hv, Hne by lia.
      split; [lia|]. split; [done|]. split; [done|].
      destruct (k - S k0)%nat as [|j] eqn:Hj; simpl in *; done. }
  destruct (snd (Registry.poll_tick last cur)) as [w|] eqn:Hout.
  - apply poll_tick_out in Hout as (-> & Hne & Hr).
    rewrite elem_of_cons, Hrest. split.
    + intros [[= -> ->]|(Hk & Hv & Hrv & Hnev)].
      * rewrite Nat.sub_diag. simpl. split; [lia|]. done.
      * split; [lia|]. done.
    + intros (Hk & Hv & Hrv & Hnev).
      destruct (decide (k = k0)) as [->|Hkk].
      * left. rewrite Nat.sub_diag in Hv. simpl in Hv. by injection Hv as ->.
      * right. split; [lia|]. done.
  - rewrite Hrest. split.
    + intros (Hk & Hv & Hrv & Hnev). split; [lia|]. done.
    + intros (Hk & Hv & Hrv & Hnev).
      destruct (decide (k = k0)) as [->|Hkk]; [|split; [lia|done]].
      exfalso. rewrite Nat.sub_diag in Hv, Hnev. simpl in Hv, Hnev. injection Hv as ->.
      assert (snd (Registry.poll_tick last v) = Some v) as Hsome
        by (apply poll_tick_out; split; [done|split; [done|lia]]).
      congruence.
Qed.

(** X16.  The polling goroutine reports at tick [k] the value [v] exactly when
    [v] is what it loads at that tick, lies in 1..100, and differs from
    what it loaded at the tick before, or from -1 at the first tick. *)
Theorem poll_reports_changes (samples : list Z) (k : nat) (v : Z) :
  (k, v) ∈ Registry.poll samples ↔
  samples !! k = Some v ∧ 0 < v <= 100
  ∧ v ≠ (match k with O => -1 | S j => default 0 (samples !! j) end).
Proof.
  unfold Registry.poll. rewrite poll_from_emits, Nat.sub_0_r.
  split; [by intros (_ & ?)|]. intros ?. split; [lia|done].
Qed.

(** ** No call waits for ever *)

Lemma settles_initial calls : settles (initial calls).
Proof.
  intros i t Ht. unfold initial in Ht. simpl in Ht.
  apply list_lookup_fmap_Some in Ht as (call & -> & _).
  exists Out. split; [done|]. simpl. apply trace_disciplined.
Qed.

Lemma step_preserves_settles i c c' : settles c → step_thread i c = Some c' → settles c'.
Proof.
  intros Hset Hstep.
  apply step_thread_inv in Hstep as (t & ev & rest & Ht & Htodo & Hpool & _).
  intros j tj Htj. rewrite Hpool in Htj.
  destruct (decide (j = i)) as [->|Hj].
  - rewrite list_lookup_insert_eq in Htj by by eapply lookup_lt_Some.
    injection Htj as <-.
    destruct (Hset i t Ht) as (p & Hp & Hrest). rewrite Htodo in Hrest. simpl in Hrest.
    destruct (advance (mutex_of (th_model t)) p ev) as [p'|] eqn:Hadv; [|done].
    exists p'. split; [|done]. unfold position in *. simpl.
    rewrite advance_all_app, Hp. simpl. by rewrite Hadv.
  - rewrite list_lookup_insert_ne in Htj by done. by apply (Hset j).
Qed.

Lemma settles_reachable calls c : reachable calls c → settles c.
Proof.
  unfold reachable. intros Hreach.
  eapply (rtc_ind_r (λ c, settles c)); [apply settles_initial| |exact Hreach].
  intros c1 c2 _ [i Hstep] IH. by eapply step_preserves_settles.
Qed.

(** A thread whose next event is no [Lock] can move. *)
Lemma step_thread_free i c t ev rest :
  pool c !! i = Some t → th_todo t = ev :: rest →
  (∀ a, ev ≠ EvLock a) → is_Some (step_thread i c).
Proof.
  intros Ht Htodo Hev. unfold step_thread. rewrite Ht, Htodo.
  destruct ev; try by eexists. by destruct (Hev mutex).
Qed.

Lemma sum_list_insert (l : list nat) (i x y : nat) :
  l !! i = Some x → (sum_list (<[i := y]> l) + x = sum_list l + y)%nat.
Proof.
  revert i. induction l as [|a l IH]; intros [|i] Hi; simpl in *; try done.
  - injection Hi as ->. lia.
  - specialize (IH i Hi). lia.
Qed.

(** X17.  Calls of [TranscribeWithTranslation] that run side by side never
    block one another for good, as long as every call of [whisper_full]
    returns.  In every configuration some interleaving reaches: while a
    thread has an event left some thread can move; when none has, every
    mutex is free; and every move uses up one event, so every interleaving
    ends. *)
Theorem calls_run_to_completion (calls : list Call) (c : config) :
  reachable calls c →
  (pending c → ∃ c', step c c')
  ∧ (¬ pending c → owner c = ∅)
  ∧ ∀ c', step c c' → S (remaining c') = remaining c.
Proof.
  intros Hreach.
  pose proof (inv_reachable _ _ Hreach) as [Hthreads Howner].
  pose proof (settles_reachable _ _ Hreach) as Hset.
  split_and!.
  - intros (i & t & Ht & Htodo).
    destruct (th_todo t) as [|ev rest] eqn:Hev; [done|].
    assert ((∃ a k, ev = EvLock a ∧ owner c !! a = Some k) ∨ is_Some (step_thread i c))
      as [(a & k & -> & Hk)|[c' Hc']]; [| |by exists c', i].
    { unfold step_thread. rewrite Ht, Hev.
      destruct ev; try (right; by eexists).
      destruct (owner c !! mutex) as [k|] eqn:Hk; [left; by exists mutex, k|right; by eexists]. }
    (* the owner of the mutex can move *)
    destruct (Howner a k Hk) as (tk & pk & Htk & Hmk & Hpk & Hne).
    destruct (Hset k tk Htk) as (p & Hp & Hrest).
    rewrite Hpk in Hp. injection Hp as <-. rewrite Hmk in Hrest.
    destruct (th_todo tk) as [|ev' rest'] eqn:Htodok.
    { simpl in Hrest. by injection Hrest. }
    destruct (step_thread_free k c tk ev' rest' Htk Htodok) as [c' Hc'].
    { intros a' ->. simpl in Hrest. by destruct pk. }
    exists c'. by exists k.
  - intros Hdone. apply map_empty. intros a.
    destruct (owner c !! a) as [k|] eqn:Hk; [|done]. exfalso.
    destruct (Howner a k Hk) as (tk & pk & Htk & Hmk & Hpk & Hne).
    destruct (Hset k tk Htk) as (p & Hp & Hrest).
    rewrite Hpk in Hp. injection Hp as <-.
    destruct (th_todo tk) as [|ev' rest'] eqn:Htodok.
    + simpl in Hrest. by injection Hrest.
    + apply Hdone. exists k, tk. split; [done|]. by rewrite Htodok.
  - intros c' [i Hstep].
    apply step_thread_inv in Hstep as (t & ev & rest & Ht & Htodo & Hpool & _).
    unfold remaining. rewrite Hpool.
    change (map ?f ?l) with (f <$> l). rewrite list_fmap_insert. simpl.
    pose proof (sum_list_insert ((fun t => length (th_todo t)) <$> pool c) i
                  (length (th_todo t)) (length rest)) as Hsum.
    rewrite list_lookup_fmap, Ht in Hsum. specialize (Hsum eq_refl).
    rewrite Htodo in Hsum. simpl in Hsum. lia.
Qed.

Lemma calls_run_to_completion_witness :
  (pending Scenario.contended → ∃ c', step Scenario.contended c')
  ∧ (¬ pending Scenario.contended → owner Scenario.contended = ∅)
  ∧ ∀ c', step Scenario.contended c' → S (remaining c') = remaining Scenario.contended.
Proof.
  apply (calls_run_to_completion [Scenario.call_a; Scenario.call_b] Scenario.contended).
  unfold reachable.
  do 7 (eapply rtc_l; [exists 0%nat; vm_compute; reflexivity|]).
  vm_compute. apply rtc_refl.
Defined.







(** ** Translation *)

Section TranslatorFacts.

Import Translator.

Variable t : MistralTranslator.
Variable env : TranslateEnv.
Variable targetLang : string.

Lemma Translate_quiet (text : string) (n : nat) :
  let '(r, n', tr) := Translate t env text targetLang None n in
  if String.eqb text ""
  then r = Ok "" ∧ n' = n ∧ tr = []
  else n' = S n ∧ tr = [Post (ollamaURL t) (model t) (prompt (langName targetLang) text)].
Proof.
  unfold Translate. destruct (String.eqb text ""); [done|].
  simpl. repeat case_match; simplify_eq; done.
Qed.

Lemma delivered_app (to : sink) (tr1 tr2 : list Action) :
  delivered to (tr1 ++ tr2) = delivered to tr1 ++ delivered to tr2.
Proof. apply omap_app. Qed.

Lemma posts_app (tr1 tr2 : list Action) : posts (tr1 ++ tr2) = posts tr1 ++ posts tr2.
Proof. apply omap_app. Qed.

Lemma say_silent (pc : option sink) (msg : string) (to : sink) :
  posts (say pc msg) = [] ∧ delivered to (say pc msg) = [].
Proof. by destruct pc. Qed.

(** One iteration: the request for the segment, if it has text. *)
Lemma Translate_step (seg : Segment) (n : nat) (r : result string) (n' : nat)
    (tr : list Action) (to : sink) :
  Translate t env (Text seg) targetLang None n = (r, n', tr) →
  posts tr = prompts targetLang [seg] ∧ delivered to tr = []
  ∧ (Text seg = "" → r = Ok "")
  ∧ (is_err r → has_text seg = true).
Proof.
  intros H. pose proof (Translate_quiet (Text seg) n) as Hq. rewrite H in Hq.
  unfold prompts, has_text. simpl.
  destruct (String.eqb (Text seg) "") eqn:Htext; simpl.
  - destruct Hq as (-> & -> & ->). done.
  - destruct Hq as (-> & ->). split_and!; [done|done| |done].
    intros Hempty. rewrite Hempty in Htext. done.
Qed.

Lemma translate_loop_ok (pc sc : option sink) (total : nat) (segments : list Segment) :
  ∀ (i n : nat) (out : list Segment) (n' : nat) (tr : list Action),
  translate_loop t env targetLang pc sc total i segments n = (Ok out, n', tr) →
  Forall2 (fun seg o => ∃ translation,
             o = translated seg translation ∧ (Text seg = "" → translation = ""))
          segments out
  ∧ posts tr = prompts targetLang segments
  ∧ ∀ to, delivered to tr = if decide (sc = Some to) then out else [].
Proof.
  induction segments as [|seg rest IH]; intros i n out n' tr; simpl.
  { intros [= <- <- <-]. split_and!; [constructor|done|]. intros to. by case_decide. }
  destruct (Translate t env (Text seg) targetLang None n) as [[r n1] tr1] eqn:Htr.
  destruct r as [translation|err]; [|done].
  destruct (translate_loop t env targetLang pc sc total (S i) rest n1)
    as [[r' n2] tr3] eqn:Hrest.
  destruct r' as [out'|err]; [|done].
  intros [= <- <- <-].
  destruct (IH _ _ _ _ _ Hrest) as (Hall & Hposts & Hdel).
  split_and!.
  - constructor; [|done]. exists translation. split; [done|].
    intros Hempty. destruct (Translate_step seg n _ _ _ 0%N Htr) as (_ & _ & Hok & _).
    specialize (Hok Hempty). by injection Hok.
  - destruct (Translate_step seg n _ _ _ 0%N Htr) as (Hp & _).
    rewrite !posts_app, Hposts, Hp, (proj1 (say_silent pc _ 0%N)).
    assert (posts (match sc with Some to => [Delivered to
              {| Start := Start seg; End_ := End_ seg; Text := translation;
                 Original := Text seg; Translation := translation; Speaker := 0 |}]
            | None => [] end) = []) as -> by by destruct sc.
    unfold prompts. simpl. by destruct (has_text seg).
  - intros to. destruct (Translate_step seg n _ _ _ to Htr) as (_ & Hd & _).
    rewrite !delivered_app, Hdel, Hd, (proj2 (say_silent pc _ to)). simpl.
    destruct sc as [to'|]; simpl.
    + case_decide as Heq.
      * injection Heq as ->. by rewrite N.eqb_refl.
      * destruct (N.eqb_spec to' to) as [->|?]; done.
    + first [done | by case_decide].
Qed.


(** A translation that succeeds on a text is the server's answer to the
    request, decoded and trimmed. *)
Lemma Translate_ok (text : string) (pc : option sink) (k k' : nat) (s : string)
    (tr : list Action) :
  Translate t env text targetLang pc k = (Ok s, k', tr) →
  if String.eqb text "" then s = "" ∧ k' = k
  else k' = S k
       ∧ ∃ body Response,
           env_post env k (ollamaURL t) (model t) (prompt (langName targetLang) text)
           = PostResponse 200 body None
           ∧ env_unmarshal env body = Ok Response
           ∧ s = env_TrimSpace env Response.
Proof.
  unfold Translate. destruct (String.eqb text ""); [by intros [= <- <- _]|].
  destruct (env_post env k (ollamaURL t) (model t) (prompt (langName targetLang) text))
    as [err|StatusCode body readErr]; [done|].
  destruct (Z.eqb_spec StatusCode 200) as [->|?]; simpl; [|done].
  destruct readErr as [err|]; [done|].
  destruct (env_unmarshal env body) as [Response|err] eqn:Hun; [|done].
  intros [= <- <- _]. split; [done|]. by exists body, Response.
Qed.

Lemma translate_loop_answers (pc sc : option sink) (total : nat) (segments : list Segment) :
  ∀ (i n : nat) (out : list Segment) (n' : nat) (tr : list Action),
  translate_loop t env targetLang pc sc total i segments n = (Ok out, n', tr) →
  n' = (n + length (List.filter has_text segments))%nat
  ∧ ∀ j seg o, segments !! j = Some seg → out !! j = Some o → Text seg ≠ "" →
      ∃ body Response,
        env_post env (n + requests_before j segments) (ollamaURL t) (model t)
          (prompt (langName targetLang) (Text seg)) = PostResponse 200 body None
        ∧ env_unmarshal env body = Ok Response
        ∧ Text o = env_TrimSpace env Response
        ∧ Translation o = env_TrimSpace env Response.
Proof.
  induction segments as [|seg rest IH]; intros i n out n' tr; simpl.
  { intros [= <- <- <-]. split; [lia|]. intros j seg o Hj. by rewrite lookup_nil in Hj. }
  destruct (Translate t env (Text seg) targetLang None n) as [[r n1] tr1] eqn:Htr.
  destruct r as [translation|err]; [|done].
  destruct (translate_loop t env targetLang pc sc total (S i) rest n1)
    as [[r' n2] tr3] eqn:Hrest.
  destruct r' as [out'|err]; [|done].
  intros [= <- <- <-].
  destruct (IH _ _ _ _ _ Hrest) as (Hn2 & Hanswers).
  pose proof (Translate_ok _ _ _ _ _ _ Htr) as Hok.
  unfold has_text at 1.
  assert (n1 = (n + length (List.filter has_text [seg]))%nat) as Hn1.
  { simpl. unfold has_text. destruct (String.eqb (Text seg) ""); simpl.
    - destruct Hok as [_ ->]. lia.
    - destruct Hok as [-> _]. lia. }
  split.
  { rewrite Hn2, Hn1. simpl. unfold has_text.
    destruct (String.eqb (Text seg) ""); simpl; lia. }
  intros [|j] seg' o Hj Ho Htext; simpl in Hj, Ho.
  - injection Hj as <-. injection Ho as <-. simpl.
    apply String.eqb_neq in Htext. rewrite Htext in Hok.
    destruct Hok as (_ & body & Response & Hpost & Hun & ->).
    exists body, Response. unfold requests_before. simpl. rewrite Nat.add_0_r.
    split_and!; done.
  - destruct (Hanswers j seg' o Hj Ho Htext) as (body & Response & Hpost & Hrest').
    exists body, Response. split; [|done].
    unfold requests_before in *.
    change (take (S j) (seg :: rest)) with (seg :: take j rest).
    assert ((n + length (List.filter has_text (seg :: take j rest)))%nat
            = (n1 + length (List.filter has_text (take j rest)))%nat) as ->; [|done].
    rewrite Hn1. simpl. destruct (has_text seg); simpl; lia.
Qed.

End TranslatorFacts.

(** X18.  A successful [TranslateSegments] returns one segment per input
    segment, with the times of the input, the input text as [Original],
    the translation as both [Text] and [Translation], and speaker 0
    whatever the speaker of the input.  The translation of a segment with
    text is the server's answer to the request sent for it, with status
    200, decoded and trimmed; a segment without text is not sent and gets
    an empty translation.  The requests are those of the segments with
    text, in order, the segment sink sees the returned list, and the pass
    that keeps the original leaves the list as it is. *)
Theorem translate_segments_success
    (t : Translator.MistralTranslator) (env : Translator.TranslateEnv)
    (segments : list Segment) (targetLang : string) (pc sc : option sink)
    (n n' : nat) (out : list Segment) (tr : list Translator.Action) :
  Translator.TranslateSegments t env segments targetLang pc sc n = (Ok out, n', tr) →
  length out = length segments
  ∧ (∀ j seg o, segments !! j = Some seg → out !! j = Some o →
       Start o = Start seg ∧ End_ o = End_ seg ∧ Original o = Text seg
       ∧ Text o = Translation o ∧ Speaker o = 0 ∧ (Text seg = "" → Text o = ""))
  ∧ Translator.posts tr = Translator.prompts targetLang segments
  ∧ (∀ to, sc = Some to → Translator.delivered to tr = out)
  ∧ Translator.keep_original_pass true out = out
  ∧ n' = (n + length (List.filter Translator.has_text segments))%nat
  ∧ ∀ j seg o, segments !! j = Some seg → out !! j = Some o → Text seg ≠ "" →
      ∃ body Response,
        Translator.env_post env (n + Translator.requests_before j segments)
          (Translator.ollamaURL t) (Translator.model t)
          (Translator.prompt (Translator.langName targetLang) (Text seg))
        = Translator.PostResponse 200 body None
        ∧ Translator.env_unmarshal env body = Ok Response
        ∧ Text o = Translator.env_TrimSpace env Response
        ∧ Translation o = Translator.env_TrimSpace env Response.
Proof.
  intros H. unfold Translator.TranslateSegments in H.
  destruct (translate_loop_ok t env targetLang pc sc _ _ _ _ _ _ _ H) as (Hall & Hposts & Hdel).
  destruct (translate_loop_answers t env targetLang pc sc _ _ _ _ _ _ _ H)
    as (Hcount & Hanswers).
  split_and!.
  - symmetry. by eapply Forall2_length.
  - intros j seg o Hj Ho.
    destruct (Forall2_lookup_lr _ _ _ _ _ _ Hall Hj Ho) as (translation & -> & Hempty).
    simpl. split_and!; done.
  - done.
  - intros to ->. rewrite Hdel. by case_decide.
  - clear H Hposts Hdel Hanswers Hcount.
    induction Hall as [|seg o segs outs (translation & -> & _) _ IH];
      [done|]. unfold Translator.keep_original_pass in *. simpl. by f_equal.
  - done.
  - done.
Qed.

(** The three segments of the scenario, each answered with "Hello". *)
Lemma translate_segments_success_witness :
  ∃ out n' tr,
    Translator.TranslateSegments Translator.NewMistralTranslator (Translator.echo 200 "Hello")
      Scenario.transcript "en" (Some 1%N) (Some 2%N) 0 = (Ok out, n', tr)
    ∧ length out = length Scenario.transcript
    ∧ Translator.posts tr = Translator.prompts "en" Scenario.transcript
    ∧ Translator.delivered 2%N tr = out
    ∧ n' = 3%nat
    ∧ ∃ o, out !! 0%nat = Some o ∧ Text o = "Hello" ∧ Translation o = "Hello".
Proof.
  eexists _, _, _. split; [vm_compute; reflexivity|].
  eassert (Translator.TranslateSegments Translator.NewMistralTranslator
             (Translator.echo 200 "Hello") Scenario.transcript "en" (Some 1%N) (Some 2%N) 0
           = (Ok _, _, _)) as Hrun by (vm_compute; reflexivity).
  destruct (translate_segments_success _ _ _ _ _ _ _ _ _ _ Hrun)
    as (Hlen & _ & Hposts & Hdel & _ & Hcount & Hanswers).
  split_and!; [exact Hlen|exact Hposts|exact (Hdel 2%N eq_refl)|exact Hcount|].
  eassert (Scenario.transcript !! 0%nat = Some _) as Hseg by (vm_compute; reflexivity).
  match type of Hrun with
  | _ = (Ok ?l, _, _) =>
      eassert (l !! 0%nat = Some _) as Ho by (vm_compute; reflexivity)
  end.
  destruct (Hanswers 0%nat _ _ Hseg Ho) as (body & Response & Hpost & Hun & Htext & Htrans).
  { intros Heq. vm_compute in Heq. discriminate. }
  eexists. split; [exact Ho|].
  injection Hpost as <-. injection Hun as <-. split; [exact Htext|exact Htrans].
Defined.



(** ** Video files *)

Section PathFacts.

Import Paths.

Variable windows : bool.

Lemma list_ascii_app (a b : string) :
  list_ascii_of_string (a +:+ b) = list_ascii_of_string a ++ list_ascii_of_string b.
Proof. induction a as [|c a IH]; simpl; [done|]. by rewrite IH. Qed.

(** [filepath.Ext] returns nothing, or the suffix of the path that starts at
    its last dot, and then no separator follows that dot. *)
Lemma ext_loop_suffix (path : list ascii) (n : nat) :
  (∀ j c, (n ≤ j)%nat → path !! j = Some c →
          IsPathSeparator windows c = false ∧ Ascii.eqb c "." = false) →
  ext_loop windows path n = []
  ∨ ∃ i, (i < n)%nat ∧ ext_loop windows path n = drop i path ∧ path !! i = Some "."%char
         ∧ ∀ j c, (i < j)%nat → path !! j = Some c →
                  IsPathSeparator windows c = false ∧ Ascii.eqb c "." = false.
Proof.
  induction n as [|i IH]; intros Hafter; simpl; [by left|].
  destruct (path !! i) as [c|] eqn:Hc; [|by left].
  destruct (IsPathSeparator windows c) eqn:Hsep; [by left|].
  destruct (Ascii.eqb c ".") eqn:Hdot.
  - right. apply Ascii.eqb_eq in Hdot as ->. exists i.
    split_and!; [lia|done|done|]. intros j c' Hj. apply Hafter. lia.
  - assert (∀ j c', (i ≤ j)%nat → path !! j = Some c' →
                    IsPathSeparator windows c' = false ∧ Ascii.eqb c' "." = false) as Hpre.
    { intros j c' Hj Hc'. destruct (decide (j = i)) as [->|?]; [|apply (Hafter j); [lia|done]].
      rewrite Hc in Hc'. by injection Hc' as <-. }
    destruct (IH Hpre) as [?|(i' & Hi' & Heq & Hdot' & Hafter')]; [by left|].
    right. exists i'. split_and!; [lia|done..].
Qed.

(** The extension of a path that ends in a dot followed by bytes that are
    neither dots nor separators. *)
Lemma ext_loop_found (stem body : list ascii) (k : nat) :
  (k ≤ length body)%nat →
  Forall (fun c => IsPathSeparator windows c = false ∧ Ascii.eqb c "." = false) body →
  ext_loop windows (stem ++ "."%char :: body) (length stem + 1 + k) = "."%char :: body.
Proof.
  intros Hk Hbody. induction k as [|k IH].
  - replace (length stem + 1 + 0)%nat with (S (length stem)) by lia. simpl.
    rewrite lookup_app_r, Nat.sub_diag by lia. simpl.
    assert (IsPathSeparator windows "." = false) as -> by by destruct windows.
    rewrite drop_app_length. done.
  - replace (length stem + 1 + S k)%nat with (S (length stem + 1 + k)) by lia. simpl.
    rewrite lookup_app_r by lia.
    replace (length stem + 1 + k - length stem)%nat with (S k) by lia. simpl.
    destruct (body !! k) as [c|] eqn:Hc.
    2:{ apply lookup_ge_None in Hc. lia. }
    destruct (proj1 (Forall_lookup _ _) Hbody k c Hc) as [-> ->]. apply IH. lia.
Qed.

Lemma videoExts_spec (ext : string) :
  default false (videoExts !! ext) = true ↔ ext ∈ video_extensions.
Proof.
  destruct (decide (ext ∈ video_extensions)) as [Hin|Hout].
  - split; [done|]. intros _. unfold video_extensions in Hin.
    repeat (apply elem_of_cons in Hin as [->|Hin]; [by vm_compute|]).
    by apply elem_of_nil in Hin.
  - split; [|done]. unfold video_extensions in Hout.
    repeat (apply not_elem_of_cons in Hout as [? Hout]).
    unfold videoExts. rewrite !lookup_insert_ne by done. by rewrite lookup_empty.
Qed.

Lemma Ext_append (stem ext : string) :
  plain windows ext = true → Ext windows (stem +:+ ext) = ext.
Proof.
  unfold plain, Ext. rewrite list_ascii_app.
  destruct (list_ascii_of_string ext) as [|c body] eqn:Hext; [done|].
  intros [->%Ascii.eqb_eq Hbody]%andb_true_iff.
  rewrite length_app. simpl.
  replace (length (list_ascii_of_string stem) + S (length body))%nat
    with (length (list_ascii_of_string stem) + 1 + length body)%nat by lia.
  rewrite ext_loop_found; [|lia|].
  - by rewrite <- Hext, string_of_list_ascii_of_string.
  - apply Forall_forall. intros c Hc.
    rewrite forallb_forall in Hbody. specialize (Hbody c (proj1 (list_elem_of_In _ _) Hc)).
    apply negb_true_iff, orb_false_iff in Hbody. done.
Qed.

Lemma string_app_nil_r (s : string) : s +:+ "" = s.
Proof.
  induction s as [|c s IH]; [done|].
  change (String c s +:+ "") with (String c (s +:+ "")). by rewrite IH.
Qed.

Lemma Ext_suffix (path : string) : ∃ stem, path = stem +:+ Ext windows path.
Proof.
  unfold Ext. set (bytes := list_ascii_of_string path).
  destruct (ext_loop_suffix bytes (length bytes)) as [->|(i & Hi & -> & _)].
  - intros j c Hj Hc. apply lookup_lt_Some in Hc. lia.
  - exists path. simpl. symmetry. apply string_app_nil_r.
  - exists (string_of_list_ascii (take i bytes)).
    rewrite <- (string_of_list_ascii_of_string path) at 1. fold bytes.
    rewrite <- (take_drop i bytes) at 1.
    generalize (take i bytes) (drop i bytes). intros a b.
    induction a as [|c a IH]; simpl; [done|]. by rewrite IH.
Qed.

End PathFacts.

(** X20.  [IsVideoFile] holds exactly for the paths that end in one of the nine
    extensions of the table, in the table's lower case, on Unix and on
    Windows alike. *)
Theorem IsVideoFile_by_extension (windows : bool) (filePath : string) :
  Paths.IsVideoFile windows filePath = true
  ↔ ∃ stem ext, ext ∈ Paths.video_extensions ∧ filePath = stem +:+ ext.
Proof.
  unfold Paths.IsVideoFile. rewrite videoExts_spec. split.
  - intros Hin. destruct (Ext_suffix windows filePath) as [stem Hstem]. by exists stem, (Paths.Ext windows filePath).
  - intros (stem & ext & Hin & ->). rewrite Ext_append; [done|].
    unfold Paths.video_extensions in Hin.
    repeat (apply elem_of_cons in Hin as [->|Hin]; [by destruct windows|]).
    by apply elem_of_nil in Hin.
Qed.

(** ** Model files *)

Section ModelFilesFacts.

Import ModelFiles.

Lemma find_first {A} (f : A → bool) (l : list A) (i : nat) (x : A) :
  l !! i = Some x → f x = true →
  (∀ j y, (j < i)%nat → l !! j = Some y → f y = false) →
  List.find f l = Some x.
Proof.
  revert i. induction l as [|a l IH]; intros i Hi Hx Hbefore; [done|].
  destruct i as [|i]; simpl in *.
  - injection Hi as ->. by rewrite Hx.
  - rewrite (Hbefore 0%nat a) by (done || lia).
    apply (IH i); [done..|]. intros j y Hj Hy. apply (Hbefore (S j)); [lia|done].
Qed.

Lemma find_Some_first {A} (f : A → bool) (l : list A) (x : A) :
  List.find f l = Some x →
  ∃ i, l !! i = Some x ∧ f x = true ∧ ∀ j y, (j < i)%nat → l !! j = Some y → f y = false.
Proof.
  induction l as [|a l IH]; [done|]. simpl.
  destruct (f a) eqn:Ha.
  - intros [= ->]. exists 0%nat. split_and!; [done..|]. intros j y Hj. lia.
  - intros (i & Hi & Hx & Hbefore)%IH. exists (S i). split_and!; [done..|].
    intros [|j] y Hj Hy; simpl in *; [by injection Hy as <-|]. apply (Hbefore j); [lia|done].
Qed.

Lemma find_None_all {A} (f : A → bool) (l : list A) :
  List.find f l = None ↔ ∀ x, x ∈ l → f x = false.
Proof.
  rewrite <- Forall_forall. induction l as [|a l IH]; simpl.
  { split; [constructor|done]. }
  destruct (f a) eqn:Ha.
  - split; [done|]. intros [? _]%Forall_cons. congruence.
  - rewrite IH. split; [by constructor|]. by intros [_ ?]%Forall_cons.
Qed.

Lemma fetches_app (tr1 tr2 : list Action) : fetches (tr1 ++ tr2) = fetches tr1 ++ fetches tr2.
Proof. apply omap_app. Qed.

Lemma fetches_say (pc : option sink) (msg : string) (pct : Z) : fetches (say pc msg pct) = [].
Proof. by destruct pc. Qed.

(** The downloads of the traces [GetModelPath] builds. *)
Lemma ModelFiles_fetches (pc : option sink) (msg : string) (pct : Z)
    (tr : list Action) :
  fetches (say pc msg pct ++ tr) = fetches tr.
Proof. by destruct pc. Qed.

End ModelFilesFacts.

(** X21.  For a model of the table, [GetModelPath] returns the first of the six
    candidate paths that exists, in the order of the list; it reports the
    find to the progress sink and neither creates a directory nor
    downloads anything. *)
Theorem model_path_prefers_local_file
    (env : ModelFiles.FilesEnv) (modelID : string) (pc : option sink)
    (modelInfo : ModelFiles.ModelInfo) (i : nat) (path : string) :
  let candidates :=
    ModelFiles.possiblePaths env modelID (ModelFiles.localFileName modelInfo) in
  ModelFiles.loadModelsConfig env !! modelID = Some modelInfo →
  ModelFiles.ID modelInfo ≠ "" →
  candidates !! i = Some path →
  ModelFiles.env_stat env path = true →
  (∀ j p, (j < i)%nat → candidates !! j = Some p → ModelFiles.env_stat env p = false) →
  ModelFiles.GetModelPath env modelID pc
  = (Ok path, ModelFiles.say pc ("Found model at: " +:+ path) (-1)).
Proof.
  intros candidates Hinfo HID Hi Hstat Hbefore. unfold ModelFiles.GetModelPath.
  rewrite Hinfo. apply String.eqb_neq in HID. rewrite HID.
  fold candidates. by rewrite (find_first _ _ i path Hi Hstat Hbefore).
Qed.

(** X22.  When no candidate exists [GetModelPath] creates the cache directory
    and fetches the model from Hugging Face into it.  If that fails the
    direct mirror is tried, for the model id "base" only and only when the
    file has a direct URL.  The call succeeds exactly when one of the
    fetches made succeeds, and then returns the path in the cache
    directory. *)
Theorem model_path_download
    (env : ModelFiles.FilesEnv) (modelID : string) (pc : option sink)
    (modelInfo : ModelFiles.ModelInfo) (r : result string) (tr : list ModelFiles.Action) :
  let localFileName := ModelFiles.localFileName modelInfo in
  let cacheDir :=
    ModelFiles.env_Join env [ModelFiles.env_UserHomeDir env; ".cache"; "whisper"] in
  let modelPath := ModelFiles.env_Join env [cacheDir; localFileName] in
  let hub := "https://huggingface.co/" +:+ ModelFiles.ID modelInfo +:+ "/resolve/main/"
             +:+ ModelFiles.File modelInfo in
  ModelFiles.loadModelsConfig env !! modelID = Some modelInfo →
  ModelFiles.ID modelInfo ≠ "" →
  (∀ p, p ∈ ModelFiles.possiblePaths env modelID localFileName →
        ModelFiles.env_stat env p = false) →
  ModelFiles.GetModelPath env modelID pc = (r, tr) →
  ModelFiles.MkdirAll cacheDir ∈ tr
  ∧ (∀ p, r = Ok p → p = modelPath)
  ∧ match ModelFiles.env_fetch env hub modelPath with
    | None => r = Ok modelPath ∧ ModelFiles.fetches tr = [(hub, modelPath)]
    | Some _ =>
        if String.eqb modelID "base"
        then match ModelFiles.urlMap !! ModelFiles.File modelInfo with
             | Some url =>
                 ModelFiles.fetches tr = [(hub, modelPath); (url, modelPath)]
                 ∧ (r = Ok modelPath ↔ ModelFiles.env_fetch env url modelPath = None)
             | None => ModelFiles.fetches tr = [(hub, modelPath)] ∧ is_err r
             end
        else ModelFiles.fetches tr = [(hub, modelPath)] ∧ is_err r
    end.
Proof.
  intros localFileName cacheDir modelPath hub Hinfo HID Hnone.
  unfold ModelFiles.GetModelPath. rewrite Hinfo. apply String.eqb_neq in HID. rewrite HID.
  fold localFileName. rewrite (proj2 (find_None_all _ _) Hnone).
  unfold ModelFiles.downloadModelFromHuggingFace, ModelFiles.downloadModelDirect.
  fold cacheDir. fold modelPath. fold hub.
  assert (∀ tr0 rest, ModelFiles.MkdirAll cacheDir ∈ tr0 ++ [ModelFiles.MkdirAll cacheDir] ++ rest)
    as Hmk.
  { intros tr0 rest. apply elem_of_app. right. apply list_elem_of_here. }
  destruct (ModelFiles.env_fetch env hub modelPath) as [err|] eqn:Hhub.
  - destruct (String.eqb modelID "base").
    + destruct (ModelFiles.urlMap !! ModelFiles.File modelInfo) as [url|].
      * destruct (ModelFiles.env_fetch env url modelPath) as [err'|] eqn:Hdirect;
          intros [= <- <-]; (split; [apply Hmk|]); (split; [by intros ? [= <-]|]);
          destruct pc; simpl; repeat split; done.
      * intros [= <- <-]. split; [apply Hmk|]. split; [done|].
        destruct pc; simpl; repeat split; done.
    + intros [= <- <-]. split; [apply Hmk|]. split; [done|].
      destruct pc; simpl; repeat split; done.
  - intros [= <- <-]. split; [apply Hmk|]. split; [by intros ? [= <-]|].
    destruct pc; simpl; repeat split; done.
Qed.

Lemma model_path_prefers_local_file_witness :
  ModelFiles.GetModelPath
    (ModelFiles.machine (String.eqb "/usr/local/share/whisper/ggml-large-v3-turbo-ivrit.bin")
       (fun _ _ => Some "offline"))
    "turbo" (Some 1%N)
  = (Ok "/usr/local/share/whisper/ggml-large-v3-turbo-ivrit.bin",
     [ModelFiles.Progress 1%N
        "Found model at: /usr/local/share/whisper/ggml-large-v3-turbo-ivrit.bin" (-1)]).
Proof.
  eapply (model_path_prefers_local_file _ "turbo" (Some 1%N) _ 3).
  - vm_compute. reflexivity.
  - vm_compute. discriminate.
  - vm_compute. reflexivity.
  - vm_compute. reflexivity.
  - intros j p Hj Hp.
    destruct j as [|[|[|j]]]; [| | |lia]; vm_compute in Hp; injection Hp as <-;
      vm_compute; reflexivity.
Defined.

Lemma model_path_download_witness :
  ∃ r tr,
    ModelFiles.GetModelPath ModelFiles.mirror_only "base" None = (r, tr)
    ∧ r = Ok "/home/user/.cache/whisper/ggml-base.bin"
    ∧ length (ModelFiles.fetches tr) = 2%nat.
Proof.
  eexists _, _. split; [vm_compute; reflexivity|].
  eassert (ModelFiles.GetModelPath ModelFiles.mirror_only "base" None = (_, _)) as Hrun
    by (vm_compute; reflexivity).
  eassert (ModelFiles.loadModelsConfig ModelFiles.mirror_only !! "base" = Some _) as Hinfo
    by (vm_compute; reflexivity).
  pose proof (model_path_download ModelFiles.mirror_only "base" None _ _ _ Hinfo
                ltac:(vm_compute; discriminate) ltac:(done) Hrun) as (_ & _ & Hfetch).
  vm_compute in Hfetch. destruct Hfetch as [Hf Hr]. split; [|vm_compute; reflexivity].
  apply Hr. reflexivity.
Defined.

(** X23.  Without a configuration file the model table is the built-in one, and
    [GetModelPath] rejects a model id as unsupported, doing nothing else,
    exactly when the engine's [SupportsModel] rejects it. *)
Theorem builtin_models_are_the_engine_models
    (env : ModelFiles.FilesEnv) (modelID : string) (pc : option sink) :
  ModelFiles.no_config env →
  ModelFiles.loadModelsConfig env = ModelFiles.defaults
  ∧ (ModelFiles.GetModelPath env modelID pc = (Err ("unsupported model: " +:+ modelID), [])
     ↔ Lifecycle.SupportsModel modelID = false).
Proof.
  intros Hno.
  assert (ModelFiles.loadModelsConfig env = ModelFiles.defaults) as Hload.
  { unfold ModelFiles.loadModelsConfig, ModelFiles.configPaths. simpl. by rewrite !Hno. }
  split; [done|].
  unfold ModelFiles.GetModelPath. rewrite Hload.
  unfold Lifecycle.SupportsModel, ModelFiles.defaults.
  destruct (String.eqb_spec modelID "large-v3") as [->|H1].
  { rewrite lookup_insert_eq. simpl. split; [|done].
    repeat case_match; simplify_eq; try done.
    all: intros [= Hnil]; destruct pc; done. }
  rewrite lookup_insert_ne by done.
  destruct (String.eqb_spec modelID "turbo") as [->|H2].
  { rewrite lookup_insert_eq. simpl. split; [|done].
    repeat case_match; simplify_eq; try done.
    all: intros [= Hnil]; destruct pc; done. }
  rewrite lookup_insert_ne by done.
  destruct (String.eqb_spec modelID "base") as [->|H3].
  { rewrite lookup_insert_eq. simpl. split; [|done].
    repeat case_match; simplify_eq; try done.
    all: intros [= Hnil]; destruct pc; done. }
  rewrite lookup_insert_ne by done. rewrite lookup_empty. done.
Qed.

Lemma builtin_models_are_the_engine_models_witness :
  ModelFiles.loadModelsConfig (ModelFiles.machine (fun _ => false) (fun _ _ => None))
  = ModelFiles.defaults
  ∧ (ModelFiles.GetModelPath (ModelFiles.machine (fun _ => false) (fun _ _ => None))
       "large-v2" None = (Err ("unsupported model: " +:+ "large-v2"), [])
     ↔ Lifecycle.SupportsModel "large-v2" = false).
Proof. apply builtin_models_are_the_engine_models. intros configPath. reflexivity. Defined.

Section ConfigFacts.

Import ModelFiles.

Lemma first_config_spec (env : FilesEnv) (paths : list string) (i : nat) (path : string)
    (Models : gmap string ModelInfo) :
  paths !! i = Some path →
  env_config env path = Some Models → Models ≠ ∅ →
  (∀ j p, (j < i)%nat → paths !! j = Some p →
          env_config env p = None ∨ env_config env p = Some ∅) →
  first_config env paths = Some Models.
Proof.
  revert i. induction paths as [|p0 paths IH]; intros i Hi Hcfg Hne Hbefore; [done|].
  destruct i as [|i]; simpl in *.
  - injection Hi as ->. rewrite Hcfg.
    assert (0 < size Models)%nat as Hsize.
    { destruct (decide (size Models = 0%nat)) as [H0|?]; [|lia].
      by apply map_size_empty_iff in H0. }
    by apply Nat.ltb_lt in Hsize as ->.
  - destruct (Hbefore 0%nat p0 ltac:(lia) eq_refl) as [-> | ->].
    + apply (IH i); [done..|]. intros j p Hj Hp. apply (Hbefore (S j)); [lia|done].
    + rewrite map_size_empty. simpl.
      apply (IH i); [done..|]. intros j p Hj Hp. apply (Hbefore (S j)); [lia|done].
Qed.

End ConfigFacts.

(** X26.  A configuration file replaces the built-in table, it does not
    extend it: the table is the map of the first configuration file, in
    the order of the search, that decodes to a map with an entry, files
    that cannot be read or hold no model being passed over; a model id
    that this map lacks is unsupported, the built-in ones included. *)
Theorem config_file_replaces_builtin_models
    (env : ModelFiles.FilesEnv) (i : nat) (configPath : string)
    (Models : gmap string ModelFiles.ModelInfo) :
  ModelFiles.configPaths env !! i = Some configPath →
  ModelFiles.env_config env configPath = Some Models →
  Models ≠ ∅ →
  (∀ j p, (j < i)%nat → ModelFiles.configPaths env !! j = Some p →
          ModelFiles.env_config env p = None ∨ ModelFiles.env_config env p = Some ∅) →
  ModelFiles.loadModelsConfig env = Models
  ∧ ∀ modelID pc,
      Models !! modelID = None →
      ModelFiles.GetModelPath env modelID pc = (Err ("unsupported model: " +:+ modelID), []).
Proof.
  intros Hi Hcfg Hne Hbefore.
  assert (ModelFiles.loadModelsConfig env = Models) as Hload.
  { unfold ModelFiles.loadModelsConfig.
    by rewrite (first_config_spec env _ i configPath Models Hi Hcfg Hne Hbefore). }
  split; [done|]. intros modelID pc Hnone.
  unfold ModelFiles.GetModelPath. by rewrite Hload, Hnone.
Qed.

Lemma config_file_replaces_builtin_models_witness :
  ModelFiles.loadModelsConfig ModelFiles.configured = ModelFiles.tiny_only
  ∧ ModelFiles.GetModelPath ModelFiles.configured "turbo" None
    = (Err ("unsupported model: " +:+ "turbo"), []).
Proof.
  assert (ModelFiles.tiny_only ≠ ∅) as Hne.
  { intros Hempty. apply (f_equal (fun m => m !! "tiny")) in Hempty.
    vm_compute in Hempty. discriminate. }
  assert (∀ j p, (j < 0)%nat → ModelFiles.configPaths ModelFiles.configured !! j = Some p →
            ModelFiles.env_config ModelFiles.configured p = None
            ∨ ModelFiles.env_config ModelFiles.configured p = Some ∅) as Hbefore
    by (intros j p Hj; lia).
  destruct (config_file_replaces_builtin_models ModelFiles.configured 0 "models.json"
              ModelFiles.tiny_only eq_refl eq_refl Hne Hbefore) as [Hload Hunsupported].
  split; [exact Hload|]. apply Hunsupported. reflexivity.
Defined.
